(** * SMEM parity validator: a model of [scripts/smem_parity.py]

    The development embeds the pure core of the script: the traffic-log
    parser ([parse_traffic_lines] and the regular expression
    [TRAFFIC_LINE_RE]), the category heuristic ([traffic_type]), the two
    configuration transforms ([override_sim_timeout],
    [append_traffic_file_to_config]) and the comparison loop of [main].

    Text is modelled as a list of characters; a character is a code point
    in the range U+0000..U+00FF (an [ascii]).  The character classes of
    Python ([str.isspace], the line boundaries of [str.splitlines], the
    decimal digits of [\d]) are given in full on that range.  Python
    integers are unbounded, hence [Z]; the conversion [int] of a text
    refuses a number of more than 4300 digits, as CPython does by
    default. *)

From Stdlib Require Import List Ascii String ZArith Lia Bool DecimalString
  DecimalPos.
From stdpp Require Import base gmap strings.
Import ListNotations.

Local Open Scope Z_scope.
Local Open Scope list_scope.

(** ** Python strings *)

Module Text.

Definition str := list ascii.

(** A string literal of the source. *)
Definition lit (s : string) : str := list_ascii_of_string s.

Definition LF : ascii := ascii_of_N 10.
Definition CR : ascii := ascii_of_N 13.

(** [str.isspace] on one character: U+0009..U+000D, U+001C..U+0020,
    U+0085 and U+00A0. *)
Definition isspace (c : ascii) : bool :=
  let n := N_of_ascii c in
  (((9 <=? n) && (n <=? 13)) || ((28 <=? n) && (n <=? 32))
   || (n =? 133) || (n =? 160))%N.

(** The line boundaries of [str.splitlines]: LF, VT, FF, CR, FS, GS, RS
    and NEL. *)
Definition islinebreak (c : ascii) : bool :=
  let n := N_of_ascii c in
  (((10 <=? n) && (n <=? 13)) || ((28 <=? n) && (n <=? 30)) || (n =? 133))%N.

(** The decimal digits, [\d] and the digits [int] accepts. *)
Definition isdecimal (c : ascii) : bool :=
  let n := N_of_ascii c in ((48 <=? n) && (n <=? 57))%N.

(** [a == b] on strings. *)
Definition str_eqb (a b : str) : bool := bool_decide (a = b).

(** [s.startswith(p)] and [s.endswith(p)]. *)
Fixpoint startswith (p s : str) : bool :=
  match p, s with
  | [], _ => true
  | a :: p', b :: s' => Ascii.eqb a b && startswith p' s'
  | _ :: _, [] => false
  end.

Definition endswith (p s : str) : bool := startswith (rev p) (rev s).

(** [needle in hay]. *)
Fixpoint contains (needle hay : str) : bool :=
  startswith needle hay
  || match hay with
     | [] => false
     | _ :: hay' => contains needle hay'
     end.

(** The text without the characters of the class [sp] it starts with. *)
Fixpoint lstrip_by (sp : ascii -> bool) (s : str) : str :=
  match s with
  | c :: s' => if sp c then lstrip_by sp s' else s
  | [] => []
  end.

Definition rstrip_by (sp : ascii -> bool) (s : str) : str :=
  rev (lstrip_by sp (rev s)).

Definition strip_by (sp : ascii -> bool) (s : str) : str :=
  rstrip_by sp (lstrip_by sp s).

(** [s.lstrip()], [s.rstrip()] and [s.strip()]. *)
Definition lstrip (s : str) : str := lstrip_by isspace s.

Definition rstrip (s : str) : str := rstrip_by isspace s.

Definition strip (s : str) : str := strip_by isspace s.

(** [s.splitlines()].  [cur] holds the characters of the line being read,
    last one first.  A line boundary closes the line (a CR directly
    followed by LF is one boundary); what is left at the end of the text
    is a line only when it is not empty. *)
Fixpoint splitlines_from (cur : str) (s : str) : list str :=
  match s with
  | [] => match cur with [] => [] | _ :: _ => [rev cur] end
  | c :: s' =>
      if islinebreak c then
        rev cur ::
        match s' with
        | d :: s'' =>
            if Ascii.eqb c CR && Ascii.eqb d LF
            then splitlines_from [] s''
            else splitlines_from [] s'
        | [] => splitlines_from [] s'
        end
      else splitlines_from (c :: cur) s'
  end.

Definition splitlines (s : str) : list str := splitlines_from [] s.

(** [sep.join(parts)]. *)
Fixpoint join (sep : str) (parts : list str) : str :=
  match parts with
  | [] => []
  | [p] => p
  | p :: rest => p ++ sep ++ join sep rest
  end.

(** [f"{n}"] for an integer: the decimal digits, with a leading minus sign
    for a negative number.  (The script formats one number only, the
    timeout that [argparse] has read with [int].) *)
Definition format_int (n : Z) : str :=
  list_ascii_of_string (NilZero.string_of_int (Z.to_int n)).

(** [s.split(sep, 1)[0]] for a one-character separator: the text before
    the first [sep], the whole string when there is none. *)
Fixpoint split1_head (sep : ascii) (s : str) : str :=
  match s with
  | [] => []
  | c :: s' => if Ascii.eqb c sep then [] else c :: split1_head sep s'
  end.

(** [s.rsplit(sep, 1)[0]] for a one-character separator: the text before
    the last [sep], the whole string when there is none. *)
Fixpoint rsplit1_head (sep : ascii) (s : str) : str :=
  match s with
  | [] => []
  | c :: s' =>
      if Ascii.eqb c sep && negb (existsb (Ascii.eqb sep) s')
      then []
      else c :: rsplit1_head sep s'
  end.

(** The value of one decimal digit. *)
Definition digit_value (c : ascii) : option Z :=
  if isdecimal c then Some (Z.of_N (N_of_ascii c) - 48) else None.

(** The digits of an [int] literal in base ten: decimal digits, with
    single underscores allowed between two digits.  [prev] tells whether
    the character before was a digit. *)
Fixpoint int_digits (acc : Z) (prev : bool) (s : str) : option Z :=
  match s with
  | [] => if prev then Some acc else None
  | c :: s' =>
      if Ascii.eqb c "_"%char then
        if prev then int_digits acc false s' else None
      else
        match digit_value c with
        | Some d => int_digits (10 * acc + d) true s'
        | None => None
        end
  end.

(** The white space [int] drops around a number: U+0009..U+000D, U+0020,
    U+0085 and U+00A0 (the separators U+001C..U+001F are not dropped). *)
Definition int_isspace (c : ascii) : bool :=
  let n := N_of_ascii c in
  (((9 <=? n) && (n <=? 13)) || (n =? 32) || (n =? 133) || (n =? 160))%N.

(** The most digits [int] accepts in a decimal text: the default of
    [sys.get_int_max_str_digits()] since CPython 3.11. *)
Definition int_max_str_digits : nat := 4300.

(** The digits of a text as [int] counts them against that limit: every
    decimal digit counts, leading zeros too; signs, underscores and white
    space do not. *)
Definition count_digits (s : str) : nat := length (List.filter isdecimal s).

(** [int(s)]: surrounding white space is dropped, one sign is allowed.
    [None] stands for the [ValueError] of a string that is no integer, or
    that has more than [int_max_str_digits] digits. *)
Definition int_of_str (s : str) : option Z :=
  let s := strip_by int_isspace s in
  if (int_max_str_digits <? count_digits s)%nat then None
  else
    match s with
    | c :: t =>
        if Ascii.eqb c "-"%char then option_map Z.opp (int_digits 0 false t)
        else if Ascii.eqb c "+"%char then int_digits 0 false t
        else int_digits 0 false (c :: t)
    | [] => None
    end.

End Text.

Import Text.

(** ** Results of fallible code *)

Inductive result (E A : Type) : Type :=
| Ok (a : A)
| Err (e : E).

Arguments Ok {E A} a.
Arguments Err {E A} e.

Definition rbind {E A B} (r : result E A) (k : A -> result E B) : result E B :=
  match r with
  | Ok a => k a
  | Err e => Err e
  end.

Notation "x <- r ;; k" := (rbind r (fun x => k))
  (at level 100, r at next level, right associativity).

(** ** The regular expressions the script needs

    A pattern is a sequence of items; the matcher tries the alternatives
    of each repetition in the order of Python's backtracking engine
    (longest first for a greedy repetition, shortest first for a lazy
    one) and keeps the first complete match. *)

Module Regex.

Inductive item : Type :=
| Lit (s : str)                                       (* literal text *)
| Plus (g : option string) (cls : ascii -> bool)      (* [cls+], greedy *)
| LazyPlus (g : option string) (cls : ascii -> bool)  (* [cls+?] *)
| Star (cls : ascii -> bool)                          (* [cls*], greedy *)
| Dollar.                                             (* [$] *)

(** The text of the named groups of a match, in pattern order. *)
Definition captures := list (string * str).

Definition bind_group (g : option string) (txt : str) (caps : captures)
  : captures :=
  match g with
  | Some n => (n, txt) :: caps
  | None => caps
  end.

(** One or more characters of [cls], as many as possible first.  [taken]
    holds the characters consumed so far, last one first; [kont] runs the
    rest of the pattern on the text consumed and the text left. *)
Fixpoint greedy_plus (cls : ascii -> bool)
    (kont : str -> str -> option captures) (taken s : str)
  : option captures :=
  match s with
  | c :: s' =>
      if cls c then
        match greedy_plus cls kont (c :: taken) s' with
        | Some caps => Some caps
        | None => kont (rev (c :: taken)) s'
        end
      else None
  | [] => None
  end.

(** One or more characters of [cls], as few as possible first. *)
Fixpoint lazy_plus (cls : ascii -> bool)
    (kont : str -> str -> option captures) (taken s : str)
  : option captures :=
  match s with
  | c :: s' =>
      if cls c then
        match kont (rev (c :: taken)) s' with
        | Some caps => Some caps
        | None => lazy_plus cls kont (c :: taken) s'
        end
      else None
  | [] => None
  end.

(** [re.match] at the start of [s]: the first match in backtracking
    order. *)
Fixpoint match_here (re : list item) (s : str) : option captures :=
  match re with
  | [] => Some []
  | Lit l :: k =>
      if startswith l s then match_here k (skipn (length l) s) else None
  | Plus g cls :: k =>
      greedy_plus cls
        (fun txt rest => option_map (bind_group g txt) (match_here k rest))
        [] s
  | LazyPlus g cls :: k =>
      lazy_plus cls
        (fun txt rest => option_map (bind_group g txt) (match_here k rest))
        [] s
  | Star cls :: k =>
      match greedy_plus cls (fun _ rest => match_here k rest) [] s with
      | Some caps => Some caps
      | None => match_here k s
      end
  | Dollar :: k =>
      match s with
      | [] => match_here k s
      | [c] => if Ascii.eqb c LF then match_here k s else None
      | _ :: _ :: _ => None
      end
  end.

(** [re.search]: the match at the leftmost position that has one. *)
Fixpoint search (re : list item) (s : str) : option captures :=
  match match_here re s with
  | Some caps => Some caps
  | None =>
      match s with
      | [] => None
      | _ :: s' => search re s'
      end
  end.

(** [match.group(name)]. *)
Fixpoint group (name : string) (caps : captures) : option str :=
  match caps with
  | [] => None
  | (n, txt) :: caps' => if String.eqb n name then Some txt else group name caps'
  end.

(** The character classes [\s], [\d] and [.]. *)
Definition cls_space : ascii -> bool := isspace.
Definition cls_digit : ascii -> bool := isdecimal.
Definition cls_any (c : ascii) : bool := negb (Ascii.eqb c LF).

End Regex.

Import Regex.

(** ** The traffic-log parser *)

Module Parser.

(** [\[TRAFFIC\]\s+core\s+(?P<core>\d+)\s+(?P<name>.+?)\s+finished at time\s+(?P<cycle>\d+)\s*$] *)
Definition TRAFFIC_LINE_RE : list item :=
  [ Lit (lit "[TRAFFIC]"); Plus None cls_space;
    Lit (lit "core"); Plus None cls_space;
    Plus (Some "core"%string) cls_digit; Plus None cls_space;
    LazyPlus (Some "name"%string) cls_any; Plus None cls_space;
    Lit (lit "finished at time"); Plus None cls_space;
    Plus (Some "cycle"%string) cls_digit; Star cls_space;
    Dollar ].

Record TrafficLine : Type := mkTrafficLine {
  pattern_name : str;
  cycle : Z
}.

(** What the parser can raise: [int] on a text that is no integer or has
    too many digits, and the use of a group that the match does not
    have. *)
Inductive parse_error : Type :=
| ValueError (txt : str)
| IndexError (g : string).

Definition group_text (m : captures) (g : string) : result parse_error str :=
  match group g m with
  | Some txt => Ok txt
  | None => Err (IndexError g)
  end.

Definition int (txt : str) : result parse_error Z :=
  match int_of_str txt with
  | Some z => Ok z
  | None => Err (ValueError txt)
  end.

(** The loop of [parse_traffic_lines] over the lines still to read;
    [rows] is the list built so far. *)
Fixpoint parse_loop (core : Z) (raws : list str) (rows : list TrafficLine)
  : result parse_error (list TrafficLine) :=
  match raws with
  | [] => Ok rows
  | raw :: rest =>
      match search TRAFFIC_LINE_RE raw with
      | None => parse_loop core rest rows
      | Some m =>
          c_txt <- group_text m "core" ;;
          c <- int c_txt ;;
          if negb (c =? core) then parse_loop core rest rows
          else
            n_txt <- group_text m "name" ;;
            y_txt <- group_text m "cycle" ;;
            y <- int y_txt ;;
            parse_loop core rest
              (rows ++ [ {| pattern_name := strip n_txt; cycle := y |} ])
      end
  end.

(** [parse_traffic_lines], on the text of the file. *)
Definition parse_traffic_lines (text : str) (core : Z)
  : result parse_error (list TrafficLine) :=
  parse_loop core (splitlines text) [].

(** [traffic_type]. *)
Definition traffic_type (pattern_name : str) : str :=
  if contains (lit "(") pattern_name
  then split1_head "("%char pattern_name
  else rsplit1_head "_"%char pattern_name.

End Parser.

Import Parser.

(** ** The configuration transforms *)

Module Config.

Definition DQUOTE : ascii := ascii_of_N 34.

(** [f"timeout = {timeout_cycles}"]. *)
Definition timeout_line (timeout_cycles : Z) : str :=
  lit "timeout = " ++ format_int timeout_cycles.

(** [stripped.startswith("[") and stripped.endswith("]")]. *)
Definition is_table_header (stripped : str) : bool :=
  startswith (lit "[") stripped && endswith (lit "]") stripped.

(** The first loop of [override_sim_timeout]; it returns [out] and
    [replaced]. *)
Fixpoint replace_loop (timeout_cycles : Z) (lines out : list str)
    (in_sim replaced : bool) : list str * bool :=
  match lines with
  | [] => (out, replaced)
  | line :: rest =>
      let stripped := strip line in
      if is_table_header stripped then
        replace_loop timeout_cycles rest (out ++ [line])
          (str_eqb stripped (lit "[sim]")) replaced
      else if in_sim && startswith (lit "timeout") stripped then
        replace_loop timeout_cycles rest (out ++ [timeout_line timeout_cycles])
          in_sim true
      else
        replace_loop timeout_cycles rest (out ++ [line]) in_sim replaced
  end.

(** The second loop, run when nothing was replaced, with the statement
    that follows it; it returns [rebuilt]. *)
Fixpoint insert_loop (timeout_cycles : Z) (lines rebuilt : list str)
    (inserted in_sim : bool) : list str :=
  match lines with
  | [] =>
      if in_sim && negb inserted
      then rebuilt ++ [timeout_line timeout_cycles]
      else rebuilt
  | line :: rest =>
      let stripped := strip line in
      if str_eqb stripped (lit "[sim]") then
        insert_loop timeout_cycles rest (rebuilt ++ [line]) inserted true
      else if in_sim && is_table_header stripped && negb inserted then
        insert_loop timeout_cycles rest
          ((rebuilt ++ [timeout_line timeout_cycles]) ++ [line]) true false
      else
        insert_loop timeout_cycles rest (rebuilt ++ [line]) inserted in_sim
  end.

(** The lines [override_sim_timeout] writes, from the lines it read. *)
Definition override_lines (timeout_cycles : Z) (lines : list str) : list str :=
  let '(out, replaced) := replace_loop timeout_cycles lines [] false false in
  if negb replaced
  then insert_loop timeout_cycles out [] false false
  else out.

Definition override_sim_timeout (base_text : str) (timeout_cycles : Z) : str :=
  let lines := splitlines base_text in
  let out := override_lines timeout_cycles lines in
  join [LF] out ++ (if endswith [LF] base_text then [LF] else []).

(** The [RuntimeError] of a configuration that has a [traffic] table. *)
Inductive config_error : Type :=
| RuntimeError (msg : string).

Definition append_traffic_file_to_config (base_text traffic_file_rel : str)
  : result config_error str :=
  if contains (lit "[traffic]") base_text then
    Err (RuntimeError
      "base config already contains a [traffic] table; provide a config without [traffic]")
  else
    let text := base_text in
    let text := if negb (endswith [LF] text) then text ++ [LF] else text in
    let text := text ++ ([LF] ++ lit "[traffic]" ++ [LF]) in
    let text :=
      text ++ (lit "file = " ++ [DQUOTE] ++ traffic_file_rel ++ [DQUOTE] ++ [LF]) in
    Ok text.

End Config.

Import Config.

(** ** The comparison of [main] *)

Module Compare.

(** The two ways the comparison ends the run with [SystemExit]. *)
Inductive exit_error : Type :=
| LineCountMismatch (reference candidate : nat)
| OrderMismatch (idx : nat) (reference candidate : str).

(** A line of the table [main] prints. *)
Record Row : Type := mkRow {
  row_idx : nat;
  row_traffic_type : str;
  row_pattern : str;
  row_rtl : Z;
  row_cyclotron : Z;
  row_error : Z;
  row_accum_abs_err : Z;
  row_accum_type_abs_err : Z
}.

(** [accum_by_type[ttype]] on a [defaultdict(int)]. *)
Definition by_type (accum_by_type : gmap str Z) (ttype : str) : Z :=
  default 0 (accum_by_type !! ttype).

(** The loop over [enumerate(zip(ref, cand))]: the rows printed so far,
    then how the loop ended, with the two accumulators when it ran to its
    end. *)
Fixpoint compare_loop (idx : nat) (pairs : list (TrafficLine * TrafficLine))
    (accum_abs_err : Z) (accum_by_type : gmap str Z) (printed : list Row)
  : list Row * result exit_error (Z * gmap str Z) :=
  match pairs with
  | [] => (printed, Ok (accum_abs_err, accum_by_type))
  | (r, c) :: rest =>
      if negb (str_eqb (pattern_name r) (pattern_name c)) then
        (printed, Err (OrderMismatch idx (pattern_name r) (pattern_name c)))
      else
        let error := cycle c - cycle r in
        let abs_error := Z.abs error in
        let accum_abs_err := accum_abs_err + abs_error in
        let ttype := traffic_type (pattern_name r) in
        let accum_by_type :=
          <[ttype := by_type accum_by_type ttype + abs_error]> accum_by_type in
        compare_loop (S idx) rest accum_abs_err accum_by_type
          (printed ++
           [ {| row_idx := idx; row_traffic_type := ttype;
                row_pattern := pattern_name r;
                row_rtl := cycle r; row_cyclotron := cycle c;
                row_error := error;
                row_accum_abs_err := accum_abs_err;
                row_accum_type_abs_err := by_type accum_by_type ttype |} ])
  end.

(** Lines 217 to 250 of [main], from the two parsed logs on. *)
Definition compare (ref cand : list TrafficLine)
  : list Row * result exit_error (Z * gmap str Z) :=
  if negb (length ref =? length cand)%nat then
    ([], Err (LineCountMismatch (length ref) (length cand)))
  else
    compare_loop 0 (combine ref cand) 0 ∅ [].

End Compare.

Import Compare.

(** ** The run configuration *)

Module Main.

(** Lines 191 to 193 of [main]: the text of the run configuration, from
    the text of the base configuration. *)
Definition run_config (base_text traffic_config : str) (sim_timeout : Z)
  : result config_error str :=
  let base_text := override_sim_timeout base_text sim_timeout in
  append_traffic_file_to_config base_text traffic_config.

End Main.

Import Main.

(** * Vocabulary of the properties

    The definitions below are not part of the script: they name what the
    properties talk about. *)

Module Spec.

(** ** Lines *)

(** A text without line boundary: what a line of [splitlines] is. *)
Definition no_break (s : str) : Prop := Forall (fun c => islinebreak c = false) s.

(** [parts] does not end with an empty line. *)
Definition last_nonempty (parts : list str) : Prop :=
  forall front, parts <> front ++ [[]].

(** ** Patterns *)

(** What a pattern accepts at the start of a text, and the groups it then
    binds: the declarative reading of the items. *)
Inductive Matches : list item -> str -> captures -> Prop :=
| M_end s : Matches [] s []
| M_lit l k s caps :
    Matches k s caps -> Matches (Lit l :: k) (l ++ s) caps
| M_plus g cls k t s caps :
    t <> [] -> Forall (fun c => cls c = true) t ->
    Matches k s caps ->
    Matches (Plus g cls :: k) (t ++ s) (bind_group g t caps)
| M_lazy g cls k t s caps :
    t <> [] -> Forall (fun c => cls c = true) t ->
    Matches k s caps ->
    Matches (LazyPlus g cls :: k) (t ++ s) (bind_group g t caps)
| M_star cls k t s caps :
    Forall (fun c => cls c = true) t ->
    Matches k s caps ->
    Matches (Star cls :: k) (t ++ s) caps
| M_dollar k s caps :
    s = [] \/ s = [LF] ->
    Matches k s caps -> Matches (Dollar :: k) s caps.

(** ** The fields and the event of a log line *)

(** The number a text of decimal digits writes. *)
Definition digits_value (txt : str) : Z :=
  fold_left (fun acc c => 10 * acc + (Z.of_N (N_of_ascii c) - 48)) txt 0.

(** The fields of a line: the groups of the leftmost match of
    [TRAFFIC_LINE_RE], the two numbers read in base ten. *)
Definition line_fields (raw : str) : option (Z * str * Z) :=
  match search TRAFFIC_LINE_RE raw with
  | Some m =>
      match group "core" m, group "name" m, group "cycle" m with
      | Some c, Some n, Some y => Some (digits_value c, n, digits_value y)
      | _, _, _ => None
      end
  | None => None
  end.

(** The event of a line, for the lines of core [core]. *)
Definition line_event (core : Z) (raw : str) : option TrafficLine :=
  match line_fields raw with
  | Some (c, n, y) =>
      if c =? core
      then Some {| pattern_name := strip n; cycle := y |}
      else None
  | None => None
  end.

(** ** The loops of [override_sim_timeout], line by line *)

(** [in_sim] after a line has been read. *)
Definition next_in_sim (in_sim : bool) (line : str) : bool :=
  if is_table_header (strip line)
  then str_eqb (strip line) (lit "[sim]")
  else in_sim.

(** The first loop replaces this line. *)
Definition replaces (in_sim : bool) (line : str) : bool :=
  negb (is_table_header (strip line))
  && (in_sim && startswith (lit "timeout") (strip line)).

Definition is_sim_header (line : str) : bool :=
  str_eqb (strip line) (lit "[sim]").

Definition has_sim (lines : list str) : bool := existsb is_sim_header lines.

(** What the first loop appends to [out], and whether it sets
    [replaced]. *)
Fixpoint scan (timeout_cycles : Z) (in_sim : bool) (lines : list str)
  : list str :=
  match lines with
  | [] => []
  | line :: rest =>
      (if replaces in_sim line then timeout_line timeout_cycles else line)
      :: scan timeout_cycles (next_in_sim in_sim line) rest
  end.

Fixpoint any_replaced (in_sim : bool) (lines : list str) : bool :=
  match lines with
  | [] => false
  | line :: rest =>
      replaces in_sim line || any_replaced (next_in_sim in_sim line) rest
  end.

(** What the second loop appends to [rebuilt] while [inserted] is
    false. *)
Fixpoint ins (timeout_cycles : Z) (in_sim : bool) (lines : list str)
  : list str :=
  match lines with
  | [] => if in_sim then [timeout_line timeout_cycles] else []
  | line :: rest =>
      if is_sim_header line then line :: ins timeout_cycles true rest
      else if in_sim && is_table_header (strip line)
      then timeout_line timeout_cycles :: line :: rest
      else line :: ins timeout_cycles in_sim rest
  end.

(** ** The [sim] table of a document *)

(** [in_sim] when the first loop reaches line [i]. *)
Definition in_sim_at (lines : list str) (i : nat) : bool :=
  fold_left next_in_sim (firstn i lines) false.

(** Line [i] lies in the [sim] table: the nearest table header above it
    is [[sim]]. *)
Definition in_target_section (lines : list str) (i : nat) : Prop :=
  exists j hdr,
    (j < i)%nat /\ nth_error lines j = Some hdr /\ strip hdr = lit "[sim]" /\
    forall k l, (j < k < i)%nat -> nth_error lines k = Some l ->
      is_table_header (strip l) = false.

(** The trimmed line starts with the key. *)
Definition is_key_line (line : str) : Prop :=
  startswith (lit "timeout") (strip line) = true.

(** The reading of the specification in which only the first key line of
    the table is rewritten: a key line that follows another key line of
    the same table is found unchanged in the result. *)
Definition only_first_key_line_replaced (base_text : str) (timeout_cycles : Z)
  : Prop :=
  let lines := splitlines base_text in
  forall i j li lj,
    (i < j)%nat ->
    nth_error lines i = Some li -> nth_error lines j = Some lj ->
    in_target_section lines i -> in_target_section lines j ->
    is_key_line li -> is_key_line lj ->
    nth_error (splitlines (override_sim_timeout base_text timeout_cycles)) j
    = Some lj.

(** ** The text [append_traffic_file_to_config] appends *)

(** The text ends with one newline and no more. *)
Definition ends_with_exactly_one_newline (text : str) : Prop :=
  exists body, text = body ++ [LF] /\ endswith [LF] body = false.

(** What [append_traffic_file_to_config] appends after the base text has
    been closed: a blank line, the header, the [file] line. *)
Definition traffic_section (traffic_file_rel : str) : str :=
  [LF] ++ lit "[traffic]" ++ [LF]
  ++ lit "file = " ++ [DQUOTE] ++ traffic_file_rel ++ [DQUOTE] ++ [LF].

(** ** Categories *)

(** The absolute errors of the pairs whose reference name has category
    [k], added up. *)
Fixpoint category_sum (k : str) (pairs : list (TrafficLine * TrafficLine)) : Z :=
  match pairs with
  | [] => 0
  | (r, c) :: rest =>
      (if str_eqb (traffic_type (pattern_name r)) k
       then Z.abs (cycle c - cycle r) else 0)
      + category_sum k rest
  end.

(** ** Sample inputs *)

Definition two_timeouts : str :=
  lit "[sim]" ++ [LF] ++ lit "timeout = 1" ++ [LF] ++ lit "timeout = 2" ++ [LF].

Definition plain_config : str :=
  lit "[mem]" ++ [LF] ++ lit "size = 4" ++ [LF].

Definition crlf_config : str := lit "a = 1" ++ [CR; LF].

Definition formfeed_config : str :=
  lit "a = 1" ++ [ascii_of_N 12] ++ lit "b = 2" ++ [LF].

Definition scenario_reference : list TrafficLine :=
  [ {| pattern_name := lit "read_burst(4)"; cycle := 100 |};
    {| pattern_name := lit "write_burst(2)"; cycle := 250 |} ].

Definition scenario_candidate : list TrafficLine :=
  [ {| pattern_name := lit "read_burst(4)"; cycle := 105 |};
    {| pattern_name := lit "write_burst(2)"; cycle := 240 |} ].

(** ** Sums of the comparison *)

(** The absolute errors of the pairs, added up. *)
Fixpoint abs_error_sum (pairs : list (TrafficLine * TrafficLine)) : Z :=
  match pairs with
  | [] => 0
  | (r, c) :: rest => Z.abs (cycle c - cycle r) + abs_error_sum rest
  end.

(** The values of a [defaultdict(int)], added up. *)
Definition by_type_total (accum_by_type : gmap str Z) : Z :=
  map_fold (fun _ v acc => v + acc) 0 accum_by_type.

Definition mismatch_reference : list TrafficLine :=
  [ {| pattern_name := lit "foo_0"; cycle := 10 |};
    {| pattern_name := lit "foo_1"; cycle := 20 |};
    {| pattern_name := lit "foo_2"; cycle := 30 |} ].

Definition mismatch_candidate : list TrafficLine :=
  [ {| pattern_name := lit "foo_0"; cycle := 12 |};
    {| pattern_name := lit "bar_1"; cycle := 20 |};
    {| pattern_name := lit "foo_2"; cycle := 30 |} ].

(** ** Log lines in the layout of the pattern *)

Definition SP : ascii := ascii_of_N 32.

(** A log line in the layout of the pattern, with single spaces. *)
Definition traffic_log_line (core_txt name cycle_txt : str) : str :=
  lit "[TRAFFIC]" ++ [SP] ++ lit "core" ++ [SP] ++ core_txt ++ [SP]
  ++ name ++ [SP] ++ lit "finished at time" ++ [SP] ++ cycle_txt.

(** The text is empty or starts with a character outside the class. *)
Definition stops (cls : ascii -> bool) (r : str) : Prop :=
  match r with
  | [] => True
  | x :: _ => cls x = false
  end.

(** ** Reading the [sim] table *)

(** A [[sim]] header has been read before line [k] (or [in_sim] was set
    before the first line). *)
Definition sim_seen (in_sim : bool) (lines : list str) (k : nat) : Prop :=
  in_sim = true \/
  exists j hdr, (j < k)%nat /\ nth_error lines j = Some hdr /\
                strip hdr = lit "[sim]".

Definition sim_without_timeout : str :=
  lit "[sim]" ++ [LF] ++ lit "x = 1" ++ [LF] ++ lit "[mem]" ++ [LF].

(** ** The log format, in words

    The definitions of this part do not use the functions of the script:
    they say, character by character, what a line of a text is, what
    the layout of a traffic line is, which reading of a line the pattern
    selects, and what the parser makes of each line. *)

(** The character classes, by code point: white space, decimal digits
    and line boundaries. *)
Definition is_space (c : ascii) : Prop :=
  In (N_of_ascii c) [9; 10; 11; 12; 13; 28; 29; 30; 31; 32; 133; 160]%N.

Definition is_digit (c : ascii) : Prop :=
  In (N_of_ascii c) [48; 49; 50; 51; 52; 53; 54; 55; 56; 57]%N.

Definition is_boundary (c : ascii) : Prop :=
  In (N_of_ascii c) [10; 11; 12; 13; 28; 29; 30; 133]%N.

(** A line boundary [b] in front of the text [rest]: CR LF, or one
    boundary character that is not a CR directly followed by LF. *)
Inductive Boundary : str -> str -> Prop :=
| Boundary_crlf rest : Boundary [CR; LF] rest
| Boundary_one c rest :
    is_boundary c ->
    ~ (c = CR /\ exists rest', rest = LF :: rest') ->
    Boundary [c] rest.

(** The lines of a text: the texts between the line boundaries; what
    follows the last boundary is a line only when it is not empty. *)
Inductive IsLines : str -> list str -> Prop :=
| IsLines_none : IsLines [] []
| IsLines_last l :
    l <> [] -> Forall (fun c => ~ is_boundary c) l -> IsLines l [l]
| IsLines_cons l b rest lines :
    Forall (fun c => ~ is_boundary c) l -> Boundary b rest ->
    IsLines rest lines ->
    IsLines (l ++ b ++ rest) (l :: lines).

(** White space, a number, a label: not empty. *)
Definition is_spaces (w : str) : Prop := w <> [] /\ Forall is_space w.

Definition is_digits (t : str) : Prop := t <> [] /\ Forall is_digit t.

Definition is_label (n : str) : Prop := n <> [] /\ Forall (fun c => c <> LF) n.

(** The text [rest] has the layout of a traffic line from its first
    character to its last: the marker, the word [core], the number [c],
    the label [n], the phrase [finished at time], the number [y], with
    white space between them and, possibly, after them.  [w3] is the
    white space between [c] and [n]. *)
Definition Layout (rest c w3 n y : str) : Prop :=
  exists w1 w2 w4 w5 w6,
    rest = lit "[TRAFFIC]" ++ w1 ++ lit "core" ++ w2 ++ c ++ w3 ++ n ++ w4
           ++ lit "finished at time" ++ w5 ++ y ++ w6 /\
    is_spaces w1 /\ is_spaces w2 /\ is_digits c /\ is_spaces w3 /\
    is_label n /\ is_spaces w4 /\ is_spaces w5 /\ is_digits y /\
    Forall is_space w6.

(** No part of the line has the layout. *)
Definition Unmatched (raw : str) : Prop :=
  forall pre rest c w3 n y, raw = pre ++ rest -> ~ Layout rest c w3 n y.

(** The fields of a line.  Where a line can be read in several ways the
    pattern decides: the reading starts at the first place from which
    the layout can be read; among the readings from there, the white
    space in front of the label is as long as it can be, and then the
    label is as short as it can be. *)
Definition Fields (raw c n y : str) : Prop :=
  exists pre rest w3,
    raw = pre ++ rest /\ Layout rest c w3 n y /\
    (forall pre' rest' c' w3' n' y',
       raw = pre' ++ rest' -> Layout rest' c' w3' n' y' ->
       (length pre <= length pre')%nat) /\
    (forall c' w3' n' y',
       Layout rest c' w3' n' y' ->
       (length w3' < length w3)%nat \/
       (length w3' = length w3 /\ (length n <= length n')%nat)).

(** [t] is [n] without the white space around it. *)
Definition Trimmed (n t : str) : Prop :=
  exists a b,
    n = a ++ t ++ b /\ Forall is_space a /\ Forall is_space b /\
    (forall c t', t = c :: t' -> ~ is_space c) /\
    (forall t' c, t = t' ++ [c] -> ~ is_space c).

(** The most digits a number of the log may have for the conversion to
    read it. *)
Definition digit_limit : nat := 4300.

(** What the parser makes of one line: nothing, an event, or the error
    of a number that is too long. *)
Inductive outcome : Type :=
| Skipped
| Event (ev : TrafficLine)
| Malformed (txt : str).

Inductive LineOutcome (core : Z) (raw : str) : outcome -> Prop :=
| LineOutcome_unmatched :
    Unmatched raw -> LineOutcome core raw Skipped
| LineOutcome_long_core c n y :
    Fields raw c n y -> (digit_limit < length c)%nat ->
    LineOutcome core raw (Malformed c)
| LineOutcome_other_core c n y :
    Fields raw c n y -> (length c <= digit_limit)%nat ->
    digits_value c <> core ->
    LineOutcome core raw Skipped
| LineOutcome_long_cycle c n y :
    Fields raw c n y -> (length c <= digit_limit)%nat ->
    digits_value c = core -> (digit_limit < length y)%nat ->
    LineOutcome core raw (Malformed y)
| LineOutcome_event c n y t :
    Fields raw c n y -> (length c <= digit_limit)%nat ->
    digits_value c = core -> (length y <= digit_limit)%nat ->
    Trimmed n t ->
    LineOutcome core raw (Event {| pattern_name := t; cycle := digits_value y |}).

(** What the parser returns, from the outcomes of the lines in their
    order: the events, one for each line that has one, unless a line is
    malformed; then the error of the first such line. *)
Fixpoint reading (outs : list outcome) : result parse_error (list TrafficLine) :=
  match outs with
  | [] => Ok []
  | Skipped :: rest => reading rest
  | Event ev :: rest => rows <- reading rest ;; Ok (ev :: rows)
  | Malformed txt :: _ => Err (ValueError txt)
  end.

(** The outcome of a line as the loop of the parser computes it. *)
Definition line_outcome (core : Z) (raw : str) : outcome :=
  match search TRAFFIC_LINE_RE raw with
  | Some m =>
      match group "core" m, group "name" m, group "cycle" m with
      | Some c, Some n, Some y =>
          if (length c <=? int_max_str_digits)%nat then
            if digits_value c =? core then
              if (length y <=? int_max_str_digits)%nat
              then Event {| pattern_name := strip n; cycle := digits_value y |}
              else Malformed y
            else Skipped
          else Malformed c
      | _, _, _ => Skipped
      end
  | None => Skipped
  end.

(** A log with one traffic line, whose cycle has one digit more than the
    conversion reads. *)
Definition long_cycle_log : str :=
  traffic_log_line (lit "0") (lit "read_burst(4)") (repeat "1"%char 4301).

(** A line with two markers: the layout can be read from the first one
    only. *)
Definition two_marker_line : str :=
  lit "[TRAFFIC] core 1 x finished at time 5 [TRAFFIC] core 0 y finished at time 7".

(** A log of two lines, the second one a traffic line. *)
Definition boot_log : str :=
  lit "boot" ++ [LF]
  ++ lit "[TRAFFIC] core 0 read_burst(4) finished at time 1523" ++ [LF].

End Spec.

Import Spec.

(** * Properties *)

(** ** Facts about strings *)

Module TextFacts.

(** A property of all 256 characters, by inspection. *)
Ltac by_char c :=
  destruct c as [[] [] [] [] [] [] [] []]; vm_compute; try reflexivity;
  try discriminate; auto.

Lemma str_eqb_eq a b : str_eqb a b = true <-> a = b.
Proof. unfold str_eqb. apply bool_decide_eq_true. Qed.

Lemma str_eqb_neq a b : str_eqb a b = false <-> a <> b.
Proof. unfold str_eqb. apply bool_decide_eq_false. Qed.

Lemma startswith_app p t : startswith p (p ++ t) = true.
Proof.
  induction p as [|a p IH]; simpl; [reflexivity|].
  now rewrite Ascii.eqb_refl.
Qed.

Lemma startswith_inv p s : startswith p s = true -> exists t, s = p ++ t.
Proof.
  revert s. induction p as [|a p IH]; intros s H.
  - now exists s.
  - destruct s as [|b s]; [discriminate|]. simpl in H.
    apply andb_true_iff in H as [Hab Hps].
    apply Ascii.eqb_eq in Hab as ->.
    destruct (IH _ Hps) as [t ->]. now exists t.
Qed.

Lemma startswith_iff p s : startswith p s = true <-> exists t, s = p ++ t.
Proof.
  split; [apply startswith_inv|]. intros [t ->]. apply startswith_app.
Qed.

Lemma endswith_iff p s : endswith p s = true <-> exists t, s = t ++ p.
Proof.
  unfold endswith. rewrite startswith_iff. split.
  - intros [t Ht]. exists (rev t).
    rewrite <- (rev_involutive s), Ht, rev_app_distr.
    now rewrite rev_involutive.
  - intros [t ->]. exists (rev t). now rewrite rev_app_distr.
Qed.

Lemma contains_iff needle hay :
  contains needle hay = true <-> exists pre post, hay = pre ++ needle ++ post.
Proof.
  induction hay as [|c hay IH]; simpl.
  - rewrite orb_false_r, startswith_iff. split.
    + intros [t Ht]. now exists [], t.
    + intros [pre [post H]]. destruct pre; [now exists post|discriminate].
  - rewrite orb_true_iff, IH, startswith_iff. split.
    + intros [[t Ht]|[pre [post Ht]]].
      * now exists [], t.
      * exists (c :: pre), post. now rewrite Ht.
    + intros [pre [post H]]. destruct pre as [|d pre].
      * left. now exists post.
      * right. injection H as _ H. now exists pre, post.
Qed.

(** The last character decides [endswith] on a one-character suffix. *)
Lemma endswith1_cons x c s :
  endswith [x] (c :: s) =
  match s with [] => Ascii.eqb x c | _ :: _ => endswith [x] s end.
Proof.
  unfold endswith. simpl rev at 1.
  destruct s as [|d s]; simpl; [now rewrite andb_true_r|].
  destruct (rev s ++ [d]) eqn:E; [now destruct (rev s)|]. reflexivity.
Qed.

Lemma endswith1_snoc x s : endswith [x] (s ++ [x]) = true.
Proof. apply endswith_iff. now exists s. Qed.

(** *** Stripping *)

Lemma lstrip_by_id sp c s : sp c = false -> lstrip_by sp (c :: s) = c :: s.
Proof. intros H. simpl. now rewrite H. Qed.

Lemma strip_by_id sp c s d :
  sp c = false -> sp d = false ->
  strip_by sp (c :: s ++ [d]) = c :: s ++ [d].
Proof.
  intros Hc Hd. unfold strip_by, rstrip_by.
  rewrite lstrip_by_id by assumption.
  rewrite app_comm_cons, rev_unit, lstrip_by_id by assumption.
  now rewrite <- rev_unit, rev_involutive.
Qed.

Lemma strip_by_id1 sp c : sp c = false -> strip_by sp [c] = [c].
Proof.
  intros H. unfold strip_by, rstrip_by. simpl. rewrite H. simpl.
  now rewrite H.
Qed.

Lemma strip_id c s d :
  isspace c = false -> isspace d = false ->
  strip (c :: s ++ [d]) = c :: s ++ [d].
Proof. apply strip_by_id. Qed.

(** *** Decimal digits *)

Lemma isdecimal_not_space c : isdecimal c = true -> isspace c = false.
Proof. by_char c. Qed.

Lemma isdecimal_not_int_space c : isdecimal c = true -> int_isspace c = false.
Proof. by_char c. Qed.

Lemma isdecimal_not_break c : isdecimal c = true -> islinebreak c = false.
Proof. by_char c. Qed.

Lemma isdecimal_not_sign c :
  isdecimal c = true ->
  Ascii.eqb c "_" = false /\ Ascii.eqb c "-" = false /\ Ascii.eqb c "+" = false.
Proof. by_char c. Qed.

Lemma uint_digits d :
  Forall (fun c => isdecimal c = true)
    (list_ascii_of_string (NilEmpty.string_of_uint d)).
Proof. induction d; simpl; constructor; auto. Qed.

Lemma uint_digits_nonempty d :
  list_ascii_of_string (NilZero.string_of_uint d) <> [] /\
  Forall (fun c => isdecimal c = true)
    (list_ascii_of_string (NilZero.string_of_uint d)).
Proof.
  destruct d; simpl; split; try discriminate;
    try (constructor; [reflexivity|]); try apply uint_digits; constructor.
Qed.

(** [format_int] writes an optional minus sign and then one digit at
    least. *)
Lemma format_int_shape n :
  exists sign ds d,
    format_int n = sign ++ ds ++ [d] /\
    (sign = [] \/ sign = lit "-") /\
    Forall (fun c => isdecimal c = true) (ds ++ [d]).
Proof.
  assert (Hu : forall u, exists ds d,
    list_ascii_of_string (NilZero.string_of_uint u) = ds ++ [d] /\
    Forall (fun c => isdecimal c = true) (ds ++ [d])).
  { intros u. destruct (uint_digits_nonempty u) as [Hne Hall].
    destruct (exists_last Hne) as [ds [d E]]. exists ds, d.
    rewrite <- E. auto. }
  unfold format_int. destruct (Z.to_int n) as [u|u]; simpl.
  - destruct (Hu u) as [ds [d [E H]]]. exists [], ds, d. auto.
  - destruct (Hu u) as [ds [d [E H]]]. exists (lit "-"), ds, d.
    rewrite E. auto.
Qed.

End TextFacts.

Import TextFacts.

(** ** Facts about [splitlines] and [join] *)

Module LineFacts.

Lemma splitlines_from_no_break l cur rest :
  no_break l ->
  splitlines_from cur (l ++ rest) = splitlines_from (rev l ++ cur) rest.
Proof.
  intros H. revert cur. induction H as [|c l Hc _ IH]; intros cur.
  - reflexivity.
  - simpl. rewrite Hc, IH. now rewrite <- app_assoc.
Qed.

Lemma splitlines_from_LF cur rest :
  splitlines_from cur (LF :: rest) = rev cur :: splitlines_from [] rest.
Proof. now destruct rest. Qed.

Lemma splitlines_from_nonempty cur s :
  s <> [] -> splitlines_from cur s <> [].
Proof.
  revert cur. induction s as [|c s IH]; intros cur H; [easy|].
  simpl. destruct (islinebreak c); [discriminate|].
  destruct s as [|d s].
  - simpl. discriminate.
  - apply IH. discriminate.
Qed.

Lemma splitlines_from_lines_no_break cur s :
  no_break cur -> Forall no_break (splitlines_from cur s).
Proof.
  remember (length s) as n eqn:Hn. revert cur s Hn.
  induction n as [n IH] using lt_wf_ind. intros cur s -> Hcur.
  assert (Hrev : no_break (rev cur)).
  { now apply List.Forall_rev. }
  destruct s as [|c s]; simpl.
  - destruct cur; constructor; auto.
  - destruct (islinebreak c) eqn:Hc.
    + constructor; [assumption|].
      destruct s as [|d s].
      * constructor.
      * destruct (Ascii.eqb c CR && Ascii.eqb d LF).
        -- eapply IH; [|reflexivity|constructor]. simpl. lia.
        -- eapply IH; [|reflexivity|constructor]. simpl. lia.
    + eapply IH; [|reflexivity|]. { simpl. lia. }
      now constructor.
Qed.

Lemma splitlines_lines_no_break s : Forall no_break (splitlines s).
Proof. apply splitlines_from_lines_no_break. constructor. Qed.

Lemma join_cons2 sep a b rest :
  join sep (a :: b :: rest) = a ++ sep ++ join sep (b :: rest).
Proof. reflexivity. Qed.

Lemma join_snoc sep parts p :
  parts <> [] -> join sep (parts ++ [p]) = join sep parts ++ sep ++ p.
Proof.
  induction parts as [|a parts IH]; intros H; [easy|].
  destruct parts as [|b parts].
  - reflexivity.
  - change ((a :: b :: parts) ++ [p]) with (a :: (b :: parts) ++ [p]).
    change ((b :: parts) ++ [p]) with (b :: parts ++ [p]) at 1.
    rewrite join_cons2.
    change (b :: parts ++ [p]) with ((b :: parts) ++ [p]).
    rewrite IH by discriminate. rewrite join_cons2.
    now rewrite <- !app_assoc.
Qed.

(** Reading back lines that were joined and closed by a newline. *)
Lemma splitlines_join_LF l parts :
  Forall no_break (l :: parts) ->
  splitlines (join [LF] (l :: parts) ++ [LF]) = l :: parts.
Proof.
  unfold splitlines. revert l. induction parts as [|l2 parts IH]; intros l H.
  - simpl join. inversion H; subst.
    rewrite splitlines_from_no_break by assumption.
    rewrite splitlines_from_LF, app_nil_r, rev_involutive. reflexivity.
  - rewrite join_cons2. inversion H; subst.
    rewrite <- !app_assoc.
    rewrite splitlines_from_no_break by assumption.
    cbn [app]. rewrite splitlines_from_LF, app_nil_r, rev_involutive.
    f_equal. now apply IH.
Qed.

Lemma last_nonempty_tail l parts :
  last_nonempty (l :: parts) -> parts <> [] -> last_nonempty parts.
Proof.
  intros H _ front E. apply (H (l :: front)). now rewrite E.
Qed.

(** Reading back lines that were joined and not closed. *)
Lemma splitlines_join parts :
  Forall no_break parts -> last_nonempty parts ->
  splitlines (join [LF] parts) = parts.
Proof.
  unfold splitlines. induction parts as [|l parts IH]; intros H Hlast.
  - reflexivity.
  - inversion H; subst. destruct parts as [|l2 parts].
    + simpl join. rewrite <- (app_nil_r l) at 1.
      rewrite splitlines_from_no_break by assumption. simpl.
      rewrite app_nil_r. destruct (rev l) eqn:E.
      * exfalso. apply (Hlast []). simpl.
        rewrite <- (rev_involutive l), E. reflexivity.
      * rewrite <- E, rev_involutive. reflexivity.
    + rewrite join_cons2.
      rewrite splitlines_from_no_break by assumption.
      cbn [app]. rewrite splitlines_from_LF, app_nil_r, rev_involutive.
      f_equal. apply IH; [assumption|].
      eapply last_nonempty_tail; [eassumption|discriminate].
Qed.

Lemma endswith1_app x s1 s2 :
  s2 <> [] -> endswith [x] (s1 ++ s2) = endswith [x] s2.
Proof.
  intros H. induction s1 as [|c s1 IH]; [reflexivity|].
  cbn [app]. rewrite endswith1_cons.
  destruct (s1 ++ s2) eqn:E; [|assumption].
  apply app_eq_nil in E as [_ E]. contradiction.
Qed.

Lemma no_break_not_endswith_LF l : no_break l -> endswith [LF] l = false.
Proof.
  intros H. destruct (endswith [LF] l) eqn:E; [|reflexivity].
  apply endswith_iff in E as [t ->].
  apply Forall_app in H as [_ H]. inversion H; subst. discriminate.
Qed.

Lemma join_LF_nil parts : join [LF] parts = [] -> parts = [] \/ parts = [[]].
Proof.
  destruct parts as [|l [|l2 parts]]; simpl; auto.
  - intros ->. auto.
  - intros H. apply app_eq_nil in H as [_ H]. discriminate.
Qed.

Lemma endswith_join parts :
  Forall no_break parts -> last_nonempty parts ->
  endswith [LF] (join [LF] parts) = false.
Proof.
  induction parts as [|l parts IH]; intros H Hlast; [reflexivity|].
  inversion H; subst. destruct parts as [|l2 parts].
  - now apply no_break_not_endswith_LF.
  - rewrite join_cons2, endswith1_app by discriminate.
    cbn [app]. rewrite endswith1_cons.
    assert (Hl : last_nonempty (l2 :: parts)).
    { eapply last_nonempty_tail; [eassumption|discriminate]. }
    destruct (join [LF] (l2 :: parts)) eqn:E.
    + apply join_LF_nil in E as [E|E]; [discriminate|].
      exfalso. apply (Hl []). exact E.
    + now apply IH.
Qed.

(** A text whose only line boundary is the newline is the join of its
    lines, closed by a newline when the text is. *)
Lemma join_splitlines_from cur s :
  (forall c, In c s -> islinebreak c = true -> c = LF) ->
  join [LF] (splitlines_from cur s) ++ (if endswith [LF] s then [LF] else [])
  = rev cur ++ s.
Proof.
  revert cur. induction s as [|c s IH]; intros cur H.
  - simpl. rewrite !app_nil_r. now destruct cur.
  - assert (Hs : forall c, In c s -> islinebreak c = true -> c = LF).
    { intros d Hd. apply H. now right. }
    rewrite endswith1_cons.
    destruct (islinebreak c) eqn:Hc.
    + assert (c = LF) as -> by (apply H; [now left|assumption]).
      rewrite splitlines_from_LF. specialize (IH [] Hs).
      change (rev [] ++ s) with s in IH.
      destruct s as [|d s]; [reflexivity|].
      pose proof (splitlines_from_nonempty [] (d :: s)) as Hne.
      revert IH.
      destruct (splitlines_from [] (d :: s)) as [|l2 parts].
      { exfalso. now apply Hne. }
      intros IH. rewrite join_cons2, <- !app_assoc, IH. reflexivity.
    + specialize (IH (c :: cur) Hs).
      change (rev (c :: cur)) with (rev cur ++ [c]) in IH.
      rewrite <- app_assoc in IH. change ([c] ++ s) with (c :: s) in IH.
      change (splitlines_from cur (c :: s))
        with (if islinebreak c
              then rev cur ::
                   match s with
                   | d :: s'' =>
                       if Ascii.eqb c CR && Ascii.eqb d LF
                       then splitlines_from [] s''
                       else splitlines_from [] s
                   | [] => splitlines_from [] s
                   end
              else splitlines_from (c :: cur) s).
      rewrite Hc.
      destruct s as [|d s]; [|exact IH].
      assert (Ascii.eqb LF c = false) as ->.
      { apply Ascii.eqb_neq. intros <-. discriminate. }
      exact IH.
Qed.

Lemma lstrip_suffix s : exists a, s = a ++ lstrip s.
Proof.
  unfold lstrip. induction s as [|c s [a IH]]; [now exists []|]. simpl.
  destruct (isspace c).
  - exists (c :: a). simpl. now rewrite <- IH.
  - now exists [].
Qed.

(** The trimmed text is a part of the text. *)
Lemma strip_within s : exists a b, s = a ++ strip s ++ b.
Proof.
  unfold strip, strip_by, rstrip_by. fold (lstrip s).
  fold (lstrip (rev (lstrip s))).
  destruct (lstrip_suffix s) as [a Ha].
  destruct (lstrip_suffix (rev (lstrip s))) as [b Hb].
  exists a, (rev b). rewrite <- rev_app_distr, <- Hb, rev_involutive.
  exact Ha.
Qed.

(** A line of a text is a part of the text. *)
Lemma splitlines_from_within cur s line :
  In line (splitlines_from cur s) ->
  exists a b, rev cur ++ s = a ++ line ++ b.
Proof.
  remember (length s) as n eqn:Hn. revert cur s Hn.
  induction n as [n IH] using lt_wf_ind. intros cur s -> Hin.
  destruct s as [|c s].
  - simpl in Hin. destruct cur as [|x cur]; [destruct Hin|].
    destruct Hin as [<-|[]]. exists [], []. now rewrite !app_nil_r.
  - simpl in Hin. destruct (islinebreak c).
    + destruct Hin as [<-|Hin]; [now exists [], (c :: s)|].
      destruct s as [|d s]; [destruct Hin|].
      destruct (Ascii.eqb c CR && Ascii.eqb d LF).
      * apply (IH (length s) ltac:(simpl; lia) [] s eq_refl) in Hin.
        destruct Hin as (a & b & E). simpl in E.
        exists (rev cur ++ c :: d :: a), b. rewrite E, <- app_assoc.
        reflexivity.
      * apply (IH (length (d :: s)) ltac:(simpl; lia) [] (d :: s) eq_refl)
          in Hin.
        destruct Hin as (a & b & E). simpl in E.
        exists (rev cur ++ c :: a), b. rewrite E, <- app_assoc.
        reflexivity.
    + apply (IH (length s) ltac:(simpl; lia) (c :: cur) s eq_refl) in Hin.
      destruct Hin as (a & b & E). simpl in E. rewrite <- app_assoc in E.
      now exists a, b.
Qed.

(** What a trimmed line reads occurs in the text. *)
Lemma stripped_line_occurs text line :
  In line (splitlines text) -> contains (strip line) text = true.
Proof.
  intros Hin. apply splitlines_from_within in Hin as (a & b & E).
  simpl in E. destruct (strip_within line) as (a' & b' & E').
  apply contains_iff. exists (a ++ a'), (b' ++ b).
  rewrite E, E' at 1. now rewrite <- !app_assoc.
Qed.

End LineFacts.

Import LineFacts.

(** ** The two loops of [override_sim_timeout] *)

Module ConfigFacts.

#[local] Arguments startswith : simpl never.
#[local] Arguments endswith : simpl never.
#[local] Arguments strip : simpl never.
#[local] Arguments lit : simpl never.
#[local] Arguments str_eqb : simpl never.
#[local] Arguments timeout_line : simpl never.
#[local] Arguments is_table_header : simpl never.

Section Loops.

Variable timeout_cycles : Z.

Abbreviation T := (timeout_line timeout_cycles).

Lemma replace_loop_eq lines out in_sim replaced :
  replace_loop timeout_cycles lines out in_sim replaced
  = (out ++ scan timeout_cycles in_sim lines, replaced || any_replaced in_sim lines).
Proof.
  revert out in_sim replaced.
  induction lines as [|line rest IH]; intros out in_sim replaced.
  - simpl. now rewrite app_nil_r, orb_false_r.
  - simpl. unfold replaces, next_in_sim.
    destruct (is_table_header (strip line)); simpl.
    + rewrite IH, <- app_assoc. reflexivity.
    + destruct (in_sim && startswith (lit "timeout") (strip line)).
      * rewrite IH, <- app_assoc. simpl. now rewrite orb_true_r.
      * rewrite IH, <- app_assoc. reflexivity.
Qed.

Lemma insert_loop_done lines rebuilt in_sim :
  insert_loop timeout_cycles lines rebuilt true in_sim = rebuilt ++ lines.
Proof.
  revert rebuilt in_sim.
  induction lines as [|line rest IH]; intros rebuilt in_sim; simpl.
  - now rewrite andb_false_r, app_nil_r.
  - rewrite !andb_false_r.
    destruct (str_eqb (strip line) (lit "[sim]"));
      rewrite IH, <- app_assoc; reflexivity.
Qed.

Lemma insert_loop_eq lines rebuilt in_sim :
  insert_loop timeout_cycles lines rebuilt false in_sim
  = rebuilt ++ ins timeout_cycles in_sim lines.
Proof.
  revert rebuilt in_sim.
  induction lines as [|line rest IH]; intros rebuilt in_sim; simpl.
  - rewrite andb_true_r. destruct in_sim; [reflexivity|].
    now rewrite app_nil_r.
  - unfold is_sim_header.
    destruct (str_eqb (strip line) (lit "[sim]")).
    + rewrite IH, <- app_assoc. reflexivity.
    + rewrite andb_true_r.
      destruct (in_sim && is_table_header (strip line)).
      * rewrite insert_loop_done, <- !app_assoc. reflexivity.
      * rewrite IH, <- app_assoc. reflexivity.
Qed.

Lemma override_lines_eq lines :
  override_lines timeout_cycles lines =
  if any_replaced false lines
  then scan timeout_cycles false lines
  else ins timeout_cycles false (scan timeout_cycles false lines).
Proof.
  unfold override_lines. rewrite replace_loop_eq. simpl.
  destruct (any_replaced false lines); simpl; [reflexivity|].
  apply insert_loop_eq.
Qed.

(** *** The line that is written *)

Lemma timeout_line_strip : strip T = T.
Proof.
  unfold timeout_line.
  destruct (format_int_shape timeout_cycles) as (sign & ds & d & E & _ & Hd).
  rewrite E.
  replace (lit "timeout = " ++ sign ++ ds ++ [d])
    with ("t"%char :: (lit "imeout = " ++ sign ++ ds) ++ [d])
    by (simpl; now rewrite <- ?app_assoc).
  apply strip_id; [reflexivity|].
  apply isdecimal_not_space.
  apply Forall_app in Hd as [_ Hd]. now inversion Hd.
Qed.

Lemma timeout_line_no_break : no_break T.
Proof.
  unfold timeout_line.
  destruct (format_int_shape timeout_cycles) as (sign & ds & d & E & Hs & Hd).
  rewrite E. apply Forall_app. split; [repeat constructor|].
  apply Forall_app. split.
  - destruct Hs as [->| ->]; repeat constructor.
  - eapply List.Forall_impl; [|exact Hd]. apply isdecimal_not_break.
Qed.

Lemma timeout_line_not_header : is_table_header (strip T) = false.
Proof. rewrite timeout_line_strip. reflexivity. Qed.

Lemma timeout_line_key : startswith (lit "timeout") (strip T) = true.
Proof. rewrite timeout_line_strip. reflexivity. Qed.

Lemma next_in_sim_timeout_line b : next_in_sim b T = b.
Proof. unfold next_in_sim. now rewrite timeout_line_not_header. Qed.

Lemma replaces_timeout_line b : replaces b T = b.
Proof.
  unfold replaces.
  rewrite timeout_line_not_header, timeout_line_key. now destruct b.
Qed.

Lemma replaces_next b line : replaces b line = true -> next_in_sim b line = b.
Proof.
  unfold replaces, next_in_sim.
  destruct (is_table_header (strip line)); [discriminate|reflexivity].
Qed.

Lemma replaces_in_sim b line : replaces b line = true -> b = true.
Proof.
  unfold replaces. intros H.
  apply andb_true_iff in H as [_ H]. now apply andb_true_iff in H as [H _].
Qed.

Lemma sim_header_is_header line :
  is_sim_header line = true -> is_table_header (strip line) = true.
Proof. unfold is_sim_header. intros H. apply str_eqb_eq in H as ->. reflexivity. Qed.

(** *** The first loop *)

Lemma scan_idem b lines :
  scan timeout_cycles b (scan timeout_cycles b lines) = scan timeout_cycles b lines /\
  any_replaced b (scan timeout_cycles b lines) = any_replaced b lines.
Proof.
  revert b. induction lines as [|line rest IH]; intros b; [easy|].
  simpl. destruct (replaces b line) eqn:E.
  - rewrite replaces_timeout_line, next_in_sim_timeout_line.
    rewrite (replaces_next _ _ E). rewrite (replaces_in_sim _ _ E) in *.
    destruct (IH true) as [-> ->]. easy.
  - rewrite E. destruct (IH (next_in_sim b line)) as [-> ->]. easy.
Qed.

Lemma scan_none b lines : any_replaced b lines = false -> scan timeout_cycles b lines = lines.
Proof.
  revert b. induction lines as [|line rest IH]; intros b H; [easy|].
  simpl in *. apply orb_false_iff in H as [-> H]. now rewrite IH.
Qed.

Lemma scan_length b lines : length (scan timeout_cycles b lines) = length lines.
Proof.
  revert b. induction lines as [|line rest IH]; intros b; simpl; auto.
Qed.

Lemma scan_snoc_empty b lines :
  scan timeout_cycles b (lines ++ [[]]) = scan timeout_cycles b lines ++ [[]] /\
  any_replaced b (lines ++ [[]]) = any_replaced b lines.
Proof.
  revert b. induction lines as [|line rest IH]; intros b; simpl.
  - assert (replaces b [] = false) as ->; [|easy].
    unfold replaces. now rewrite !andb_false_r.
  - destruct (IH (next_in_sim b line)) as [-> ->]. easy.
Qed.

(** *** The second loop *)

Lemma ins_length b lines :
  length (ins timeout_cycles b lines)
  = (length lines + (if b || has_sim lines then 1 else 0))%nat.
Proof.
  revert b. induction lines as [|line rest IH]; intros b; simpl.
  - now destruct b.
  - destruct (is_sim_header line) eqn:Es; simpl.
    + rewrite IH. simpl. now rewrite orb_true_r.
    + destruct b; simpl.
      * destruct (is_table_header (strip line)); simpl; [lia|].
        rewrite IH. reflexivity.
      * rewrite IH. reflexivity.
Qed.

Lemma ins_no_sim lines : has_sim lines = false -> ins timeout_cycles false lines = lines.
Proof.
  induction lines as [|line rest IH]; intros H; [reflexivity|].
  simpl in *. apply orb_false_iff in H as [-> H]. simpl. now rewrite IH.
Qed.

(** After an insertion the first loop finds the line and keeps it. *)
Lemma ins_stable b lines :
  any_replaced b lines = false -> b || has_sim lines = true ->
  any_replaced b (ins timeout_cycles b lines) = true /\ scan timeout_cycles b (ins timeout_cycles b lines) = ins timeout_cycles b lines.
Proof.
  revert b. induction lines as [|line rest IH]; intros b Hnone Hsim.
  - simpl in Hsim. rewrite orb_false_r in Hsim. subst b. simpl.
    rewrite replaces_timeout_line. easy.
  - simpl in Hnone. apply orb_false_iff in Hnone as [Hline Hrest].
    simpl. destruct (is_sim_header line) eqn:Es.
    + assert (next_in_sim b line = true) as Hn.
      { unfold next_in_sim. rewrite sim_header_is_header by assumption.
        exact Es. }
      rewrite Hn in Hrest. simpl. rewrite Hline, Hn. simpl.
      destruct (IH true Hrest eq_refl) as [-> ->]. easy.
    + destruct (b && is_table_header (strip line)) eqn:Eh.
      * apply andb_true_iff in Eh as [-> Eh].
        assert (next_in_sim true line = false) as Hn.
        { unfold next_in_sim. rewrite Eh. exact Es. }
        rewrite Hn in Hrest. simpl.
        rewrite replaces_timeout_line, next_in_sim_timeout_line.
        rewrite Hline, Hn, (scan_none _ _ Hrest). easy.
      * assert (next_in_sim b line = b) as Hn.
        { unfold next_in_sim.
          destruct (is_table_header (strip line)); [|reflexivity].
          rewrite andb_true_r in Eh. subst b. exact Es. }
        rewrite Hn in Hrest. simpl. rewrite Hline, Hn. simpl.
        simpl in Hsim. rewrite Es in Hsim. simpl in Hsim.
        destruct (IH b Hrest Hsim) as [-> ->]. easy.
Qed.

(** *** Both loops *)

Lemma override_lines_idem lines :
  override_lines timeout_cycles (override_lines timeout_cycles lines)
  = override_lines timeout_cycles lines.
Proof.
  rewrite (override_lines_eq lines).
  destruct (any_replaced false lines) eqn:E.
  - rewrite override_lines_eq.
    destruct (scan_idem false lines) as [-> ->]. now rewrite E.
  - rewrite (scan_none _ _ E). destruct (has_sim lines) eqn:Es.
    + destruct (ins_stable false lines E Es) as [H1 H2].
      rewrite override_lines_eq, H1. exact H2.
    + rewrite (ins_no_sim _ Es), override_lines_eq, E, (scan_none _ _ E).
      now apply ins_no_sim.
Qed.

Lemma override_lines_drop_empty lines :
  override_lines timeout_cycles (lines ++ [[]]) = lines ++ [[]] ->
  override_lines timeout_cycles lines = lines.
Proof.
  rewrite !override_lines_eq.
  destruct (scan_snoc_empty false lines) as [-> ->].
  destruct (any_replaced false lines) eqn:E.
  - apply app_inv_tail.
  - rewrite (scan_none _ _ E). intros H.
    apply (f_equal (@length str)) in H.
    rewrite ins_length, !length_app in H. simpl in H.
    unfold str in *.
    destruct (has_sim (lines ++ [[]])) eqn:Es; [lia|].
    unfold has_sim in Es. rewrite existsb_app in Es.
    apply orb_false_iff in Es as [Es _]. now apply ins_no_sim.
Qed.

Lemma scan_no_break b lines :
  Forall no_break lines -> Forall no_break (scan timeout_cycles b lines).
Proof.
  intros H. revert b. induction H as [|line rest Hl _ IH]; intros b; simpl.
  - constructor.
  - constructor; [|apply IH].
    destruct (replaces b line); [apply timeout_line_no_break|assumption].
Qed.

Lemma ins_no_break b lines :
  Forall no_break lines -> Forall no_break (ins timeout_cycles b lines).
Proof.
  intros H. revert b. induction H as [|line rest Hl Hr IH]; intros b; simpl.
  - destruct b; [|constructor].
    constructor; [apply timeout_line_no_break|constructor].
  - destruct (is_sim_header line).
    + constructor; [assumption|apply IH].
    + destruct (b && is_table_header (strip line)).
      * constructor; [apply timeout_line_no_break|]. now constructor.
      * constructor; [assumption|apply IH].
Qed.

Lemma override_lines_no_break lines :
  Forall no_break lines -> Forall no_break (override_lines timeout_cycles lines).
Proof.
  intros H. rewrite override_lines_eq.
  destruct (any_replaced false lines).
  - now apply scan_no_break.
  - now apply ins_no_break, scan_no_break.
Qed.

Lemma override_lines_nonempty lines :
  lines <> [] -> override_lines timeout_cycles lines <> [].
Proof.
  intros H E. apply H. apply (f_equal (@length str)) in E.
  rewrite override_lines_eq in E.
  destruct (any_replaced false lines).
  - rewrite scan_length in E. now destruct lines.
  - rewrite ins_length, scan_length in E. destruct lines; [easy|].
    simpl in E. lia.
Qed.

End Loops.

End ConfigFacts.

Import ConfigFacts.

(** ** Claims about the configuration transforms *)

Module ConfigClaims.

#[local] Arguments startswith : simpl never.
#[local] Arguments endswith : simpl never.
#[local] Arguments strip : simpl never.
#[local] Arguments lit : simpl never.
#[local] Arguments str_eqb : simpl never.
#[local] Arguments timeout_line : simpl never.
#[local] Arguments is_table_header : simpl never.
#[local] Arguments join : simpl never.
#[local] Arguments splitlines : simpl never.

Lemma header_not_key s :
  is_table_header s = true -> startswith (lit "timeout") s = false.
Proof.
  unfold is_table_header. intros H. apply andb_true_iff in H as [H _].
  apply startswith_inv in H as [t ->]. reflexivity.
Qed.

Lemma replaces_eq b line :
  replaces b line = b && startswith (lit "timeout") (strip line).
Proof.
  unfold replaces. destruct (is_table_header (strip line)) eqn:E; simpl.
  - rewrite (header_not_key _ E). now rewrite andb_false_r.
  - reflexivity.
Qed.

Lemma scan_nth v b lines i line :
  nth_error lines i = Some line ->
  nth_error (scan v b lines) i
  = Some (if replaces (fold_left next_in_sim (firstn i lines) b) line
          then timeout_line v else line).
Proof.
  revert b i. induction lines as [|l rest IH]; intros b i H.
  - now destruct i.
  - destruct i as [|i]; simpl in *.
    + now injection H as ->.
    + now apply IH.
Qed.

Lemma in_sim_at_S lines i line :
  nth_error lines i = Some line ->
  in_sim_at lines (S i) = next_in_sim (in_sim_at lines i) line.
Proof.
  intros H. unfold in_sim_at.
  assert (firstn (S i) lines = firstn i lines ++ [line]) as ->.
  { revert i H. induction lines as [|l rest IH]; intros i H.
    - now destruct i.
    - destruct i as [|i]; simpl in *.
      + now injection H as ->.
      + f_equal. now apply IH. }
  now rewrite fold_left_app.
Qed.

Lemma in_sim_at_past lines i :
  nth_error lines i = None -> in_sim_at lines (S i) = in_sim_at lines i.
Proof.
  intros H. unfold in_sim_at. apply nth_error_None in H.
  rewrite !firstn_all2 by lia. reflexivity.
Qed.

Lemma in_sim_at_iff lines i :
  in_sim_at lines i = true <-> in_target_section lines i.
Proof.
  induction i as [|i IH].
  - split; [discriminate|]. intros (j & _ & Hj & _). lia.
  - destruct (nth_error lines i) as [x|] eqn:Ex.
    + rewrite (in_sim_at_S _ _ _ Ex). unfold next_in_sim.
      destruct (is_table_header (strip x)) eqn:Eh.
      * rewrite str_eqb_eq. split.
        -- intros Hs. exists i, x. repeat split; auto. intros k l Hk. lia.
        -- intros (j & hdr & Hj & Hn & Hs & Hno).
           destruct (Nat.eq_dec j i) as [->|Hne].
           ++ rewrite Ex in Hn. now injection Hn as ->.
           ++ rewrite (Hno i x) in Eh; [discriminate|lia|assumption].
      * rewrite IH. split.
        -- intros (j & hdr & Hj & Hn & Hs & Hno).
           exists j, hdr. repeat split; auto.
           intros k l Hk Hl. destruct (Nat.eq_dec k i) as [->|Hne].
           ++ rewrite Ex in Hl. now injection Hl as <-.
           ++ apply (Hno k); [lia|assumption].
        -- intros (j & hdr & Hj & Hn & Hs & Hno).
           destruct (Nat.eq_dec j i) as [->|Hne].
           ++ rewrite Ex in Hn. injection Hn as ->.
              rewrite Hs in Eh. discriminate.
           ++ exists j, hdr. repeat split; auto; [lia|].
              intros k l Hk. apply Hno. lia.
    + rewrite (in_sim_at_past _ _ Ex), IH. split.
      * intros (j & hdr & Hj & Hn & Hs & Hno).
        exists j, hdr. repeat split; auto.
        intros k l Hk Hl. destruct (Nat.eq_dec k i) as [->|Hne].
        -- rewrite Ex in Hl. discriminate.
        -- apply (Hno k); [lia|assumption].
      * intros (j & hdr & Hj & Hn & Hs & Hno).
        assert (j <> i) by (intros ->; rewrite Ex in Hn; discriminate).
        exists j, hdr. repeat split; auto; [lia|].
        intros k l Hk. apply Hno. lia.
Qed.

(** A line the first loop replaces sets [replaced]. *)
Lemma replaced_at b lines i line :
  nth_error lines i = Some line ->
  replaces (fold_left next_in_sim (firstn i lines) b) line = true ->
  any_replaced b lines = true.
Proof.
  revert b i. induction lines as [|l rest IH]; intros b i Hi Hr.
  - now destruct i.
  - destruct i as [|i]; simpl in *.
    + injection Hi as ->. now rewrite Hr.
    + rewrite (IH _ _ Hi Hr). apply orb_true_r.
Qed.

(** A key line in the [sim] table sets [replaced]. *)
Lemma key_line_sets_replaced lines i line :
  nth_error lines i = Some line ->
  in_target_section lines i -> is_key_line line ->
  any_replaced false lines = true.
Proof.
  intros Hi Hsec Hkey. apply (replaced_at false lines i line Hi).
  rewrite replaces_eq. apply in_sim_at_iff in Hsec. unfold in_sim_at in Hsec.
  unfold is_key_line in Hkey. now rewrite Hsec, Hkey.
Qed.

(** C1, as amended: for a document with a line in the [sim] table whose
    trimmed text starts with [timeout], what [override_sim_timeout]
    returns are the lines of the document joined by newlines, as many and
    in the same order, with [timeout = value] in the place of every such
    line of the [sim] table, not only of the first one, and every other
    line as it is; a final newline follows exactly when the document ends
    with one. *)
Theorem override_replaces_every_key_line (base_text : str) (timeout_cycles : Z) :
  let lines := splitlines base_text in
  (exists i line,
     nth_error lines i = Some line /\
     in_target_section lines i /\ is_key_line line) ->
  exists out,
    override_sim_timeout base_text timeout_cycles
    = join [LF] out ++ (if endswith [LF] base_text then [LF] else []) /\
    length out = length lines /\
    (forall i line, nth_error lines i = Some line ->
       in_target_section lines i -> is_key_line line ->
       nth_error out i = Some (timeout_line timeout_cycles)) /\
    (forall i line, nth_error lines i = Some line ->
       ~ (in_target_section lines i /\ is_key_line line) ->
       nth_error out i = Some line).
Proof.
  intros lines (i0 & line0 & Hi0 & Hsec0 & Hkey0).
  exists (scan timeout_cycles false lines).
  split; [|split; [apply scan_length|split]].
  - unfold override_sim_timeout. fold lines.
    rewrite override_lines_eq.
    now rewrite (key_line_sets_replaced lines i0 line0 Hi0 Hsec0 Hkey0).
  - intros i line Hi Hsec Hkey.
    rewrite (scan_nth _ _ _ _ _ Hi), replaces_eq.
    apply in_sim_at_iff in Hsec. unfold in_sim_at in Hsec.
    unfold is_key_line in Hkey. now rewrite Hsec, Hkey.
  - intros i line Hi Hnot.
    rewrite (scan_nth _ _ _ _ _ Hi), replaces_eq.
    destruct (fold_left next_in_sim (firstn i lines) false) eqn:Es;
      [|reflexivity].
    destruct (startswith (lit "timeout") (strip line)) eqn:Ek; [|reflexivity].
    exfalso. apply Hnot. split; [now apply in_sim_at_iff|exact Ek].
Qed.

(** C1, as stated, fails: in a [sim] table with the lines [timeout = 1] and
    [timeout = 2] the second one is rewritten too. *)
Lemma later_key_line_is_replaced_too :
  override_sim_timeout two_timeouts 5
  = lit "[sim]" ++ [LF] ++ lit "timeout = 5" ++ [LF] ++ lit "timeout = 5" ++ [LF]
  /\ ~ only_first_key_line_replaced two_timeouts 5.
Proof.
  split; [vm_compute; reflexivity|].
  intros H.
  specialize (H 1%nat 2%nat (lit "timeout = 1") (lit "timeout = 2")).
  assert (Hsec : forall i, in_sim_at (splitlines two_timeouts) i = true ->
                           in_target_section (splitlines two_timeouts) i).
  { intros i. apply in_sim_at_iff. }
  cbv zeta in H.
  assert (E : nth_error (splitlines (override_sim_timeout two_timeouts 5)) 2
              = Some (lit "timeout = 2")).
  { apply H; try (apply Hsec); vm_compute; try reflexivity; lia. }
  vm_compute in E. discriminate.
Qed.

(** The witness of C1: the document [two_timeouts], whose second line is
    a key line of the [sim] table. *)
Lemma override_replaces_every_key_line_witness :
  exists out,
    override_sim_timeout two_timeouts 5
    = join [LF] out ++ (if endswith [LF] two_timeouts then [LF] else []) /\
    length out = length (splitlines two_timeouts) /\
    (forall i line, nth_error (splitlines two_timeouts) i = Some line ->
       in_target_section (splitlines two_timeouts) i -> is_key_line line ->
       nth_error out i = Some (timeout_line 5)) /\
    (forall i line, nth_error (splitlines two_timeouts) i = Some line ->
       ~ (in_target_section (splitlines two_timeouts) i /\ is_key_line line) ->
       nth_error out i = Some line).
Proof.
  apply (override_replaces_every_key_line two_timeouts 5).
  exists 1%nat, (lit "timeout = 1").
  split; [vm_compute; reflexivity|]. split.
  - apply in_sim_at_iff. vm_compute. reflexivity.
  - vm_compute. reflexivity.
Defined.

Lemma has_sim_none_replaced lines :
  has_sim lines = false -> any_replaced false lines = false.
Proof.
  induction lines as [|line rest IH]; intros H; [reflexivity|].
  simpl in H. apply orb_false_iff in H as [Hl Hr]. simpl.
  rewrite replaces_eq. simpl.
  assert (next_in_sim false line = false) as ->; [|now apply IH].
  unfold next_in_sim. now destruct (is_table_header (strip line)).
Qed.

Lemma override_lines_without_sim v lines :
  has_sim lines = false -> override_lines v lines = lines.
Proof.
  intros H. rewrite override_lines_eq.
  rewrite (has_sim_none_replaced _ H).
  rewrite (scan_none _ _ _ (has_sim_none_replaced _ H)).
  now apply ins_no_sim.
Qed.

Lemma join_chars sep parts c :
  In c (join sep parts) -> In c sep \/ exists l, In l parts /\ In c l.
Proof.
  induction parts as [|l parts IH]; [intros []|].
  destruct parts as [|l2 parts].
  - intros H. right. exists l. split; [now left|exact H].
  - rewrite join_cons2. intros H.
    apply in_app_or in H as [H|H]; [right; exists l; split; [now left|exact H]|].
    apply in_app_or in H as [H|H]; [now left|].
    destruct (IH H) as [Hs|(l' & Hl' & Hc)]; [now left|].
    right. exists l'. split; [now right|exact Hc].
Qed.

(** Lines joined by newlines have no other line boundary. *)
Lemma join_lines_breaks parts tail c :
  Forall no_break parts -> tail = [] \/ tail = [LF] ->
  In c (join [LF] parts ++ tail) -> islinebreak c = true -> c = LF.
Proof.
  intros Hnb Htail Hin Hb.
  apply in_app_or in Hin as [Hin|Hin].
  - apply join_chars in Hin as [[<-|[]]|(l & Hl & Hc)]; [reflexivity|].
    rewrite List.Forall_forall in Hnb. apply Hnb in Hl. unfold no_break in Hl.
    rewrite List.Forall_forall in Hl. apply Hl in Hc. congruence.
  - destruct Htail as [->| ->]; [destruct Hin|].
    destruct Hin as [<-|[]]. reflexivity.
Qed.

Lemma no_sim_header_has_sim base_text :
  (forall line, In line (splitlines base_text) -> strip line <> lit "[sim]") ->
  has_sim (splitlines base_text) = false.
Proof.
  intros Hsim. unfold has_sim.
  destruct (existsb is_sim_header (splitlines base_text)) eqn:E;
    [|reflexivity].
  apply existsb_exists in E as (line & Hin & Hl).
  apply str_eqb_eq in Hl. now apply Hsim in Hin.
Qed.

(** C5, as amended: when no line of the document is the [[sim]] header,
    [override_sim_timeout] inserts nothing: it returns the lines of the
    document joined by newlines, with a final newline exactly when the
    document ends with one.  That is the document itself exactly when the
    newline is the only line boundary the document uses. *)
Theorem override_without_sim_unchanged (base_text : str) (timeout_cycles : Z) :
  (forall line, In line (splitlines base_text) -> strip line <> lit "[sim]") ->
  override_sim_timeout base_text timeout_cycles
  = join [LF] (splitlines base_text)
    ++ (if endswith [LF] base_text then [LF] else [])
  /\ (override_sim_timeout base_text timeout_cycles = base_text <->
      (forall c, In c base_text -> islinebreak c = true -> c = LF)).
Proof.
  intros Hsim.
  assert (E : override_sim_timeout base_text timeout_cycles
              = join [LF] (splitlines base_text)
                ++ (if endswith [LF] base_text then [LF] else [])).
  { unfold override_sim_timeout.
    now rewrite (override_lines_without_sim _ _ (no_sim_header_has_sim _ Hsim)). }
  split; [exact E|]. rewrite E. split.
  - intros Heq c Hin Hb. rewrite <- Heq in Hin.
    apply (join_lines_breaks (splitlines base_text)
             (if endswith [LF] base_text then [LF] else []) c);
      [apply splitlines_lines_no_break| |exact Hin|exact Hb].
    destruct (endswith [LF] base_text); auto.
  - intros Hlf. exact (join_splitlines_from [] base_text Hlf).
Qed.

(** The witness of C5: a document with a [mem] table only. *)
Lemma override_without_sim_unchanged_witness :
  override_sim_timeout plain_config 7
  = join [LF] (splitlines plain_config)
    ++ (if endswith [LF] plain_config then [LF] else [])
  /\ (override_sim_timeout plain_config 7 = plain_config <->
      (forall c, In c plain_config -> islinebreak c = true -> c = LF)).
Proof.
  apply (override_without_sim_unchanged plain_config 7).
  intros line Hin. vm_compute in Hin.
  destruct Hin as [<-|[<-|[]]]; vm_compute; discriminate.
Defined.

(** C5, as stated, fails: a document without the text [[sim]] whose lines
    end in CR LF comes back with its line ends rewritten to LF, and so
    does one that holds a form feed. *)
Lemma override_without_sim_rewrites_crlf :
  (contains (lit "[sim]") crlf_config = false /\
   override_sim_timeout crlf_config 7 = lit "a = 1" ++ [LF] /\
   override_sim_timeout crlf_config 7 <> crlf_config)
  /\
  (contains (lit "[sim]") formfeed_config = false /\
   override_sim_timeout formfeed_config 7
   = lit "a = 1" ++ [LF] ++ lit "b = 2" ++ [LF] /\
   override_sim_timeout formfeed_config 7 <> formfeed_config).
Proof. vm_compute. repeat split; discriminate. Qed.

(** A document in which the text [[sim]] does not occur has no line that
    is the [[sim]] header. *)
Lemma no_sim_text_no_sim_line base_text line :
  contains (lit "[sim]") base_text = false ->
  In line (splitlines base_text) -> strip line <> lit "[sim]".
Proof.
  intros Hno Hin E. apply stripped_line_occurs in Hin.
  rewrite E in Hin. congruence.
Qed.

Lemma override_join_closed v l parts :
  Forall no_break (l :: parts) ->
  override_lines v (l :: parts) = l :: parts ->
  override_sim_timeout (join [LF] (l :: parts) ++ [LF]) v
  = join [LF] (l :: parts) ++ [LF].
Proof.
  intros Hnb Hfix. unfold override_sim_timeout.
  rewrite splitlines_join_LF by assumption.
  now rewrite Hfix, endswith1_snoc.
Qed.

Lemma override_join_open v parts :
  Forall no_break parts ->
  override_lines v parts = parts ->
  override_sim_timeout (join [LF] parts) v = join [LF] parts.
Proof.
  intros Hnb Hfix.
  destruct parts as [|p0 ps]; [reflexivity|].
  destruct (@exists_last _ (p0 :: ps)) as (front & l & E); [discriminate|].
  rewrite E in *. clear E p0 ps.
  destruct l as [|c l].
  - destruct front as [|f front]; [reflexivity|].
    rewrite join_snoc by discriminate. rewrite app_nil_r.
    apply override_join_closed.
    + now apply Forall_app in Hnb as [Hnb _].
    + now apply override_lines_drop_empty.
  - assert (Hlast : last_nonempty (front ++ [c :: l])).
    { intros fr Hfr. apply app_inj_tail in Hfr as [_ Hfr]. discriminate. }
    unfold override_sim_timeout.
    rewrite splitlines_join, endswith_join by assumption.
    now rewrite Hfix, app_nil_r.
Qed.

(** C6: [override_sim_timeout] is idempotent. *)
Theorem override_sim_timeout_idempotent (base_text : str) (timeout_cycles : Z) :
  override_sim_timeout (override_sim_timeout base_text timeout_cycles)
    timeout_cycles
  = override_sim_timeout base_text timeout_cycles.
Proof.
  unfold override_sim_timeout at 2 3.
  pose proof (override_lines_idem timeout_cycles (splitlines base_text)) as Hfix.
  pose proof (override_lines_no_break timeout_cycles _
                (splitlines_lines_no_break base_text)) as Hnb.
  destruct (endswith [LF] base_text) eqn:E.
  - assert (Hne : splitlines base_text <> []).
    { apply splitlines_from_nonempty. now intros ->. }
    apply (override_lines_nonempty timeout_cycles) in Hne.
    destruct (override_lines timeout_cycles (splitlines base_text))
      as [|l parts]; [contradiction|].
    now apply override_join_closed.
  - rewrite app_nil_r. now apply override_join_open.
Qed.

Lemma append_traffic_file_eq base_text traffic_file_rel :
  append_traffic_file_to_config base_text traffic_file_rel =
  if contains (lit "[traffic]") base_text
  then Err (RuntimeError
    "base config already contains a [traffic] table; provide a config without [traffic]")
  else Ok ((if endswith [LF] base_text then base_text else base_text ++ [LF])
           ++ traffic_section traffic_file_rel).
Proof.
  unfold append_traffic_file_to_config, traffic_section.
  destruct (contains (lit "[traffic]") base_text); [reflexivity|].
  destruct (endswith [LF] base_text); cbn [negb];
    now rewrite <- !app_assoc.
Qed.

(** C2, as amended: for a document in which the header does not occur,
    [append_traffic_file_to_config] returns the document, with a newline
    added when it does not end with one already (the newlines a document
    ends with are kept, however many), then a blank line, the header and
    the line [file = "value"], each closed by a newline. *)
Theorem append_section_text (base_text traffic_file_rel : str) :
  ~ (exists pre post, base_text = pre ++ lit "[traffic]" ++ post) ->
  exists closed,
    append_traffic_file_to_config base_text traffic_file_rel
    = Ok (closed ++ [LF] ++ lit "[traffic]" ++ [LF]
          ++ lit "file = " ++ [DQUOTE] ++ traffic_file_rel ++ [DQUOTE] ++ [LF])
    /\ endswith [LF] closed = true
    /\ (closed = base_text \/ (closed = base_text ++ [LF]
                               /\ endswith [LF] base_text = false)).
Proof.
  intros Hno. rewrite append_traffic_file_eq.
  destruct (contains (lit "[traffic]") base_text) eqn:Ec.
  { exfalso. apply Hno. now apply contains_iff. }
  destruct (endswith [LF] base_text) eqn:Ee.
  - exists base_text. auto.
  - exists (base_text ++ [LF]). repeat split; auto using endswith1_snoc.
Qed.

(** The witness of C2: a document that does not end with a newline. *)
Lemma append_section_text_witness :
  exists closed,
    append_traffic_file_to_config (lit "[sim]") (lit "t.toml")
    = Ok (closed ++ [LF] ++ lit "[traffic]" ++ [LF]
          ++ lit "file = " ++ [DQUOTE] ++ lit "t.toml" ++ [DQUOTE] ++ [LF])
    /\ endswith [LF] closed = true
    /\ (closed = lit "[sim]" \/ (closed = lit "[sim]" ++ [LF]
                               /\ endswith [LF] (lit "[sim]") = false)).
Proof.
  apply (append_section_text (lit "[sim]") (lit "t.toml")).
  intros H. apply contains_iff in H. vm_compute in H. discriminate.
Defined.

(** C2, as stated, fails: a document that ends with two newlines keeps
    both, so the text before the blank line does not end with exactly one
    newline. *)
Lemma append_keeps_trailing_newlines :
  append_traffic_file_to_config (lit "a" ++ [LF; LF]) (lit "p")
  = Ok (lit "a" ++ [LF; LF] ++ traffic_section (lit "p"))
  /\ ~ (exists closed,
          ends_with_exactly_one_newline closed /\
          append_traffic_file_to_config (lit "a" ++ [LF; LF]) (lit "p")
          = Ok (closed ++ traffic_section (lit "p"))).
Proof.
  split; [vm_compute; reflexivity|].
  intros (closed & (body & -> & Hbody) & H).
  rewrite append_traffic_file_eq in H.
  change (contains (lit "[traffic]") (lit "a" ++ [LF; LF])) with false in H.
  change (endswith [LF] (lit "a" ++ [LF; LF])) with true in H.
  cbv iota in H.
  assert (E : (lit "a" ++ [LF]) ++ [LF] = body ++ [LF]).
  { apply (app_inv_tail (traffic_section (lit "p"))).
    change ((lit "a" ++ [LF]) ++ [LF]) with (lit "a" ++ [LF; LF]).
    congruence. }
  apply app_inj_tail in E as [<- _].
  vm_compute in Hbody. discriminate.
Qed.

(** C4: [append_traffic_file_to_config] raises exactly when the text
    [[traffic]] occurs somewhere in the document; it then returns no
    document.  When it returns one, the base text is its beginning, and a
    second call on the result raises. *)
Theorem append_raises_iff_header_occurs (base_text traffic_file_rel : str) :
  ((exists e, append_traffic_file_to_config base_text traffic_file_rel = Err e)
   <-> (exists pre post, base_text = pre ++ lit "[traffic]" ++ post))
  /\ (forall text,
        append_traffic_file_to_config base_text traffic_file_rel = Ok text ->
        (exists rest, text = base_text ++ rest) /\
        forall other, exists e,
          append_traffic_file_to_config text other = Err e).
Proof.
  rewrite append_traffic_file_eq. split.
  - rewrite <- contains_iff.
    destruct (contains (lit "[traffic]") base_text).
    + split; eauto.
    + split; [intros [e H]; discriminate|discriminate].
  - intros text H.
    destruct (contains (lit "[traffic]") base_text); [discriminate|].
    injection H as <-. split.
    + destruct (endswith [LF] base_text); rewrite <- ?app_assoc; eauto.
    + intros other. rewrite append_traffic_file_eq.
      match goal with
      | |- context [contains ?n ?h] =>
          assert (contains n h = true) as ->; [|eauto]
      end.
      apply contains_iff.
      exists ((if endswith [LF] base_text then base_text else base_text ++ [LF])
              ++ [LF]),
        ([LF] ++ lit "file = " ++ [DQUOTE] ++ traffic_file_rel ++ [DQUOTE] ++ [LF]).
      unfold traffic_section. now rewrite <- !app_assoc.
Qed.

End ConfigClaims.

(** ** The matcher and the patterns it accepts *)

Module RegexFacts.

Lemma greedy_plus_inv cls kont taken s caps :
  greedy_plus cls kont taken s = Some caps ->
  exists t rest,
    t <> [] /\ Forall (fun c => cls c = true) t /\ s = t ++ rest /\
    kont (rev taken ++ t) rest = Some caps.
Proof.
  revert taken. induction s as [|c s IH]; intros taken H; [discriminate|].
  simpl in H. destruct (cls c) eqn:Ec; [|discriminate].
  destruct (greedy_plus cls kont (c :: taken) s) as [caps'|] eqn:Eg.
  - injection H as ->. destruct (IH _ Eg) as (t & rest & Ht & Hall & -> & Hk).
    exists (c :: t), rest.
    split; [discriminate|]. split; [now constructor|].
    split; [reflexivity|]. simpl in Hk. now rewrite <- app_assoc in Hk.
  - exists [c], s.
    split; [discriminate|]. split; [now repeat constructor|]. now split.
Qed.

Lemma lazy_plus_inv cls kont taken s caps :
  lazy_plus cls kont taken s = Some caps ->
  exists t rest,
    t <> [] /\ Forall (fun c => cls c = true) t /\ s = t ++ rest /\
    kont (rev taken ++ t) rest = Some caps.
Proof.
  revert taken. induction s as [|c s IH]; intros taken H; [discriminate|].
  simpl in H. destruct (cls c) eqn:Ec; [|discriminate].
  destruct (kont (rev taken ++ [c]) s) as [caps'|] eqn:Ek.
  - injection H as ->. exists [c], s.
    split; [discriminate|]. split; [now repeat constructor|]. now split.
  - destruct (IH _ H) as (t & rest & Ht & Hall & -> & Hk).
    exists (c :: t), rest.
    split; [discriminate|]. split; [now constructor|].
    split; [reflexivity|]. simpl in Hk. now rewrite <- app_assoc in Hk.
Qed.

Lemma greedy_plus_complete cls kont taken t rest :
  t <> [] -> Forall (fun c => cls c = true) t ->
  (exists caps, kont (rev taken ++ t) rest = Some caps) ->
  exists caps, greedy_plus cls kont taken (t ++ rest) = Some caps.
Proof.
  intros Hne Hall. revert taken.
  induction Hall as [|c t Hc Hall IH]; intros taken Hk; [contradiction|].
  simpl. rewrite Hc.
  destruct (greedy_plus cls kont (c :: taken) (t ++ rest)) as [caps'|] eqn:Eg;
    [eauto|].
  destruct t as [|d t].
  - exact Hk.
  - destruct (IH ltac:(discriminate) (c :: taken)) as [caps' Hc'].
    + simpl. now rewrite <- app_assoc.
    + congruence.
Qed.

Lemma lazy_plus_complete cls kont taken t rest :
  t <> [] -> Forall (fun c => cls c = true) t ->
  (exists caps, kont (rev taken ++ t) rest = Some caps) ->
  exists caps, lazy_plus cls kont taken (t ++ rest) = Some caps.
Proof.
  intros Hne Hall. revert taken.
  induction Hall as [|c t Hc Hall IH]; intros taken Hk; [contradiction|].
  simpl. rewrite Hc.
  destruct (kont (rev taken ++ [c]) (t ++ rest)) as [caps'|] eqn:Ek; [eauto|].
  destruct t as [|d t].
  - destruct Hk as [caps Hk]. simpl in Ek. congruence.
  - apply (IH ltac:(discriminate) (c :: taken)).
    simpl. now rewrite <- app_assoc.
Qed.

Lemma skipn_startswith l s :
  startswith l s = true -> s = l ++ skipn (length l) s.
Proof.
  intros H. apply startswith_inv in H as [t ->].
  now rewrite skipn_app, Nat.sub_diag, skipn_all.
Qed.

(** The matcher only returns what the pattern accepts. *)
Lemma match_here_sound re s caps :
  match_here re s = Some caps -> Matches re s caps.
Proof.
  revert s caps. induction re as [|it k IH]; intros s caps H.
  - injection H as <-. constructor.
  - destruct it as [l|g cls|g cls|cls|]; simpl in H.
    + destruct (startswith l s) eqn:E; [|discriminate].
      rewrite (skipn_startswith _ _ E). constructor. now apply IH.
    + apply greedy_plus_inv in H as (t & rest & Ht & Hall & -> & Hk).
      destruct (match_here k rest) as [caps'|] eqn:Ek; [|discriminate].
      injection Hk as <-. constructor; auto.
    + apply lazy_plus_inv in H as (t & rest & Ht & Hall & -> & Hk).
      destruct (match_here k rest) as [caps'|] eqn:Ek; [|discriminate].
      injection Hk as <-. constructor; auto.
    + destruct (greedy_plus cls (fun _ rest => match_here k rest) [] s)
        as [caps'|] eqn:Eg.
      * injection H as ->.
        apply greedy_plus_inv in Eg as (t & rest & Ht & Hall & -> & Hk).
        constructor; auto.
      * apply (M_star cls k [] s); auto.
    + destruct s as [|c [|d s]]; [| |discriminate].
      * constructor; auto.
      * destruct (Ascii.eqb c LF) eqn:Ec; [|discriminate].
        apply Ascii.eqb_eq in Ec as ->. constructor; auto.
Qed.

(** The matcher finds a match whenever the pattern accepts the text. *)
Lemma match_here_complete re s caps :
  Matches re s caps -> exists caps', match_here re s = Some caps'.
Proof.
  induction 1 as [s|l k s caps _ [c IH]|g cls k t s caps Ht Hall _ [c IH]
                 |g cls k t s caps Ht Hall _ [c IH]
                 |cls k t s caps Hall _ [c IH]|k s caps Hs _ [c IH]]; simpl.
  - eauto.
  - rewrite startswith_app, skipn_app, Nat.sub_diag, skipn_all. simpl. eauto.
  - apply greedy_plus_complete; auto. rewrite IH. simpl. eauto.
  - apply lazy_plus_complete; auto. rewrite IH. simpl. eauto.
  - destruct (greedy_plus cls (fun _ rest => match_here k rest) [] (t ++ s))
      as [caps'|] eqn:Eg; [eauto|].
    destruct t as [|d t]; [simpl; eauto|].
    destruct (greedy_plus_complete cls (fun _ rest => match_here k rest)
                [] (d :: t) s) as [caps' Hc].
    + discriminate.
    + assumption.
    + eauto.
    + unfold str in *. congruence.
  - destruct Hs as [->| ->]; simpl; eauto.
Qed.

Lemma search_sound re s caps :
  search re s = Some caps ->
  exists pre rest, s = pre ++ rest /\ match_here re rest = Some caps.
Proof.
  induction s as [|c s IH]; simpl.
  - destruct (match_here re []) eqn:E; [|discriminate].
    intros [= ->]. now exists [], [].
  - destruct (match_here re (c :: s)) eqn:E.
    + intros [= ->]. now exists [], (c :: s).
    + intros H. destruct (IH H) as (pre & rest & -> & Hm).
      now exists (c :: pre), rest.
Qed.

Lemma search_complete re pre rest caps :
  match_here re rest = Some caps ->
  exists caps', search re (pre ++ rest) = Some caps'.
Proof.
  intros H. induction pre as [|c pre IH].
  - destruct rest; simpl; rewrite H; eauto.
  - simpl. destruct (match_here re (c :: pre ++ rest)); eauto.
Qed.

(** [re.search] finds a match exactly in the texts that hold, somewhere,
    a text the pattern accepts. *)
Lemma search_iff re s :
  (exists caps, search re s = Some caps) <->
  (exists pre rest caps, s = pre ++ rest /\ Matches re rest caps).
Proof.
  split.
  - intros [caps H]. apply search_sound in H as (pre & rest & -> & H).
    exists pre, rest, caps. split; [reflexivity|]. now apply match_here_sound.
  - intros (pre & rest & caps & -> & H).
    apply match_here_complete in H as [caps' H].
    eapply search_complete. eassumption.
Qed.

End RegexFacts.

Import RegexFacts.

(** ** The pattern and the lines, in words and in the script *)

Module PatternFacts.

#[local] Arguments lit : simpl never.

(** *** The character classes *)

Ltac class_iff c :=
  destruct c as [[] [] [] [] [] [] [] []]; vm_compute;
  (split; intros H;
   [ first [ discriminate H
           | repeat (first [left; reflexivity | right]) ]
   | first [ reflexivity
           | exfalso; repeat (destruct H as [H|H]; [discriminate H|]);
             exact H ] ]).

Lemma isspace_iff c : isspace c = true <-> is_space c.
Proof. class_iff c. Qed.

Lemma isdecimal_iff c : isdecimal c = true <-> is_digit c.
Proof. class_iff c. Qed.

Lemma islinebreak_iff c : islinebreak c = true <-> is_boundary c.
Proof. class_iff c. Qed.

Lemma all_space_iff w :
  Forall (fun a => isspace a = true) w <-> Forall is_space w.
Proof.
  split; intros H; (eapply List.Forall_impl; [|exact H]); intros a;
    apply isspace_iff.
Qed.

Lemma all_digit_iff t :
  Forall (fun a => isdecimal a = true) t <-> Forall is_digit t.
Proof.
  split; intros H; (eapply List.Forall_impl; [|exact H]); intros a;
    apply isdecimal_iff.
Qed.

Lemma no_break_iff l : no_break l <-> Forall (fun c => ~ is_boundary c) l.
Proof.
  unfold no_break.
  split; intros H; (eapply List.Forall_impl; [|exact H]); intros a Ha.
  - rewrite <- islinebreak_iff. congruence.
  - destruct (islinebreak a) eqn:E; [|reflexivity].
    apply islinebreak_iff in E. contradiction.
Qed.


(** *** The order in which the matcher tries the readings *)

(** A greedy repetition keeps the longest run after which the rest of the
    pattern matches. *)
Lemma greedy_plus_first cls kont taken s caps :
  greedy_plus cls kont taken s = Some caps ->
  exists t rest,
    t <> [] /\ Forall (fun c => cls c = true) t /\ s = t ++ rest /\
    kont (rev taken ++ t) rest = Some caps /\
    (forall t' rest',
       s = t' ++ rest' -> Forall (fun c => cls c = true) t' ->
       (length t < length t')%nat ->
       kont (rev taken ++ t') rest' = None).
Proof.
  revert taken. induction s as [|c s IH]; intros taken H; [discriminate|].
  simpl in H. destruct (cls c) eqn:Ec; [|discriminate].
  destruct (greedy_plus cls kont (c :: taken) s) as [caps'|] eqn:Eg.
  - injection H as ->.
    apply IH in Eg as (t & rest & Hne & Hall & -> & Hk & Hmax).
    exists (c :: t), rest. simpl in Hk. rewrite <- app_assoc in Hk.
    split; [discriminate|]. split; [now constructor|].
    split; [reflexivity|]. split; [exact Hk|].
    intros t' rest' E Hall' Hlen.
    destruct t' as [|c' t']; [simpl in Hlen; lia|].
    simpl in E. injection E as <- E. inversion Hall'; subst.
    specialize (Hmax t' rest' E ltac:(assumption) ltac:(simpl in Hlen; lia)).
    simpl in Hmax. now rewrite <- app_assoc in Hmax.
  - exists [c], s.
    split; [discriminate|]. split; [now repeat constructor|].
    split; [reflexivity|]. split; [exact H|].
    intros t' rest' E Hall' Hlen.
    destruct t' as [|c' t']; [simpl in Hlen; lia|].
    simpl in E. injection E as <- E. inversion Hall'; subst.
    destruct t' as [|d t']; [simpl in Hlen; lia|].
    destruct (kont (rev taken ++ c :: d :: t') rest') as [caps'|] eqn:Ek;
      [|reflexivity].
    destruct (greedy_plus_complete cls kont (c :: taken) (d :: t') rest')
      as [caps'' Hc]; [discriminate|assumption| |congruence].
    exists caps'. simpl. now rewrite <- app_assoc.
Qed.

(** A lazy repetition keeps the shortest run after which the rest of the
    pattern matches. *)
Lemma lazy_plus_first cls kont taken s caps :
  lazy_plus cls kont taken s = Some caps ->
  exists t rest,
    t <> [] /\ Forall (fun c => cls c = true) t /\ s = t ++ rest /\
    kont (rev taken ++ t) rest = Some caps /\
    (forall t' rest',
       s = t' ++ rest' -> t' <> [] -> (length t' < length t)%nat ->
       kont (rev taken ++ t') rest' = None).
Proof.
  revert taken. induction s as [|c s IH]; intros taken H; [discriminate|].
  simpl in H. destruct (cls c) eqn:Ec; [|discriminate].
  destruct (kont (rev taken ++ [c]) s) as [caps'|] eqn:Ek.
  - injection H as ->. exists [c], s.
    split; [discriminate|]. split; [now repeat constructor|].
    split; [reflexivity|]. split; [exact Ek|].
    intros t' rest' _ Hne Hlen. destruct t'; [contradiction|simpl in Hlen; lia].
  - apply IH in H as (t & rest & Hne & Hall & -> & Hk & Hmin).
    exists (c :: t), rest. simpl in Hk. rewrite <- app_assoc in Hk.
    split; [discriminate|]. split; [now constructor|].
    split; [reflexivity|]. split; [exact Hk|].
    intros t' rest' E Hne' Hlen.
    destruct t' as [|c' t']; [contradiction|].
    simpl in E. injection E as <- E.
    destruct t' as [|d t'].
    + simpl in E. subst. exact Ek.
    + specialize (Hmin (d :: t') rest' E ltac:(discriminate)
                    ltac:(simpl in *; lia)).
      simpl in Hmin. now rewrite <- app_assoc in Hmin.
Qed.

(** [re.search] returns the match at the first place that has one. *)
Lemma search_first re s caps :
  search re s = Some caps ->
  exists pre rest,
    s = pre ++ rest /\ match_here re rest = Some caps /\
    (forall pre' rest',
       s = pre' ++ rest' -> (length pre' < length pre)%nat ->
       match_here re rest' = None).
Proof.
  induction s as [|c s IH]; intros H.
  - simpl in H. destruct (match_here re []) eqn:E; [|discriminate].
    injection H as ->. exists [], []. repeat split; auto.
    intros pre' rest' _ Hlen. simpl in Hlen. lia.
  - simpl in H. destruct (match_here re (c :: s)) as [caps'|] eqn:E.
    + injection H as ->. exists [], (c :: s). repeat split; auto.
      intros pre' rest' _ Hlen. simpl in Hlen. lia.
    + apply IH in H as (pre & rest & -> & Hm & Hfirst).
      exists (c :: pre), rest. repeat split; auto.
      intros pre' rest' E' Hlen. destruct pre' as [|c' pre'].
      * simpl in E'. now subst.
      * simpl in E'. injection E' as <- E'.
        apply (Hfirst pre' rest' E'). simpl in Hlen. lia.
Qed.

Lemma search_none re pre rest :
  search re (pre ++ rest) = None -> match_here re rest = None.
Proof.
  intros H. destruct (match_here re rest) as [caps|] eqn:E; [|reflexivity].
  destruct (search_complete re pre rest caps E) as [caps' Hc]. congruence.
Qed.

(** One item of a pattern at a time. *)
Lemma match_lit l k s caps :
  match_here (Lit l :: k) s = Some caps ->
  exists s', s = l ++ s' /\ match_here k s' = Some caps.
Proof.
  cbn [match_here]. destruct (startswith l s) eqn:E; [|discriminate].
  intros H. exists (skipn (length l) s). split; [|exact H].
  now apply skipn_startswith.
Qed.

Lemma option_map_bind_none (txt : str) (r : option captures) caps :
  option_map (bind_group None txt) r = Some caps -> r = Some caps.
Proof. destruct r; simpl; congruence. Qed.

Lemma match_plus cls k s caps :
  match_here (Plus None cls :: k) s = Some caps ->
  exists t s',
    t <> [] /\ Forall (fun c => cls c = true) t /\ s = t ++ s' /\
    match_here k s' = Some caps /\
    (forall t' s'',
       s = t' ++ s'' -> Forall (fun c => cls c = true) t' ->
       (length t < length t')%nat -> match_here k s'' = None).
Proof.
  cbn [match_here]. intros H.
  apply greedy_plus_first in H as (t & s' & Hne & Hall & -> & Hk & Hmax).
  exists t, s'. repeat split; auto.
  - now apply option_map_bind_none in Hk.
  - intros t' s'' E Hall' Hlen. specialize (Hmax t' s'' E Hall' Hlen).
    destruct (match_here k s''); [discriminate|reflexivity].
Qed.

Lemma match_plus_group g cls k s caps :
  match_here (Plus (Some g) cls :: k) s = Some caps ->
  exists t s' caps',
    t <> [] /\ Forall (fun c => cls c = true) t /\ s = t ++ s' /\
    match_here k s' = Some caps' /\ caps = (g, t) :: caps'.
Proof.
  cbn [match_here]. intros H.
  apply greedy_plus_inv in H as (t & s' & Hne & Hall & -> & Hk).
  simpl in Hk. destruct (match_here k s') as [caps'|] eqn:E; [|discriminate].
  simpl in Hk. injection Hk as <-. exists t, s', caps'. auto.
Qed.

Lemma match_lazy_group g cls k s caps :
  match_here (LazyPlus (Some g) cls :: k) s = Some caps ->
  exists t s' caps',
    t <> [] /\ Forall (fun c => cls c = true) t /\ s = t ++ s' /\
    match_here k s' = Some caps' /\ caps = (g, t) :: caps' /\
    (forall t' s'',
       s = t' ++ s'' -> t' <> [] -> (length t' < length t)%nat ->
       match_here k s'' = None).
Proof.
  cbn [match_here]. intros H.
  apply lazy_plus_first in H as (t & s' & Hne & Hall & -> & Hk & Hmin).
  simpl in Hk. destruct (match_here k s') as [caps'|] eqn:E; [|discriminate].
  simpl in Hk. injection Hk as <-. exists t, s', caps'.
  repeat split; auto.
  intros t' s'' E' Hne' Hlen. specialize (Hmin t' s'' E' Hne' Hlen).
  simpl in Hmin. destruct (match_here k s''); [discriminate|reflexivity].
Qed.

#[local] Arguments match_here : simpl never.

End PatternFacts.

(** ** The layout of a traffic line *)

Module LayoutFacts.

Import PatternFacts.

#[local] Arguments lit : simpl never.
#[local] Arguments match_here : simpl never.

(** *** Runs of characters of one class *)

Lemma span_unique cls u u' r r' :
  Forall (fun c => cls c = true) u -> Forall (fun c => cls c = true) u' ->
  stops cls r -> stops cls r' ->
  u ++ r = u' ++ r' -> u = u' /\ r = r'.
Proof.
  intros Hu. revert u'. induction Hu as [|c u Hc _ IH]; intros u' Hu' Hr Hr' E.
  - destruct Hu' as [|c' u' Hc' _]; [auto|].
    simpl in E. subst r. simpl in Hr. congruence.
  - destruct Hu' as [|c' u' Hc' Hu'].
    + simpl in E. subst r'. simpl in Hr'. congruence.
    + simpl in E. injection E as -> E.
      destruct (IH u' Hu' Hr Hr' E) as [-> ->]. auto.
Qed.

Lemma stops_app cls t r :
  t <> [] -> Forall (fun c => cls c = false) t -> stops cls (t ++ r).
Proof. intros Hne Hall. destruct Hall; [contradiction|assumption]. Qed.

Lemma space_not_digit c : isspace c = true -> isdecimal c = false.
Proof. by_char c. Qed.

Lemma digit_not_space c : isdecimal c = true -> isspace c = false.
Proof. by_char c. Qed.

Lemma digits_not_space t :
  Forall (fun a => isdecimal a = true) t -> Forall (fun a => isspace a = false) t.
Proof.
  intros H. eapply List.Forall_impl; [|exact H]. apply digit_not_space.
Qed.

Lemma spaces_not_digit t :
  Forall (fun a => isspace a = true) t -> Forall (fun a => isdecimal a = false) t.
Proof.
  intros H. eapply List.Forall_impl; [|exact H]. apply space_not_digit.
Qed.

(** Two prefixes of one text that have the same length are the same. *)
Lemma app_same_length {A} (a a' b b' : list A) :
  a ++ b = a' ++ b' -> length a = length a' -> a = a' /\ b = b'.
Proof.
  revert a'. induction a as [|x a IH]; intros [|x' a'] E Hlen;
    try discriminate; [auto|].
  simpl in *. injection E as -> E.
  destruct (IH a' E ltac:(lia)) as [-> ->]. auto.
Qed.

(** White space stops at the end of the text, and white space stops
    digits. *)
Lemma stops_digit_spaces w r :
  Forall (fun a => isspace a = true) w -> r = [] \/ w <> [] ->
  stops isdecimal (w ++ r).
Proof.
  intros Hw [->|Hne].
  - rewrite app_nil_r. destruct Hw as [|a w Ha _]; [exact I|].
    simpl. now apply space_not_digit.
  - apply stops_app; [exact Hne|now apply spaces_not_digit].
Qed.

(** *** The layout and the pattern *)

Abbreviation from_label := (skipn 6 TRAFFIC_LINE_RE).
Abbreviation after_label := (skipn 7 TRAFFIC_LINE_RE).

Lemma spaces_cls w :
  is_spaces w -> w <> [] /\ Forall (fun a => cls_space a = true) w.
Proof. intros [Hne H]. split; [exact Hne|now apply all_space_iff]. Qed.

Lemma digits_cls t :
  is_digits t -> t <> [] /\ Forall (fun a => cls_digit a = true) t.
Proof. intros [Hne H]. split; [exact Hne|now apply all_digit_iff]. Qed.

Lemma label_cls n :
  is_label n -> n <> [] /\ Forall (fun a => cls_any a = true) n.
Proof.
  intros [Hne H]. split; [exact Hne|].
  eapply List.Forall_impl; [|exact H]. intros a Ha. unfold cls_any.
  now apply negb_true_iff, Ascii.eqb_neq.
Qed.

Lemma after_label_matches w4 w5 y w6 :
  is_spaces w4 -> is_spaces w5 -> is_digits y -> Forall is_space w6 ->
  Matches after_label (w4 ++ lit "finished at time" ++ w5 ++ y ++ w6)
    [("cycle"%string, y)].
Proof.
  intros [H4 H4'] % spaces_cls [H5 H5'] % spaces_cls [Hy Hy'] % digits_cls
    H6 % all_space_iff.
  unfold TRAFFIC_LINE_RE. cbn [skipn].
  apply (M_plus None cls_space _ w4); [exact H4|exact H4'|].
  apply M_lit.
  apply (M_plus None cls_space _ w5); [exact H5|exact H5'|].
  apply (M_plus (Some "cycle"%string) cls_digit _ y); [exact Hy|exact Hy'|].
  rewrite <- (app_nil_r w6).
  apply (M_star cls_space _ w6 []); [exact H6|].
  apply M_dollar; [now left|]. constructor.
Qed.

Lemma from_label_matches n w4 w5 y w6 :
  is_label n ->
  is_spaces w4 -> is_spaces w5 -> is_digits y -> Forall is_space w6 ->
  Matches from_label (n ++ w4 ++ lit "finished at time" ++ w5 ++ y ++ w6)
    [("name"%string, n); ("cycle"%string, y)].
Proof.
  intros [Hn Hn'] % label_cls H4 H5 Hy H6.
  pose proof (after_label_matches w4 w5 y w6 H4 H5 Hy H6) as Hm.
  unfold TRAFFIC_LINE_RE in *. cbn [skipn] in *.
  apply (M_lazy (Some "name"%string) cls_any _ n _ _ Hn Hn' Hm).
Qed.

(** A text with the layout is a text the pattern accepts. *)
Lemma layout_matches rest c w3 n y :
  Layout rest c w3 n y ->
  Matches TRAFFIC_LINE_RE rest
    [("core"%string, c); ("name"%string, n); ("cycle"%string, y)].
Proof.
  intros (w1 & w2 & w4 & w5 & w6 & -> & [H1 H1'] % spaces_cls
          & [H2 H2'] % spaces_cls & [Hc Hc'] % digits_cls
          & [H3 H3'] % spaces_cls & Hn & H4 & H5 & Hy & H6).
  pose proof (from_label_matches n w4 w5 y w6 Hn H4 H5 Hy H6) as Hm.
  unfold TRAFFIC_LINE_RE in *. cbn [skipn] in Hm.
  apply M_lit.
  apply (M_plus None cls_space _ w1); [exact H1|exact H1'|].
  apply M_lit.
  apply (M_plus None cls_space _ w2); [exact H2|exact H2'|].
  apply (M_plus (Some "core"%string) cls_digit _ c); [exact Hc|exact Hc'|].
  apply (M_plus None cls_space _ w3 _ _ H3 H3' Hm).
Qed.

(** The text the pattern accepts after the label. *)
Lemma after_label_inv r caps :
  Matches after_label r caps ->
  exists w4 w5 y w6,
    r = w4 ++ lit "finished at time" ++ w5 ++ y ++ w6 /\
    is_spaces w4 /\ is_spaces w5 /\ is_digits y /\ Forall is_space w6 /\
    caps = [("cycle"%string, y)].
Proof.
  unfold TRAFFIC_LINE_RE. cbn [skipn]. intros H.
  repeat match goal with
         | H : Matches (_ :: _) _ _ |- _ => inversion H; subst; clear H
         end.
  match goal with H : Matches [] _ _ |- _ => inversion H; subst; clear H end.
  unfold cls_space, cls_digit in *.
  match goal with
  | H : ?s = [] \/ ?s = [LF] |- _ => rename H into Hend
  end.
  match goal with
  | |- exists w4 w5 y w6,
         ?a ++ _ ++ ?b ++ ?c ++ ?d ++ ?e = _ /\ _ =>
      exists a, b, c, (d ++ e)
  end.
  split; [reflexivity|].
  repeat split; try assumption; try (now apply all_space_iff);
    try (now apply all_digit_iff).
  apply Forall_app. split; [now apply all_space_iff|].
  destruct Hend as [->| ->]; [constructor|].
  constructor; [|constructor]. apply isspace_iff. reflexivity.
Qed.

(** Texts of one layout that agree on the lengths of the white space
    before the label and of the label agree on all fields. *)
Lemma after_label_unique w4 w5 y w6 w4' w5' y' w6' :
  is_spaces w4 -> is_spaces w5 -> is_digits y -> Forall is_space w6 ->
  is_spaces w4' -> is_spaces w5' -> is_digits y' -> Forall is_space w6' ->
  w4 ++ lit "finished at time" ++ w5 ++ y ++ w6
  = w4' ++ lit "finished at time" ++ w5' ++ y' ++ w6' ->
  y = y'.
Proof.
  intros [H4 H4'] % spaces_cls [H5 H5'] % spaces_cls [Hy Hy'] % digits_cls
    H6 % all_space_iff
    [G4 G4'] % spaces_cls [G5 G5'] % spaces_cls [Gy Gy'] % digits_cls
    G6 % all_space_iff E.
  unfold cls_space, cls_digit in *.
  apply (span_unique isspace) in E as [-> E]; try assumption;
    try (change (lit "finished at time")
          with ("f"%char :: lit "inished at time"); reflexivity).
  apply app_inv_head in E.
  apply (span_unique isspace) in E as [-> E]; try assumption;
    try (apply stops_app; [assumption|now apply digits_not_space]).
  apply (span_unique isdecimal) in E as [-> _]; try assumption;
    try (rewrite <- (app_nil_r w6); apply stops_digit_spaces; auto);
    try (rewrite <- (app_nil_r w6'); apply stops_digit_spaces; auto).
  reflexivity.
Qed.

(** The part of a layout before the white space in front of the label is
    the same in all readings of a text. *)
Lemma layout_head_unique w1 w2 c s w1' w2' c' s' w3 w3' :
  is_spaces w1 -> is_spaces w2 -> is_digits c -> is_spaces w3 ->
  is_spaces w1' -> is_spaces w2' -> is_digits c' -> is_spaces w3' ->
  lit "[TRAFFIC]" ++ w1 ++ lit "core" ++ w2 ++ c ++ w3 ++ s
  = lit "[TRAFFIC]" ++ w1' ++ lit "core" ++ w2' ++ c' ++ w3' ++ s' ->
  c = c' /\ w3 ++ s = w3' ++ s'.
Proof.
  intros [H1 H1'] % spaces_cls [H2 H2'] % spaces_cls [Hc Hc'] % digits_cls
    [H3 H3'] % spaces_cls
    [G1 G1'] % spaces_cls [G2 G2'] % spaces_cls [Gc Gc'] % digits_cls
    [G3 G3'] % spaces_cls E.
  unfold cls_space, cls_digit in *.
  apply app_inv_head in E.
  apply (span_unique isspace) in E as [-> E]; try assumption;
    try (change (lit "core") with ("c"%char :: lit "ore"); reflexivity).
  apply app_inv_head in E.
  apply (span_unique isspace) in E as [-> E]; try assumption;
    try (apply stops_app; [assumption|now apply digits_not_space]).
  apply (span_unique isdecimal) in E as [-> E]; try assumption;
    try (apply stops_app; [assumption|now apply spaces_not_digit]).
  auto.
Qed.

Lemma layout_unique rest c w3 n y c' w3' n' y' :
  Layout rest c w3 n y -> Layout rest c' w3' n' y' ->
  length w3 = length w3' -> length n = length n' ->
  c = c' /\ w3 = w3' /\ n = n' /\ y = y'.
Proof.
  intros (w1 & w2 & w4 & w5 & w6 & -> & H1 & H2 & Hc & H3 & Hn & H4 & H5
          & Hy & H6)
         (v1 & v2 & v4 & v5 & v6 & E & G1 & G2 & Gc & G3 & Gn & G4 & G5
          & Gy & G6) Hl3 Hln.
  apply layout_head_unique in E as [-> E]; try assumption.
  apply app_same_length in E as [-> E]; [|exact Hl3].
  apply app_same_length in E as [-> E]; [|exact Hln].
  apply after_label_unique in E; try assumption. subst. auto.
Qed.

(** *** The reading the matcher returns *)

(** The match the matcher returns at a place is the reading of the text
    from there in which the white space before the label is longest and,
    with that white space, the label is shortest. *)
Lemma match_here_layout rest m :
  match_here TRAFFIC_LINE_RE rest = Some m ->
  exists c w3 n y,
    m = [("core"%string, c); ("name"%string, n); ("cycle"%string, y)] /\
    Layout rest c w3 n y /\
    (forall c' w3' n' y',
       Layout rest c' w3' n' y' ->
       (length w3' < length w3)%nat \/
       (length w3' = length w3 /\ (length n <= length n')%nat)).
Proof.
  unfold TRAFFIC_LINE_RE. intros H.
  apply match_lit in H as (s0 & -> & H).
  apply match_plus in H as (w1 & s1 & H1 & H1' & -> & H & _).
  apply match_lit in H as (s2 & -> & H).
  apply match_plus in H as (w2 & s3 & H2 & H2' & -> & H & _).
  apply match_plus_group in H as (c & s4 & m4 & Hc & Hc' & -> & H & ->).
  apply match_plus in H as (w3 & s5 & H3 & H3' & -> & H & Hmax).
  apply match_lazy_group in H as (n & s6 & m6 & Hn & Hn' & -> & H & -> & Hmin).
  pose proof (match_here_sound _ _ _ H) as Hm.
  apply (after_label_inv s6 m6) in Hm
    as (w4 & w5 & y & w6 & -> & H4 & H5 & Hy & H6 & ->).
  unfold cls_space, cls_digit in *.
  assert (S1 : is_spaces w1) by (split; [exact H1|now apply all_space_iff]).
  assert (S2 : is_spaces w2) by (split; [exact H2|now apply all_space_iff]).
  assert (S3 : is_spaces w3) by (split; [exact H3|now apply all_space_iff]).
  assert (Sc : is_digits c) by (split; [exact Hc|now apply all_digit_iff]).
  assert (Sn : is_label n).
  { split; [exact Hn|]. eapply List.Forall_impl; [|exact Hn'].
    intros a Ha. unfold cls_any in Ha.
    now apply negb_true_iff, Ascii.eqb_neq in Ha. }
  exists c, w3, n, y. split; [reflexivity|]. split.
  { exists w1, w2, w4, w5, w6. split; [reflexivity|].
    repeat (split; [assumption|]). assumption. }
  intros c' w3' n' y'
    (v1 & v2 & v4 & v5 & v6 & E & G1 & G2 & Gc & G3 & Gn & G4 & G5 & Gy & G6).
  apply layout_head_unique in E as [<- E]; try assumption.
  destruct (Nat.lt_trichotomy (length w3') (length w3)) as [Hlt|[Heq|Hgt]];
    [now left| |exfalso].
  - right. split; [exact Heq|].
    apply app_same_length in E as [<- E]; [|now symmetry].
    destruct (Nat.le_gt_cases (length n) (length n')) as [Hle|Hlt];
      [exact Hle|exfalso].
    assert (Hnone := Hmin n' _ E (proj1 Gn) Hlt).
    destruct (match_here_complete _ _ _
                (after_label_matches v4 v5 y' v6 G4 G5 Gy G6)) as [m' Hm'].
    unfold TRAFFIC_LINE_RE in Hm'. cbn [skipn] in Hm'.
    unfold cls_space, cls_digit in Hm'. congruence.
  - assert (Hnone := Hmax w3' _ E (proj2 (spaces_cls _ G3)) Hgt).
    destruct (match_here_complete _ _ _
                (from_label_matches n' v4 v5 y' v6 Gn G4 G5 Gy G6))
      as [m' Hm'].
    unfold TRAFFIC_LINE_RE in Hm'. cbn [skipn] in Hm'.
    unfold cls_space, cls_digit in Hm'. congruence.
Qed.

(** [re.search] returns the fields of the line. *)
Lemma search_fields raw m :
  search TRAFFIC_LINE_RE raw = Some m ->
  exists c n y,
    m = [("core"%string, c); ("name"%string, n); ("cycle"%string, y)] /\
    Fields raw c n y.
Proof.
  intros H. apply search_first in H as (pre & rest & -> & H & Hfirst).
  apply match_here_layout in H as (c & w3 & n & y & -> & Hl & Hpref).
  exists c, n, y. split; [reflexivity|].
  exists pre, rest, w3. repeat split; try assumption.
  intros pre' rest' c' w3' n' y' E Hl'.
  destruct (Nat.le_gt_cases (length pre) (length pre')) as [Hle|Hlt];
    [exact Hle|exfalso].
  assert (Hnone := Hfirst pre' rest' E Hlt).
  destruct (match_here_complete _ _ _ (layout_matches _ _ _ _ _ Hl'))
    as [m' Hm']. congruence.
Qed.

Lemma search_unmatched raw :
  search TRAFFIC_LINE_RE raw = None -> Unmatched raw.
Proof.
  intros H pre rest c w3 n y -> Hl.
  apply search_none in H.
  destruct (match_here_complete _ _ _ (layout_matches _ _ _ _ _ Hl))
    as [m' Hm']. congruence.
Qed.

(** A line has one reading. *)
Lemma fields_unique raw c n y c' n' y' :
  Fields raw c n y -> Fields raw c' n' y' -> c = c' /\ n = n' /\ y = y'.
Proof.
  intros (pre & rest & w3 & E & Hl & Hfirst & Hpref)
         (pre' & rest' & w3' & E' & Hl' & Hfirst' & Hpref').
  assert (Hlen : length pre = length pre').
  { apply Nat.le_antisymm.
    - apply (Hfirst pre' rest' c' w3' n' y' E' Hl').
    - apply (Hfirst' pre rest c w3 n y E Hl). }
  rewrite E in E'. apply app_same_length in E' as [<- <-]; [|exact Hlen].
  destruct (Hpref _ _ _ _ Hl') as [H1|[H1 H2]];
    destruct (Hpref' _ _ _ _ Hl) as [H3|[H3 H4]]; try lia.
  destruct (layout_unique _ _ _ _ _ _ _ _ _ Hl Hl') as (-> & _ & -> & ->);
    [lia|lia|auto].
Qed.

Lemma fields_not_unmatched raw c n y : Fields raw c n y -> ~ Unmatched raw.
Proof.
  intros (pre & rest & w3 & E & Hl & _) Hun. exact (Hun _ _ _ _ _ _ E Hl).
Qed.

End LayoutFacts.

(** ** What the parser reads *)

Module ReadingFacts.

Import PatternFacts LayoutFacts.

#[local] Arguments lit : simpl never.
#[local] Arguments match_here : simpl never.
#[local] Arguments search : simpl never.

(** *** The lines of a text *)

Lemma rev_nonempty {A} (l : list A) : l <> [] -> rev l <> [].
Proof.
  intros H E. apply H. rewrite <- (rev_involutive l), E. reflexivity.
Qed.

Lemma rev_inj {A} (l1 l2 : list A) : rev l1 = rev l2 -> l1 = l2.
Proof.
  intros E. rewrite <- (rev_involutive l1), E. apply rev_involutive.
Qed.

Lemma splitlines_single l : l <> [] -> no_break l -> splitlines l = [l].
Proof.
  intros Hne Hnb.
  change l with (join [LF] [l]) at 1. apply splitlines_join.
  - now constructor.
  - intros front E. symmetry in E.
    apply (app_inj_tail front [] [] l) in E as [_ E]. congruence.
Qed.

(** What [splitlines] returns are the lines of the text. *)
Lemma splitlines_from_is_lines n :
  forall s cur,
    length s = n -> Forall (fun c => ~ is_boundary c) cur ->
    IsLines (rev cur ++ s) (splitlines_from cur s).
Proof.
  induction n as [n IH] using lt_wf_ind. intros s cur Hn Hcur.
  destruct s as [|c s].
  - simpl. rewrite app_nil_r. destruct cur as [|a cur]; [constructor|].
    apply IsLines_last.
    + apply rev_nonempty. discriminate.
    + now apply List.Forall_rev.
  - cbn [splitlines_from]. destruct (islinebreak c) eqn:Ec.
    + apply islinebreak_iff in Ec. destruct s as [|d s].
      * change (rev cur ++ [c]) with (rev cur ++ [c] ++ []).
        apply IsLines_cons; [now apply List.Forall_rev| |constructor].
        apply Boundary_one; [exact Ec|]. intros [_ [r Hr]]. discriminate.
      * destruct (Ascii.eqb c CR && Ascii.eqb d LF) eqn:E.
        -- apply andb_true_iff in E as [E1 E2].
           apply Ascii.eqb_eq in E1, E2. subst c d.
           change (rev cur ++ CR :: LF :: s) with (rev cur ++ [CR; LF] ++ s).
           apply IsLines_cons; [now apply List.Forall_rev|constructor|].
           apply (IH (length s) ltac:(simpl in Hn; lia) s [] eq_refl).
           constructor.
        -- change (rev cur ++ c :: d :: s) with (rev cur ++ [c] ++ d :: s).
           apply IsLines_cons; [now apply List.Forall_rev| |].
           ++ apply Boundary_one; [exact Ec|].
              intros [-> [r [= -> _]]]. discriminate.
           ++ apply (IH (length (d :: s)) ltac:(simpl in *; lia) (d :: s) []
                       eq_refl).
              constructor.
    + assert (Hc : ~ is_boundary c).
      { intros Hb. apply islinebreak_iff in Hb. congruence. }
      pose proof (IH (length s) ltac:(simpl in Hn; lia) s (c :: cur) eq_refl
                    ltac:(constructor; assumption)) as H.
      simpl rev in H. now rewrite <- app_assoc in H.
Qed.

Lemma splitlines_is_lines text : IsLines text (splitlines text).
Proof.
  apply (splitlines_from_is_lines (length text) text [] eq_refl). constructor.
Qed.

(** A text has no other lines. *)
Lemma is_lines_splitlines text lines :
  IsLines text lines -> lines = splitlines text.
Proof.
  induction 1 as [|l Hne Hl|l b rest lines Hl Hb _ IH].
  - reflexivity.
  - symmetry. apply splitlines_single; [exact Hne|now apply no_break_iff].
  - apply no_break_iff in Hl. unfold splitlines.
    rewrite (splitlines_from_no_break l [] (b ++ rest) Hl), app_nil_r.
    destruct Hb as [rest|c rest Hc Hnot].
    + cbn [app splitlines_from].
      change (islinebreak CR) with true.
      change (Ascii.eqb CR CR && Ascii.eqb LF LF) with true. cbv iota.
      rewrite rev_involutive. now f_equal.
    + cbn [app splitlines_from]. apply islinebreak_iff in Hc. rewrite Hc.
      rewrite rev_involutive. f_equal.
      destruct rest as [|d rest']; [exact IH|].
      destruct (Ascii.eqb c CR && Ascii.eqb d LF) eqn:E; [|exact IH].
      exfalso. apply Hnot. apply andb_true_iff in E as [E1 E2].
      apply Ascii.eqb_eq in E1, E2. subst. eauto.
Qed.

(** *** Trimming *)

Lemma lstrip_by_head sp s c t : lstrip_by sp s = c :: t -> sp c = false.
Proof.
  induction s as [|d s IH]; [discriminate|]. simpl.
  destruct (sp d) eqn:E; [exact IH|]. now intros [= <- _].
Qed.

Lemma lstrip_by_split sp s :
  exists a, s = a ++ lstrip_by sp s /\ Forall (fun c => sp c = true) a.
Proof.
  induction s as [|c s (a & IH & Ha)]; [now exists []|]. simpl.
  destruct (sp c) eqn:E.
  - exists (c :: a). simpl. split; [now rewrite <- IH|now constructor].
  - now exists [].
Qed.

Lemma lstrip_by_suffix sp s : exists a, s = a ++ lstrip_by sp s.
Proof. destruct (lstrip_by_split sp s) as (a & H & _). now exists a. Qed.

Lemma lstrip_by_spaces sp a s :
  Forall (fun c => sp c = true) a -> lstrip_by sp (a ++ s) = lstrip_by sp s.
Proof. induction 1 as [|c a Hc _ IH]; [reflexivity|]. simpl. now rewrite Hc. Qed.

Lemma strip_by_split sp s :
  exists a b,
    s = a ++ strip_by sp s ++ b /\
    Forall (fun c => sp c = true) a /\ Forall (fun c => sp c = true) b.
Proof.
  destruct (lstrip_by_split sp s) as (a & Ha & Hsa).
  destruct (lstrip_by_split sp (rev (lstrip_by sp s))) as (b & Hb & Hsb).
  exists a, (rev b). repeat split; [|exact Hsa|now apply List.Forall_rev].
  rewrite Ha at 1. f_equal. unfold strip_by, rstrip_by.
  rewrite <- rev_app_distr, <- Hb. now rewrite rev_involutive.
Qed.

Lemma strip_by_shape sp s :
  strip_by sp s = [] \/
  (exists c, strip_by sp s = [c] /\ sp c = false) \/
  (exists c mid d, strip_by sp s = c :: mid ++ [d] /\ sp c = false /\ sp d = false).
Proof.
  set (u := lstrip_by sp s).
  assert (Hr : strip_by sp s = rev (lstrip_by sp (rev u))) by reflexivity.
  rewrite Hr. clear Hr.
  destruct (lstrip_by sp (rev u)) as [|d v] eqn:Ev; [now left|]. right.
  pose proof (lstrip_by_head _ _ _ _ Ev) as Hd.
  destruct (lstrip_by_suffix sp (rev u)) as [a Ha]. rewrite Ev in Ha.
  assert (Hu : u = rev v ++ d :: rev a).
  { rewrite <- (rev_involutive u), Ha, rev_app_distr. simpl.
    now rewrite <- app_assoc. }
  simpl rev. destruct (rev v) as [|c w] eqn:Ew.
  - left. exists d. auto.
  - right. exists c, w, d. repeat split; auto.
    subst u. simpl in Hu. eapply lstrip_by_head. exact Hu.
Qed.

Lemma not_space_iff c : isspace c = false <-> ~ is_space c.
Proof.
  rewrite <- isspace_iff. destruct (isspace c); split; congruence.
Qed.

(** [strip] trims. *)
Lemma strip_trimmed n : Trimmed n (strip n).
Proof.
  destruct (strip_by_split isspace n) as (a & b & E & Ha & Hb).
  exists a, b. split; [exact E|].
  split; [now apply all_space_iff|]. split; [now apply all_space_iff|].
  unfold strip.
  destruct (strip_by_shape isspace n)
    as [->|[(c & -> & Hc)|(c & mid & d & -> & Hc & Hd)]].
  - split; [discriminate|]. intros t' c E'. now destruct t'.
  - split.
    + intros c' t' [= <- _]. now apply not_space_iff.
    + intros t' c' E'. destruct t' as [|x t'].
      * injection E' as <-. now apply not_space_iff.
      * destruct t'; discriminate.
  - split.
    + intros c' t' [= <- _]. now apply not_space_iff.
    + intros t' c' E'.
      change (c :: mid ++ [d]) with ((c :: mid) ++ [d]) in E'.
      apply app_inj_tail in E' as [_ <-]. now apply not_space_iff.
Qed.

(** Nothing else is the trimmed text. *)
Lemma trimmed_strip n t : Trimmed n t -> t = strip n.
Proof.
  intros (a & b & -> & Ha & Hb & Hfirst & Hlast).
  apply all_space_iff in Ha, Hb.
  unfold strip, strip_by. rewrite (lstrip_by_spaces _ _ _ Ha).
  destruct t as [|c t].
  - simpl. rewrite <- (app_nil_r b), (lstrip_by_spaces _ _ _ Hb). reflexivity.
  - assert (Hc : isspace c = false)
      by (apply not_space_iff; eapply Hfirst; reflexivity).
    change ((c :: t) ++ b) with (c :: t ++ b).
    rewrite (lstrip_by_id _ _ _ Hc). unfold rstrip_by.
    change (c :: t ++ b) with ((c :: t) ++ b).
    rewrite rev_app_distr, lstrip_by_spaces by (now apply List.Forall_rev).
    destruct (@exists_last _ (c :: t)) as (front & d & E); [discriminate|].
    rewrite E.
    assert (Hd : isspace d = false)
      by (apply not_space_iff; eapply Hlast; exact E).
    rewrite rev_app_distr. simpl rev. cbn [app lstrip_by]. rewrite Hd.
    change (d :: rev front) with ([d] ++ rev front).
    now rewrite rev_app_distr, rev_involutive.
Qed.

(** *** Numbers *)

Lemma int_digits_value t acc prev :
  Forall (fun c => isdecimal c = true) t ->
  t <> [] \/ prev = true ->
  int_digits acc prev t
  = Some (fold_left (fun acc c => 10 * acc + (Z.of_N (N_of_ascii c) - 48)) t acc).
Proof.
  intros Hall. revert acc prev.
  induction Hall as [|c t Hc _ IH]; intros acc prev Hne.
  - destruct Hne as [Hne| ->]; [contradiction|reflexivity].
  - simpl. destruct (isdecimal_not_sign c Hc) as (-> & _ & _).
    unfold digit_value. rewrite Hc. apply IH. now right.
Qed.

Lemma strip_by_digits sp t :
  (forall c, isdecimal c = true -> sp c = false) ->
  Forall (fun c => isdecimal c = true) t -> strip_by sp t = t.
Proof.
  intros Hsp Hall. destruct t as [|c t]; [reflexivity|].
  inversion Hall as [|? ? Hc Ht]; subst.
  destruct t as [|d t'].
  - apply strip_by_id1. now apply Hsp.
  - destruct (@exists_last _ (d :: t')) as (mid & e & E); [discriminate|].
    rewrite E in *. apply strip_by_id.
    + now apply Hsp.
    + apply Hsp. apply Forall_app in Ht as [_ Ht]. now inversion Ht.
Qed.

Lemma count_digits_all t :
  Forall (fun c => isdecimal c = true) t -> count_digits t = length t.
Proof.
  unfold count_digits. induction 1 as [|c t Hc _ IH]; [reflexivity|].
  cbn [List.filter]. rewrite Hc. cbn [length]. now rewrite IH.
Qed.

(** [int] reads a non-empty text of decimal digits when it has no more
    digits than the limit, and raises when it has more. *)
Lemma int_of_digits t :
  t <> [] -> Forall (fun c => isdecimal c = true) t ->
  int t = if (length t <=? int_max_str_digits)%nat
          then Ok (digits_value t) else Err (ValueError t).
Proof.
  intros Hne Hall. unfold int, int_of_str. cbv zeta.
  rewrite (strip_by_digits _ _ isdecimal_not_int_space Hall).
  rewrite (count_digits_all _ Hall), Nat.ltb_antisym.
  destruct (length t <=? int_max_str_digits)%nat; cbn [negb]; [|reflexivity].
  destruct t as [|c t]; [contradiction|].
  inversion Hall as [|? ? Hc Ht]; subst.
  destruct (isdecimal_not_sign c Hc) as (_ & -> & ->).
  rewrite (int_digits_value (c :: t) 0 false Hall); [reflexivity|].
  left. discriminate.
Qed.

(** *** The loop of the parser *)

(** The groups of a match of [TRAFFIC_LINE_RE]: [core] and [cycle] are
    non-empty texts of decimal digits, [name] is not empty. *)
Lemma traffic_line_groups rest m :
  Matches TRAFFIC_LINE_RE rest m ->
  exists c n y,
    m = [("core"%string, c); ("name"%string, n); ("cycle"%string, y)] /\
    c <> [] /\ Forall (fun a => isdecimal a = true) c /\
    n <> [] /\ Forall (fun a => a <> LF) n /\
    y <> [] /\ Forall (fun a => isdecimal a = true) y.
Proof.
  unfold TRAFFIC_LINE_RE. intros H.
  repeat match goal with
         | H : Matches (_ :: _) _ _ |- _ => inversion H; subst; clear H
         end.
  match goal with H : Matches [] _ _ |- _ => inversion H; subst; clear H end.
  simpl. do 3 eexists. split; [reflexivity|].
  repeat split; try assumption.
  match goal with
  | H : Forall (fun c => cls_any c = true) ?n |- Forall _ ?n =>
      eapply List.Forall_impl; [|exact H]
  end.
  intros a Ha. unfold cls_any in Ha. apply negb_true_iff in Ha.
  now apply Ascii.eqb_neq in Ha.
Qed.

Lemma search_groups raw m :
  search TRAFFIC_LINE_RE raw = Some m ->
  exists c n y,
    m = [("core"%string, c); ("name"%string, n); ("cycle"%string, y)] /\
    (c <> [] /\ Forall (fun a => isdecimal a = true) c) /\
    (y <> [] /\ Forall (fun a => isdecimal a = true) y) /\
    Fields raw c n y.
Proof.
  intros H. apply search_fields in H as (c & n & y & -> & Hf).
  exists c, n, y. split; [reflexivity|].
  pose proof Hf as (pre & rest & w3 & _ & Hl & _).
  destruct Hl as (w1 & w2 & w4 & w5 & w6 & _ & _ & _ & [Hc Hc'] & _ & _ & _
                  & _ & [Hy Hy'] & _).
  repeat split; try assumption; now apply all_digit_iff.
Qed.

(** The loop appends what the outcomes of the lines say, in the order of
    the lines, and stops at the first line that is malformed. *)
Lemma parse_loop_reading core raws rows :
  parse_loop core raws rows
  = (r <- reading (map (line_outcome core) raws) ;; Ok (rows ++ r)).
Proof.
  revert rows. induction raws as [|raw rest IH]; intros rows.
  - simpl. now rewrite app_nil_r.
  - cbn [parse_loop map]. unfold line_outcome at 1.
    destruct (search TRAFFIC_LINE_RE raw) as [m|] eqn:Es;
      [|cbn [reading]; apply IH].
    destruct (search_groups _ _ Es) as (c & n & y & -> & [Hc Hc'] & [Hy Hy'] & _).
    unfold group_text. simpl group. cbn [rbind].
    rewrite (int_of_digits c Hc Hc').
    destruct (length c <=? int_max_str_digits)%nat; cbn [rbind reading];
      [|reflexivity].
    destruct (digits_value c =? core) eqn:Ec; cbn [negb reading]; [|apply IH].
    rewrite (int_of_digits y Hy Hy').
    destruct (length y <=? int_max_str_digits)%nat; cbn [rbind reading];
      [|reflexivity].
    rewrite IH.
    destruct (reading (map (line_outcome core) rest)); cbn [rbind];
      [|reflexivity].
    now rewrite <- app_assoc.
Qed.

Lemma parse_reading text core :
  parse_traffic_lines text core
  = reading (map (line_outcome core) (splitlines text)).
Proof.
  unfold parse_traffic_lines. rewrite parse_loop_reading.
  now destruct (reading (map (line_outcome core) (splitlines text))).
Qed.

(** The outcome the loop computes is the outcome of the line. *)
Lemma line_outcome_spec core raw : LineOutcome core raw (line_outcome core raw).
Proof.
  unfold line_outcome.
  destruct (search TRAFFIC_LINE_RE raw) as [m|] eqn:Es.
  - destruct (search_groups _ _ Es) as (c & n & y & -> & _ & _ & Hf).
    simpl group. cbv beta iota.
    destruct (length c <=? int_max_str_digits)%nat eqn:Hc.
    + apply Nat.leb_le in Hc.
      destruct (digits_value c =? core) eqn:Ec.
      * apply Z.eqb_eq in Ec.
        destruct (length y <=? int_max_str_digits)%nat eqn:Hy.
        -- apply Nat.leb_le in Hy.
           apply (LineOutcome_event core raw c n y (strip n) Hf Hc Ec Hy).
           apply strip_trimmed.
        -- apply Nat.leb_gt in Hy.
           apply (LineOutcome_long_cycle core raw c n y Hf Hc Ec Hy).
      * apply Z.eqb_neq in Ec.
        apply (LineOutcome_other_core core raw c n y Hf Hc Ec).
    + apply Nat.leb_gt in Hc.
      apply (LineOutcome_long_core core raw c n y Hf Hc).
  - apply LineOutcome_unmatched. now apply search_unmatched.
Qed.

(** A line has one outcome. *)
Lemma line_outcome_functional core raw o o' :
  LineOutcome core raw o -> LineOutcome core raw o' -> o = o'.
Proof.
  intros H H'.
  destruct H as [Hu|c n y Hf Hc|c n y Hf Hc Hv|c n y Hf Hc Hv Hy
                 |c n y t Hf Hc Hv Hy Ht];
    destruct H' as [Hu'|c' n' y' Hf' Hc'|c' n' y' Hf' Hc' Hv'
                    |c' n' y' Hf' Hc' Hv' Hy'|c' n' y' t' Hf' Hc' Hv' Hy' Ht'];
    try reflexivity;
    try (exfalso; eapply fields_not_unmatched; eassumption);
    destruct (fields_unique _ _ _ _ _ _ _ Hf Hf') as (<- & <- & <-);
    try reflexivity; try lia; try contradiction.
  apply trimmed_strip in Ht, Ht'. now subst.
Qed.

Lemma outcomes_exist core lines :
  Forall2 (LineOutcome core) lines (map (line_outcome core) lines).
Proof.
  induction lines as [|raw rest IH]; constructor;
    [apply line_outcome_spec|exact IH].
Qed.

Lemma outcomes_unique core lines outs :
  Forall2 (LineOutcome core) lines outs ->
  outs = map (line_outcome core) lines.
Proof.
  induction 1 as [|raw o rest outs Ho _ IH]; [reflexivity|].
  simpl. f_equal; [|exact IH].
  apply (line_outcome_functional core raw); [exact Ho|apply line_outcome_spec].
Qed.

(** A malformed line has a number that is too long. *)
Lemma malformed_inv core raw txt :
  LineOutcome core raw (Malformed txt) ->
  exists c n y,
    Fields raw c n y /\
    ((txt = c /\ (digit_limit < length c)%nat) \/
     (txt = y /\ digits_value c = core /\
      (length c <= digit_limit)%nat /\ (digit_limit < length y)%nat)).
Proof.
  intros H. remember (Malformed txt) as o eqn:Eo.
  destruct H as [Hu|c n y Hf Hc|c n y Hf Hc Hv|c n y Hf Hc Hv Hy
                 |c n y t Hf Hc Hv Hy Ht]; try discriminate;
    injection Eo as Eo; subst txt; exists c, n, y; auto 10.
Qed.

(** An error comes from a malformed line. *)
Lemma reading_err outs e :
  reading outs = Err e -> exists txt, In (Malformed txt) outs /\ e = ValueError txt.
Proof.
  induction outs as [|o outs IH]; [discriminate|].
  destruct o as [|ev|txt]; cbn [reading].
  - intros H. destruct (IH H) as (txt & Hin & ->). exists txt. auto using in_cons.
  - destruct (reading outs) as [rows|e'] eqn:E; cbn [rbind]; [discriminate|].
    intros [= <-]. destruct (IH eq_refl) as (txt & Hin & ->).
    exists txt. auto using in_cons.
  - intros [= <-]. exists txt. split; [now left|reflexivity].
Qed.

(** What the events are when there is no error. *)
Lemma line_outcome_event core raw :
  match line_outcome core raw with
  | Skipped => line_event core raw = None
  | Event ev => line_event core raw = Some ev
  | Malformed _ => True
  end.
Proof.
  unfold line_outcome, line_event, line_fields.
  destruct (search TRAFFIC_LINE_RE raw) as [m|] eqn:Es; [|reflexivity].
  destruct (search_groups _ _ Es) as (c & n & y & -> & _).
  simpl group. cbv beta iota.
  destruct (length c <=? int_max_str_digits)%nat; [|exact I].
  destruct (digits_value c =? core); [|reflexivity].
  destruct (length y <=? int_max_str_digits)%nat; [reflexivity|exact I].
Qed.

Lemma reading_events core raws rows :
  reading (map (line_outcome core) raws) = Ok rows ->
  rows = omap (line_event core) raws.
Proof.
  revert rows. induction raws as [|raw rest IH]; intros rows.
  - now intros [= <-].
  - cbn [map reading omap list_omap].
    pose proof (line_outcome_event core raw) as Hev.
    destruct (line_outcome core raw) as [|ev|txt]; [| |discriminate].
    + rewrite Hev. apply IH.
    + rewrite Hev.
      destruct (reading (map (line_outcome core) rest)) as [rows'|]; cbn [rbind];
        [|discriminate].
      intros [= <-]. f_equal. now apply IH.
Qed.

Lemma parse_rows text core rows :
  parse_traffic_lines text core = Ok rows ->
  rows = omap (line_event core) (splitlines text).
Proof. rewrite parse_reading. apply reading_events. Qed.

Lemma line_fields_match raw c n y :
  line_fields raw = Some (c, n, y) ->
  exists pre rest ctxt ytxt,
    raw = pre ++ rest /\
    Matches TRAFFIC_LINE_RE rest
      [("core"%string, ctxt); ("name"%string, n); ("cycle"%string, ytxt)] /\
    c = digits_value ctxt /\ y = digits_value ytxt.
Proof.
  unfold line_fields. intros H.
  destruct (search TRAFFIC_LINE_RE raw) as [m|] eqn:Es; [|discriminate].
  destruct (search_groups _ _ Es) as (ctxt & n' & ytxt & -> & _).
  simpl in H. injection H as <- <- <-.
  apply search_sound in Es as (pre & rest & -> & Hm).
  exists pre, rest, ctxt, ytxt. auto using match_here_sound.
Qed.

End ReadingFacts.

(** ** Claims about the parser *)

Module ParserClaims.

Import PatternFacts LayoutFacts ReadingFacts.

#[local] Arguments lit : simpl never.

(** C7: the parser reads the lines of the text in their order and returns
    one event for each line whose fields name the given core, in that
    order: no line is moved, equal lines give equal events, a line
    without the layout or with another core gives nothing.  The lines,
    the layout, the fields of a line and its trimmed label are those of
    the vocabulary, which does not use the functions of the script; a
    text has one list of lines and a line one outcome.  The parser has no
    result when a number it converts has more than 4300 digits
    ([digit_limit]): then it raises the error of the first such line. *)
Theorem parse_is_ordered_selection (text : str) (core : Z) :
  exists lines outs,
    IsLines text lines /\
    Forall2 (LineOutcome core) lines outs /\
    parse_traffic_lines text core = reading outs /\
    (forall lines', IsLines text lines' -> lines' = lines) /\
    (forall outs', Forall2 (LineOutcome core) lines outs' -> outs' = outs).
Proof.
  exists (splitlines text), (map (line_outcome core) (splitlines text)).
  split; [apply splitlines_is_lines|].
  split; [apply outcomes_exist|].
  split; [apply parse_reading|].
  split.
  - intros lines'. apply is_lines_splitlines.
  - intros outs'. apply outcomes_unique.
Qed.

(** The fields of a line are those of one reading, not of any part that
    has the layout: in the line with two markers the fields are read from
    the first marker, so the line belongs to core 1 and gives nothing for
    core 0. *)
Lemma two_marker_line_fields :
  Fields two_marker_line (lit "1")
    (lit "x finished at time 5 [TRAFFIC] core 0 y") (lit "7")
  /\ parse_traffic_lines two_marker_line 0 = Ok []
  /\ parse_traffic_lines two_marker_line 1
     = Ok [ {| pattern_name := lit "x finished at time 5 [TRAFFIC] core 0 y";
               cycle := 7 |} ].
Proof.
  split; [|split; vm_compute; reflexivity].
  assert (Hs : search TRAFFIC_LINE_RE two_marker_line
               = Some [("core"%string, lit "1");
                       ("name"%string,
                        lit "x finished at time 5 [TRAFFIC] core 0 y");
                       ("cycle"%string, lit "7")])
    by (vm_compute; reflexivity).
  apply search_fields in Hs as (c & n & y & [= <- <- <-] & Hf). exact Hf.
Qed.

(** C10, as amended: the parser raises only for a number of more than
    4300 digits ([digit_limit]).  When it raises, some line of the text
    has fields, and the error is that of its core number, longer than the
    limit, or, the core being the one asked for, that of its cycle
    number, longer than the limit; when no field of a line is longer than
    the limit the parser returns.  The numbers of a line are non-empty
    texts of digits, which [int] reads exactly when they are not longer
    than the limit. *)
Theorem parse_raises_only_on_long_field (text : str) (core : Z) :
  (forall e,
     parse_traffic_lines text core = Err e ->
     exists lines raw c n y,
       IsLines text lines /\ In raw lines /\ Fields raw c n y /\
       ((e = ValueError c /\ (digit_limit < length c)%nat) \/
        (e = ValueError y /\ digits_value c = core /\
         (length c <= digit_limit)%nat /\ (digit_limit < length y)%nat)))
  /\ ((forall lines raw c n y,
         IsLines text lines -> In raw lines -> Fields raw c n y ->
         (length c <= digit_limit)%nat /\ (length y <= digit_limit)%nat) ->
      exists rows, parse_traffic_lines text core = Ok rows)
  /\ (forall t,
        is_digits t ->
        int t = if (length t <=? digit_limit)%nat
                then Ok (digits_value t) else Err (ValueError t)).
Proof.
  assert (Herr : forall e,
     parse_traffic_lines text core = Err e ->
     exists lines raw c n y,
       IsLines text lines /\ In raw lines /\ Fields raw c n y /\
       ((e = ValueError c /\ (digit_limit < length c)%nat) \/
        (e = ValueError y /\ digits_value c = core /\
         (length c <= digit_limit)%nat /\ (digit_limit < length y)%nat))).
  { intros e He. rewrite parse_reading in He.
    apply reading_err in He as (txt & Hin & ->).
    apply in_map_iff in Hin as (raw & Ho & Hraw).
    pose proof (line_outcome_spec core raw) as Hspec. rewrite Ho in Hspec.
    apply malformed_inv in Hspec as (c & n & y & Hf & H).
    exists (splitlines text), raw, c, n, y.
    split; [apply splitlines_is_lines|]. split; [exact Hraw|].
    split; [exact Hf|].
    destruct H as [[-> H]|(-> & H)]; [left|right]; auto. }
  split; [exact Herr|]. split.
  - intros Hshort.
    destruct (parse_traffic_lines text core) as [rows|e] eqn:E; [eauto|].
    destruct (Herr e eq_refl) as (lines & raw & c & n & y & Hl & Hin & Hf & H).
    destruct (Hshort lines raw c n y Hl Hin Hf) as [Hc Hy].
    destruct H as [[_ H]|(_ & _ & _ & H)]; lia.
  - intros t [Hne Hall]. apply int_of_digits; [exact Hne|].
    now apply all_digit_iff.
Qed.

(** The witness of C10: the two lines of [boot_log] have no number that
    is too long, and the parser returns. *)
Lemma parse_raises_only_on_long_field_witness :
  exists rows, parse_traffic_lines boot_log 0 = Ok rows.
Proof.
  apply (proj1 (proj2 (parse_raises_only_on_long_field boot_log 0))).
  intros lines raw c n y Hl Hin Hf.
  apply is_lines_splitlines in Hl. subst lines. vm_compute in Hin.
  destruct Hin as [<-|[<-|[]]].
  - exfalso. apply (fields_not_unmatched _ _ _ _ Hf).
    apply search_unmatched. vm_compute. reflexivity.
  - assert (Hs : search TRAFFIC_LINE_RE
                   (lit "[TRAFFIC] core 0 read_burst(4) finished at time 1523")
                 = Some [("core"%string, lit "0");
                         ("name"%string, lit "read_burst(4)");
                         ("cycle"%string, lit "1523")])
      by (vm_compute; reflexivity).
    apply search_fields in Hs as (c' & n' & y' & [= <- <- <-] & Hf').
    destruct (fields_unique _ _ _ _ _ _ _ Hf Hf') as (-> & _ & ->).
    split; apply Nat.leb_le; vm_compute; reflexivity.
Defined.

(** C10, as stated, fails: a traffic line whose cycle has 4301 digits is
    a line of the layout, and the parser raises on it. *)
Lemma parse_raises_on_long_field :
  Fields long_cycle_log (lit "0") (lit "read_burst(4)") (repeat "1"%char 4301)
  /\ parse_traffic_lines long_cycle_log 0
     = Err (ValueError (repeat "1"%char 4301))
  /\ ~ (forall text core, exists rows, parse_traffic_lines text core = Ok rows).
Proof.
  assert (Hp : parse_traffic_lines long_cycle_log 0
               = Err (ValueError (repeat "1"%char 4301)))
    by (vm_compute; reflexivity).
  split; [|split; [exact Hp|]].
  - assert (Hs : search TRAFFIC_LINE_RE long_cycle_log
                 = Some [("core"%string, lit "0");
                         ("name"%string, lit "read_burst(4)");
                         ("cycle"%string, repeat "1"%char 4301)])
      by (vm_compute; reflexivity).
    apply search_fields in Hs as (c & n & y & [= <- <- <-] & Hf). exact Hf.
  - intros H. destruct (H long_cycle_log 0) as [rows Hrows]. congruence.
Qed.

End ParserClaims.

(** ** Claims about the comparison and the categories *)

Module CompareClaims.

Lemma nth_error_combine {A B} (l1 : list A) (l2 : list B) i a b :
  nth_error (combine l1 l2) i = Some (a, b) <->
  nth_error l1 i = Some a /\ nth_error l2 i = Some b.
Proof.
  revert l2 i. induction l1 as [|x l1 IH]; intros l2 i.
  - destruct i; simpl; split; try discriminate; intros [H _]; discriminate.
  - destruct l2 as [|y l2].
    + destruct i; simpl; split; try discriminate; intros [_ H]; discriminate.
    + destruct i as [|i]; simpl.
      * split; [intros [= -> ->]; auto|intros [[= ->] [= ->]]; auto].
      * apply IH.
Qed.




(** C9: on the scenario of the specification the comparison prints row 0
    with error 5 and sums 5 and 5 for [read_burst], row 1 with error -10
    and sums 15 and 10 for [write_burst], and ends with these sums. *)
Theorem compare_scenario :
  fst (compare scenario_reference scenario_candidate)
  = [ {| row_idx := 0; row_traffic_type := lit "read_burst";
         row_pattern := lit "read_burst(4)";
         row_rtl := 100; row_cyclotron := 105; row_error := 5;
         row_accum_abs_err := 5; row_accum_type_abs_err := 5 |};
      {| row_idx := 1; row_traffic_type := lit "write_burst";
         row_pattern := lit "write_burst(2)";
         row_rtl := 250; row_cyclotron := 240; row_error := -10;
         row_accum_abs_err := 15; row_accum_type_abs_err := 10 |} ]
  /\ match snd (compare scenario_reference scenario_candidate) with
     | Ok (total, by_ty) =>
         total = 15 /\ by_type by_ty (lit "read_burst") = 5
         /\ by_type by_ty (lit "write_burst") = 10
     | Err _ => False
     end.
Proof. vm_compute. repeat split; reflexivity. Qed.

Lemma by_type_insert (by_ty : gmap str Z) t v k :
  by_type (<[t := v]> by_ty) k = if str_eqb t k then v else by_type by_ty k.
Proof.
  unfold by_type, str_eqb. rewrite lookup_insert.
  destruct (decide (t = k)) as [->|Hne].
  - now rewrite bool_decide_eq_true_2.
  - now rewrite bool_decide_eq_false_2.
Qed.

(** When the loop runs to its end, the accumulator of a category has grown
    by the absolute errors of the pairs of that category. *)
Lemma compare_loop_by_type idx pairs total by_ty printed total' by_ty' k :
  snd (compare_loop idx pairs total by_ty printed) = Ok (total', by_ty') ->
  by_type by_ty' k = by_type by_ty k + category_sum k pairs.
Proof.
  revert idx total by_ty printed.
  induction pairs as [|[r c] rest IH]; intros idx total by_ty printed H.
  - simpl in H. injection H as _ <-. simpl. lia.
  - cbn [compare_loop] in H.
    destruct (negb (str_eqb (pattern_name r) (pattern_name c)));
      [discriminate|].
    apply IH in H. rewrite H, by_type_insert. cbn [category_sum].
    destruct (str_eqb (traffic_type (pattern_name r)) k) eqn:E; [|lia].
    apply str_eqb_eq in E as ->. lia.
Qed.

Lemma split1_head_app sep pre post :
  ~ In sep pre -> split1_head sep (pre ++ sep :: post) = pre.
Proof.
  induction pre as [|c pre IH]; intros H; simpl.
  - now rewrite Ascii.eqb_refl.
  - destruct (Ascii.eqb_spec c sep) as [->|Hne].
    + exfalso. apply H. now left.
    + f_equal. apply IH. intros Hin. apply H. now right.
Qed.

Lemma existsb_eqb_In sep s : existsb (Ascii.eqb sep) s = true <-> In sep s.
Proof.
  rewrite existsb_exists. split.
  - intros (x & Hin & E). now apply Ascii.eqb_eq in E as ->.
  - intros H. exists sep. split; [assumption|apply Ascii.eqb_refl].
Qed.

Lemma rsplit1_head_app sep pre suf :
  ~ In sep suf -> rsplit1_head sep (pre ++ sep :: suf) = pre.
Proof.
  intros Hsuf.
  assert (Hf : existsb (Ascii.eqb sep) suf = false).
  { destruct (existsb (Ascii.eqb sep) suf) eqn:E; [|reflexivity].
    now apply existsb_eqb_In in E. }
  induction pre as [|c pre IH]; simpl.
  - now rewrite Ascii.eqb_refl, Hf.
  - assert (existsb (Ascii.eqb sep) (pre ++ sep :: suf) = true) as ->.
    { apply existsb_eqb_In, in_or_app. right. now left. }
    rewrite andb_false_r. now f_equal.
Qed.

Lemma rsplit1_head_none sep s : ~ In sep s -> rsplit1_head sep s = s.
Proof.
  induction s as [|c s IH]; intros H; [reflexivity|]. simpl.
  destruct (Ascii.eqb_spec c sep) as [->|Hne].
  - exfalso. apply H. now left.
  - simpl. f_equal. apply IH. intros Hin. apply H. now right.
Qed.

Lemma contains1_In c s : contains [c] s = true <-> In c s.
Proof.
  rewrite contains_iff. split.
  - intros (pre & post & ->). apply in_or_app. right. now left.
  - intros H. apply in_split in H as (pre & post & ->). now exists pre, post.
Qed.

(** C8: the category of a name that holds a parenthesis is the text before
    the first one; otherwise it is the text before the last underscore,
    whatever follows it (an index of decimal digits in particular), and
    the whole name when there is no underscore.  The comparison adds the
    errors of two events to the same accumulator exactly when the
    categories of their names are the same string: the accumulator of a
    string ends as the sum over the events of that category. *)
Theorem traffic_type_category (name : str) :
  (forall pre post,
     name = pre ++ "("%char :: post -> ~ In "("%char pre ->
     traffic_type name = pre)
  /\ (forall pre suf,
        ~ In "("%char name ->
        name = pre ++ "_"%char :: suf -> ~ In "_"%char suf ->
        traffic_type name = pre)
  /\ (forall pre suf,
        ~ In "("%char name ->
        name = pre ++ "_"%char :: suf ->
        Forall (fun c => isdecimal c = true) suf ->
        traffic_type name = pre)
  /\ (~ In "("%char name -> ~ In "_"%char name -> traffic_type name = name)
  /\ (forall ref cand total by_ty k,
        snd (compare ref cand) = Ok (total, by_ty) ->
        by_type by_ty k = category_sum k (combine ref cand)).
Proof.
  assert (Hparen : ~ In "("%char name ->
                   traffic_type name = rsplit1_head "_"%char name).
  { intros H. unfold traffic_type.
    destruct (contains (lit "(") name) eqn:E; [|reflexivity].
    apply (contains1_In "("%char) in E. contradiction. }
  split; [|split; [|split; [|split]]].
  - intros pre post -> Hpre. unfold traffic_type.
    assert (contains (lit "(") (pre ++ "("%char :: post) = true) as ->.
    { apply (contains1_In "("%char), in_or_app. right. now left. }
    now apply split1_head_app.
  - intros pre suf Hno E Hsuf. rewrite (Hparen Hno), E.
    now apply rsplit1_head_app.
  - intros pre suf Hno E Hsuf. rewrite (Hparen Hno), E.
    apply rsplit1_head_app. intros Hin.
    rewrite List.Forall_forall in Hsuf. apply Hsuf in Hin. discriminate.
  - intros Hno Hnu. rewrite (Hparen Hno). now apply rsplit1_head_none.
  - intros ref cand total by_ty k. unfold compare.
    destruct (negb (length ref =? length cand)%nat); [discriminate|].
    intros H. apply (compare_loop_by_type _ _ _ _ _ _ _ k) in H.
    rewrite H. unfold by_type. now rewrite lookup_empty.
Qed.

(** The category of [write_scatter_7], by the theorem. *)
Lemma traffic_type_category_witness :
  traffic_type (lit "write_scatter_7") = lit "write_scatter".
Proof.
  refine (proj1 (proj2 (proj2 (traffic_type_category (lit "write_scatter_7"))))
            (lit "write_scatter") (lit "7") _ _ _).
  - vm_compute. intuition discriminate.
  - reflexivity.
  - repeat constructor.
Defined.

End CompareClaims.

Import ConfigClaims.
Import ParserClaims.
Import CompareClaims.

(** ** The rows and the totals of the comparison *)

Module CompareReport.

Lemma compare_loop_printed idx pairs total by_ty printed :
  compare_loop idx pairs total by_ty printed
  = (printed ++ fst (compare_loop idx pairs total by_ty []),
     snd (compare_loop idx pairs total by_ty [])).
Proof.
  revert idx total by_ty printed.
  induction pairs as [|[r c] rest IH]; intros idx total by_ty printed.
  - simpl. now rewrite app_nil_r.
  - cbn [compare_loop].
    destruct (negb (str_eqb (pattern_name r) (pattern_name c))).
    + simpl. now rewrite app_nil_r.
    + rewrite IH. rewrite (IH _ _ _ ([] ++ _)). cbn [fst snd app].
      now rewrite <- app_assoc.
Qed.

Lemma abs_error_sum_nonneg pairs : 0 <= abs_error_sum pairs.
Proof. induction pairs as [|[r c] rest IH]; simpl; lia. Qed.

Lemma category_sum_nonneg k pairs : 0 <= category_sum k pairs.
Proof.
  induction pairs as [|[r c] rest IH]; simpl; [lia|].
  destruct (str_eqb (traffic_type (pattern_name r)) k); lia.
Qed.

Lemma category_sum_le k pairs : category_sum k pairs <= abs_error_sum pairs.
Proof.
  induction pairs as [|[r c] rest IH]; simpl; [lia|].
  destruct (str_eqb (traffic_type (pattern_name r)) k); lia.
Qed.

Lemma abs_error_sum_firstn_mono pairs i j :
  (i <= j)%nat ->
  abs_error_sum (firstn i pairs) <= abs_error_sum (firstn j pairs).
Proof.
  revert i j. induction pairs as [|[r c] rest IH]; intros i j Hij.
  - rewrite !firstn_nil. lia.
  - destruct i as [|i]; destruct j as [|j]; simpl; try lia.
    + pose proof (abs_error_sum_nonneg (firstn j rest)). lia.
    + specialize (IH i j ltac:(lia)). lia.
Qed.

(** The row the loop prints for pair [j], with the running sums. *)
Lemma compare_loop_row idx pairs total by_ty j row :
  nth_error (fst (compare_loop idx pairs total by_ty [])) j = Some row ->
  exists r c,
    nth_error pairs j = Some (r, c) /\
    pattern_name r = pattern_name c /\
    row = {| row_idx := idx + j;
             row_traffic_type := traffic_type (pattern_name r);
             row_pattern := pattern_name r;
             row_rtl := cycle r; row_cyclotron := cycle c;
             row_error := cycle c - cycle r;
             row_accum_abs_err := total + abs_error_sum (firstn (S j) pairs);
             row_accum_type_abs_err :=
               by_type by_ty (traffic_type (pattern_name r))
               + category_sum (traffic_type (pattern_name r))
                   (firstn (S j) pairs) |}.
Proof.
  revert idx total by_ty j.
  induction pairs as [|[r c] rest IH]; intros idx total by_ty j H.
  - now destruct j.
  - cbn [compare_loop] in H.
    destruct (str_eqb (pattern_name r) (pattern_name c)) eqn:E; cbn [negb] in H.
    2:{ now destruct j. }
    apply str_eqb_eq in E. rewrite compare_loop_printed in H. cbn [fst] in H.
    destruct j as [|j].
    + injection H as <-. exists r, c. split; [reflexivity|]. split; [exact E|].
      rewrite by_type_insert.
      assert (str_eqb (traffic_type (pattern_name r))
                (traffic_type (pattern_name r)) = true) as Ht
        by now apply str_eqb_eq.
      rewrite Ht. cbn [firstn abs_error_sum category_sum].
      rewrite firstn_O, Ht. cbn [abs_error_sum category_sum].
      f_equal; lia.
    + cbn [app nth_error] in H. apply IH in H as (r' & c' & Hn & Hp & ->).
      exists r', c'. split; [exact Hn|]. split; [exact Hp|].
      rewrite by_type_insert.
      cbn [firstn abs_error_sum category_sum].
      destruct (str_eqb (traffic_type (pattern_name r))
                  (traffic_type (pattern_name r'))) eqn:Et.
      * apply str_eqb_eq in Et. rewrite <- Et. f_equal; lia.
      * f_equal; lia.
Qed.

(** How many rows the loop prints, and how it ends. *)
Lemma compare_loop_outcome idx pairs total by_ty :
  let n := length (fst (compare_loop idx pairs total by_ty [])) in
  (forall j r c, (j < n)%nat -> nth_error pairs j = Some (r, c) ->
                 pattern_name r = pattern_name c) /\
  match snd (compare_loop idx pairs total by_ty []) with
  | Ok (total', _) =>
      n = length pairs /\ total' = total + abs_error_sum pairs
  | Err e =>
      exists r c,
        nth_error pairs n = Some (r, c) /\
        pattern_name r <> pattern_name c /\
        e = OrderMismatch (idx + n) (pattern_name r) (pattern_name c)
  end.
Proof.
  revert idx total by_ty.
  induction pairs as [|[r c] rest IH]; intros idx total by_ty.
  - simpl. split; [intros j r c Hj; lia|]. split; [reflexivity|lia].
  - cbn [compare_loop].
    destruct (str_eqb (pattern_name r) (pattern_name c)) eqn:E; cbn [negb].
    + apply str_eqb_eq in E. rewrite compare_loop_printed. cbn [fst snd app length].
      specialize (IH (S idx) (total + Z.abs (cycle c - cycle r))
        (<[traffic_type (pattern_name r) :=
             by_type by_ty (traffic_type (pattern_name r))
             + Z.abs (cycle c - cycle r)]> by_ty)).
      cbv zeta in IH. destruct IH as [Hpre Hend]. split.
      * intros j r' c' Hj Hn. destruct j as [|j].
        -- simpl in Hn. now injection Hn as <- <-.
        -- apply (Hpre j); [lia|exact Hn].
      * destruct (snd (compare_loop _ rest _ _ [])) as [[total' m]|e].
        -- destruct Hend as [-> ->]. split; [reflexivity|]. simpl. lia.
        -- destruct Hend as (r' & c' & Hn & Hne & ->).
           exists r', c'. split; [exact Hn|]. split; [exact Hne|].
           f_equal. lia.
    + apply str_eqb_neq in E. simpl. split; [intros j r' c' Hj; lia|].
      exists r, c. repeat split; auto. f_equal. lia.
Qed.


Lemma category_sum_firstn_mono k pairs i j :
  (i <= j)%nat ->
  category_sum k (firstn i pairs) <= category_sum k (firstn j pairs).
Proof.
  revert i j. induction pairs as [|[r c] rest IH]; intros i j Hij.
  - rewrite !firstn_nil. lia.
  - destruct i as [|i]; destruct j as [|j]; simpl; try lia.
    + pose proof (category_sum_nonneg k (firstn j rest)).
      destruct (str_eqb (traffic_type (pattern_name r)) k); lia.
    + specialize (IH i j ltac:(lia)).
      destruct (str_eqb (traffic_type (pattern_name r)) k); lia.
Qed.

Lemma compare_equal_lengths ref cand :
  length ref = length cand ->
  compare ref cand = compare_loop 0 (combine ref cand) 0 ∅ [].
Proof.
  intros H. unfold compare. apply Nat.eqb_eq in H. now rewrite H.
Qed.

Lemma compare_rows_only_equal_lengths ref cand i row :
  nth_error (fst (compare ref cand)) i = Some row ->
  length ref = length cand.
Proof.
  unfold compare. destruct (length ref =? length cand)%nat eqn:E.
  - intros _. now apply Nat.eqb_eq.
  - simpl. now destruct i.
Qed.

(** X1: every row the comparison prints is the row of its index: it
    carries the name and the cycles of the two events at that index, the
    signed error candidate minus reference, the sum of the absolute errors
    of all pairs up to and including this one, and the sum of those among
    them that have the category of the row. *)
Theorem compare_rows_running_sums (ref cand : list TrafficLine) (i : nat)
    (row : Row) :
  nth_error (fst (compare ref cand)) i = Some row ->
  exists r c,
    nth_error ref i = Some r /\ nth_error cand i = Some c /\
    pattern_name r = pattern_name c /\
    row_idx row = i /\
    row_traffic_type row = traffic_type (pattern_name r) /\
    row_pattern row = pattern_name r /\
    row_rtl row = cycle r /\ row_cyclotron row = cycle c /\
    row_error row = cycle c - cycle r /\
    row_accum_abs_err row = abs_error_sum (firstn (S i) (combine ref cand)) /\
    row_accum_type_abs_err row
    = category_sum (row_traffic_type row) (firstn (S i) (combine ref cand)).
Proof.
  intros H. pose proof (compare_rows_only_equal_lengths _ _ _ _ H) as Hlen.
  rewrite (compare_equal_lengths _ _ Hlen) in H.
  apply compare_loop_row in H as (r & c & Hn & Hp & ->).
  apply nth_error_combine in Hn as [Hr Hc].
  exists r, c. cbn [row_idx row_traffic_type row_pattern row_rtl row_cyclotron
                    row_error row_accum_abs_err row_accum_type_abs_err].
  unfold by_type. rewrite lookup_empty. cbn [default].
  repeat split; auto; lia.
Qed.

Lemma compare_rows_running_sums_witness :
  exists r c,
    nth_error scenario_reference 1 = Some r /\
    nth_error scenario_candidate 1 = Some c /\
    pattern_name r = pattern_name c /\
    row_idx (mkRow 1 (lit "write_burst") (lit "write_burst(2)") 250 240 (-10) 15 10)
    = 1%nat /\
    lit "write_burst" = traffic_type (pattern_name r) /\
    lit "write_burst(2)" = pattern_name r /\
    250 = cycle r /\ 240 = cycle c /\
    -10 = cycle c - cycle r /\
    15 = abs_error_sum (firstn 2 (combine scenario_reference scenario_candidate)) /\
    10 = category_sum (lit "write_burst")
           (firstn 2 (combine scenario_reference scenario_candidate)).
Proof.
  apply (compare_rows_running_sums scenario_reference scenario_candidate 1
           (mkRow 1 (lit "write_burst") (lit "write_burst(2)") 250 240 (-10) 15 10)).
  vm_compute. reflexivity.
Defined.

(** X2: when the comparison ends with the order error, the index it cites
    is the first index at which the two names differ, the names it cites
    are the names there, and the rows printed before are exactly the rows
    of the indices below. *)
Theorem compare_order_error_first_index (ref cand : list TrafficLine)
    (i : nat) (a b : str) :
  snd (compare ref cand) = Err (OrderMismatch i a b) ->
  length (fst (compare ref cand)) = i /\
  (exists r c,
     nth_error ref i = Some r /\ nth_error cand i = Some c /\
     a = pattern_name r /\ b = pattern_name c /\ a <> b) /\
  (forall j r c, (j < i)%nat ->
     nth_error ref j = Some r -> nth_error cand j = Some c ->
     pattern_name r = pattern_name c).
Proof.
  intros H.
  assert (Hlen : length ref = length cand).
  { revert H. unfold compare.
    destruct (length ref =? length cand)%nat eqn:E; [|discriminate].
    intros _. now apply Nat.eqb_eq. }
  rewrite (compare_equal_lengths _ _ Hlen) in *.
  pose proof (compare_loop_outcome 0 (combine ref cand) 0 ∅) as [Hpre Hend].
  cbv zeta in Hpre, Hend. rewrite H in Hend.
  destruct Hend as (r & c & Hn & Hne & [= -> -> ->]).
  apply nth_error_combine in Hn as [Hr Hc].
  split; [reflexivity|]. split; [exists r, c; auto|].
  intros j r' c' Hj Hr' Hc'. apply (Hpre j); [exact Hj|].
  now apply nth_error_combine.
Qed.

Lemma compare_order_error_first_index_witness :
  length (fst (compare mismatch_reference mismatch_candidate)) = 1%nat /\
  (exists r c,
     nth_error mismatch_reference 1 = Some r /\
     nth_error mismatch_candidate 1 = Some c /\
     lit "foo_1" = pattern_name r /\ lit "bar_1" = pattern_name c /\
     lit "foo_1" <> lit "bar_1") /\
  (forall j r c, (j < 1)%nat ->
     nth_error mismatch_reference j = Some r ->
     nth_error mismatch_candidate j = Some c ->
     pattern_name r = pattern_name c).
Proof.
  apply (compare_order_error_first_index mismatch_reference mismatch_candidate
           1 (lit "foo_1") (lit "bar_1")).
  vm_compute. reflexivity.
Defined.

Lemma by_type_total_insert (m : gmap str Z) k e :
  by_type_total (<[k := by_type m k + e]> m) = by_type_total m + e.
Proof.
  unfold by_type_total, by_type.
  assert (Hcomm : forall z1 z2 y : Z, z1 + (z2 + y) = z2 + (z1 + y))
    by (intros; lia).
  destruct (m !! k) as [v|] eqn:E; cbn [default].
  - rewrite <- (insert_delete_eq m k (v + e)).
    rewrite map_fold_insert_L; [|intros; apply Hcomm|apply lookup_delete_eq].
    rewrite (map_fold_delete_L _ _ k v m); [lia|intros; apply Hcomm|exact E].
  - rewrite map_fold_insert_L; [lia|intros; apply Hcomm|exact E].
Qed.

Lemma compare_loop_by_type_total idx pairs total by_ty printed total' by_ty' :
  snd (compare_loop idx pairs total by_ty printed) = Ok (total', by_ty') ->
  by_type_total by_ty' = by_type_total by_ty + abs_error_sum pairs.
Proof.
  revert idx total by_ty printed.
  induction pairs as [|[r c] rest IH]; intros idx total by_ty printed H.
  - simpl in H. injection H as _ <-. simpl. lia.
  - cbn [compare_loop] in H.
    destruct (negb (str_eqb (pattern_name r) (pattern_name c)));
      [discriminate|].
    apply IH in H. rewrite H, by_type_total_insert. simpl. lia.
Qed.

(** X3: when the comparison runs to its end it has printed one row for
    each event, the two logs have the same length, and the global
    accumulator is the sum of the absolute errors of all pairs, which is
    also what the accumulators of the categories add up to; it is never
    negative. *)
Theorem compare_success_totals (ref cand : list TrafficLine) (total : Z)
    (by_ty : gmap str Z) :
  snd (compare ref cand) = Ok (total, by_ty) ->
  length ref = length cand /\
  length (fst (compare ref cand)) = length ref /\
  total = abs_error_sum (combine ref cand) /\
  by_type_total by_ty = total /\
  0 <= total.
Proof.
  intros H.
  assert (Hlen : length ref = length cand).
  { revert H. unfold compare.
    destruct (length ref =? length cand)%nat eqn:E; [|discriminate].
    intros _. now apply Nat.eqb_eq. }
  rewrite (compare_equal_lengths _ _ Hlen) in *.
  pose proof (compare_loop_outcome 0 (combine ref cand) 0 ∅) as [_ Hend].
  cbv zeta in Hend. rewrite H in Hend. destruct Hend as [Hn ->].
  pose proof (compare_loop_by_type_total _ _ _ _ _ _ _ H) as Ht.
  split; [exact Hlen|]. split.
  - rewrite Hn, length_combine. lia.
  - split; [lia|]. split.
    + rewrite Ht. unfold by_type_total. rewrite map_fold_empty. lia.
    + pose proof (abs_error_sum_nonneg (combine ref cand)). lia.
Qed.

Lemma compare_success_totals_witness :
  length scenario_reference = length scenario_candidate /\
  length (fst (compare scenario_reference scenario_candidate))
  = length scenario_reference /\
  15 = abs_error_sum (combine scenario_reference scenario_candidate) /\
  by_type_total
    (<[lit "write_burst" := 10]> (<[lit "read_burst" := 5]> ∅)) = 15 /\
  0 <= 15.
Proof.
  apply (compare_success_totals scenario_reference scenario_candidate 15
           (<[lit "write_burst" := 10]> (<[lit "read_burst" := 5]> ∅))).
  vm_compute. reflexivity.
Defined.


Lemma abs_error_sum_same l : abs_error_sum (combine l l) = 0.
Proof. induction l as [|t l IH]; simpl; lia. Qed.

Lemma identical_of_zero_error ref cand :
  length ref = length cand ->
  (forall j r c, nth_error (combine ref cand) j = Some (r, c) ->
                 pattern_name r = pattern_name c) ->
  abs_error_sum (combine ref cand) = 0 ->
  ref = cand.
Proof.
  revert cand. induction ref as [|r ref IH]; intros [|c cand] Hlen Hnames Hsum;
    try discriminate; [reflexivity|].
  simpl in Hsum. pose proof (abs_error_sum_nonneg (combine ref cand)).
  assert (Hn : pattern_name r = pattern_name c) by (apply (Hnames 0%nat); reflexivity).
  f_equal.
  - destruct r as [rn rc], c as [cn cc]. simpl in *. f_equal; [exact Hn|lia].
  - apply IH; [simpl in Hlen; lia| |lia].
    intros j r' c' Hj. apply (Hnames (S j)). exact Hj.
Qed.

(** X4: the comparison ends with a global accumulator of zero exactly when
    the candidate log is the reference log, event by event. *)
Theorem compare_zero_iff_identical (ref cand : list TrafficLine) :
  (exists by_ty, snd (compare ref cand) = Ok (0, by_ty)) <-> ref = cand.
Proof.
  split.
  - intros [by_ty H].
    assert (Hlen : length ref = length cand).
    { revert H. unfold compare.
      destruct (length ref =? length cand)%nat eqn:E; [|discriminate].
      intros _. now apply Nat.eqb_eq. }
    rewrite (compare_equal_lengths _ _ Hlen) in H.
    pose proof (compare_loop_outcome 0 (combine ref cand) 0 ∅) as [Hpre Hend].
    cbv zeta in Hpre, Hend. rewrite H in Hend. destruct Hend as [Hn Hsum].
    apply identical_of_zero_error; [exact Hlen| |lia].
    intros j r c Hj. apply (Hpre j); [|exact Hj].
    rewrite Hn. apply nth_error_Some. congruence.
  - intros <-. rewrite (compare_equal_lengths ref ref eq_refl).
    pose proof (compare_loop_outcome 0 (combine ref ref) 0 ∅) as [_ Hend].
    cbv zeta in Hend.
    destruct (snd (compare_loop 0 (combine ref ref) 0 ∅ [])) as [[total m]|e].
    + destruct Hend as [_ ->]. rewrite abs_error_sum_same. now exists m.
    + destruct Hend as (r & c & Hn & Hne & _).
      apply nth_error_combine in Hn as [Hr Hc]. congruence.
Qed.

(** X5: the running sums never decrease from one row to a later one: the
    global one always, the one of a category between two rows of that
    category; in every row the sum of the category is at least the
    absolute error of the row and at most the global sum. *)
Theorem compare_rows_monotone (ref cand : list TrafficLine) (i j : nat)
    (ri rj : Row) :
  (i <= j)%nat ->
  nth_error (fst (compare ref cand)) i = Some ri ->
  nth_error (fst (compare ref cand)) j = Some rj ->
  row_accum_abs_err ri <= row_accum_abs_err rj /\
  (row_traffic_type ri = row_traffic_type rj ->
   row_accum_type_abs_err ri <= row_accum_type_abs_err rj) /\
  Z.abs (row_error rj) <= row_accum_type_abs_err rj /\
  row_accum_type_abs_err rj <= row_accum_abs_err rj.
Proof.
  intros Hij Hi Hj.
  pose proof (compare_rows_only_equal_lengths _ _ _ _ Hi) as Hlen.
  rewrite (compare_equal_lengths _ _ Hlen) in Hi, Hj.
  apply compare_loop_row in Hi as (r & c & Hn & _ & ->).
  apply compare_loop_row in Hj as (r' & c' & Hn' & _ & ->).
  cbn [row_traffic_type row_accum_abs_err row_accum_type_abs_err row_error].
  unfold by_type. rewrite !lookup_empty. cbn [default].
  set (pairs := combine ref cand) in *.
  pose proof (abs_error_sum_firstn_mono pairs (S i) (S j) ltac:(lia)).
  pose proof (category_sum_le (traffic_type (pattern_name r'))
                (firstn (S j) pairs)).
  split; [lia|]. split; [|split; [|lia]].
  - intros ->.
    pose proof (category_sum_firstn_mono (traffic_type (pattern_name r'))
                  pairs (S i) (S j) ltac:(lia)). lia.
  - assert (Hsplit : firstn (S j) pairs = firstn j pairs ++ [(r', c')]).
    { clear -Hn'. revert j Hn'.
      induction pairs as [|p pairs IH]; intros j Hj; [now destruct j|].
      destruct j as [|j]; simpl in *.
      - now injection Hj as ->.
      - f_equal. now apply IH. }
    rewrite Hsplit.
    assert (Happ : forall k l1 l2,
              category_sum k (l1 ++ l2) = category_sum k l1 + category_sum k l2).
    { intros k l1 l2. induction l1 as [|[a b] l1 IH]; simpl; lia. }
    rewrite Happ. simpl.
    assert (str_eqb (traffic_type (pattern_name r'))
              (traffic_type (pattern_name r')) = true) as ->
      by now apply str_eqb_eq.
    pose proof (category_sum_nonneg (traffic_type (pattern_name r'))
                  (firstn j pairs)). lia.
Qed.

Lemma compare_rows_monotone_witness :
  5 <= 15 /\
  (lit "read_burst" = lit "write_burst" -> 5 <= 10) /\
  Z.abs (-10) <= 10 /\ 10 <= 15.
Proof.
  apply (compare_rows_monotone scenario_reference scenario_candidate 0 1
           (mkRow 0 (lit "read_burst") (lit "read_burst(4)") 100 105 5 5 5)
           (mkRow 1 (lit "write_burst") (lit "write_burst(2)") 250 240 (-10) 15 10));
    [lia|vm_compute; reflexivity|vm_compute; reflexivity].
Defined.

End CompareReport.

(** ** The events of the parser *)

Module ParserCoverage.

Import PatternFacts LayoutFacts ReadingFacts.

Lemma digits_fold_nonneg t acc :
  Forall (fun c => isdecimal c = true) t -> 0 <= acc ->
  0 <= fold_left (fun acc c => 10 * acc + (Z.of_N (N_of_ascii c) - 48)) t acc.
Proof.
  intros Hall. revert acc. induction Hall as [|c t Hc _ IH]; intros acc Hacc.
  - exact Hacc.
  - simpl. apply IH.
    assert (48 <= Z.of_N (N_of_ascii c)).
    { unfold isdecimal in Hc. apply andb_true_iff in Hc as [Hc _].
      apply N.leb_le in Hc. lia. }
    lia.
Qed.

Lemma digits_value_nonneg t :
  Forall (fun c => isdecimal c = true) t -> 0 <= digits_value t.
Proof. intros H. apply digits_fold_nonneg; [exact H|lia]. Qed.

(** Trimming leaves nothing to trim. *)
Lemma strip_by_idem sp s : strip_by sp (strip_by sp s) = strip_by sp s.
Proof.
  set (u := lstrip_by sp s).
  assert (Hr : strip_by sp s = rev (lstrip_by sp (rev u))) by reflexivity.
  rewrite Hr. clear Hr.
  destruct (lstrip_by sp (rev u)) as [|d v] eqn:Ev; [reflexivity|].
  pose proof (lstrip_by_head _ _ _ _ Ev) as Hd.
  destruct (lstrip_by_suffix sp (rev u)) as [a Ha]. rewrite Ev in Ha.
  assert (Hu : u = rev v ++ d :: rev a).
  { rewrite <- (rev_involutive u), Ha, rev_app_distr. simpl.
    now rewrite <- app_assoc. }
  simpl rev. destruct (rev v) as [|c w] eqn:Ew.
  - simpl. now apply strip_by_id1.
  - simpl. apply strip_by_id; [|exact Hd].
    subst u. simpl in Hu. eapply lstrip_by_head. exact Hu.
Qed.

(** The text of a group is made of characters of the matched text. *)
Lemma matches_group_chars re s caps :
  Matches re s caps ->
  forall g txt a, In (g, txt) caps -> In a txt -> In a s.
Proof.
  induction 1 as [s|l k s caps _ IH|g cls k t s caps Ht Hall _ IH
                 |g cls k t s caps Ht Hall _ IH
                 |cls k t s caps Hall _ IH|k s caps Hs _ IH];
    intros g' txt a Hin Ha.
  - destruct Hin.
  - apply in_or_app. right. eauto.
  - destruct g as [n|]; simpl in Hin.
    + destruct Hin as [[= <- <-]|Hin]; apply in_or_app; [now left|right; eauto].
    + apply in_or_app. right. eauto.
  - destruct g as [n|]; simpl in Hin.
    + destruct Hin as [[= <- <-]|Hin]; apply in_or_app; [now left|right; eauto].
    + apply in_or_app. right. eauto.
  - apply in_or_app. right. eauto.
  - eauto.
Qed.

Lemma strip_chars s a : In a (strip s) -> In a s.
Proof.
  intros H. destruct (strip_within s) as (x & y & E). rewrite E.
  apply in_or_app. right. apply in_or_app. now left.
Qed.

(** What the event of a line keeps of the line. *)
Lemma line_event_invariants core raw ev :
  line_event core raw = Some ev ->
  0 <= core /\ 0 <= cycle ev /\
  strip (pattern_name ev) = pattern_name ev /\
  (forall a, In a (pattern_name ev) -> In a raw).
Proof.
  unfold line_event. destruct (line_fields raw) as [[[c n] y]|] eqn:E;
    [|discriminate].
  destruct (c =? core) eqn:Ec; [|discriminate]. intros [= <-].
  apply Z.eqb_eq in Ec as <-.
  apply line_fields_match in E as (pre & rest & ctxt & ytxt & -> & Hm & -> & ->).
  pose proof (traffic_line_groups _ _ Hm)
    as (c' & n' & y' & [= <- <- <-] & _ & Hc & _ & _ & _ & Hy).
  cbn [pattern_name cycle].
  split; [now apply digits_value_nonneg|].
  split; [now apply digits_value_nonneg|].
  split; [apply strip_by_idem|].
  intros a Ha. apply strip_chars in Ha. apply in_or_app. right.
  eapply (matches_group_chars _ _ _ Hm "name"%string n); [|exact Ha].
  simpl. auto.
Qed.

(** X6: every event the parser returns has a cycle that is not negative
    and a name that is trimmed (trimming it again changes nothing) and
    holds no line boundary; events are only returned for a core number
    that is not negative. *)
Theorem parse_event_invariants (text : str) (core : Z)
    (rows : list TrafficLine) (ev : TrafficLine) :
  parse_traffic_lines text core = Ok rows -> In ev rows ->
  0 <= core /\ 0 <= cycle ev /\
  strip (pattern_name ev) = pattern_name ev /\
  no_break (pattern_name ev).
Proof.
  intros Hp Hin. apply parse_rows in Hp as ->.
  apply list_elem_of_In, list_elem_of_omap in Hin as (raw & Hraw & Hev).
  apply list_elem_of_In in Hraw.
  destruct (line_event_invariants _ _ _ Hev) as (Hc & Hy & Hs & Hchars).
  repeat split; try assumption.
  apply List.Forall_forall. intros a Ha. apply Hchars in Ha.
  pose proof (splitlines_lines_no_break text) as Hnb.
  rewrite List.Forall_forall in Hnb. specialize (Hnb raw Hraw).
  unfold no_break in Hnb. rewrite List.Forall_forall in Hnb. now apply Hnb.
Qed.

Lemma parse_event_invariants_witness :
  0 <= 0 /\ 0 <= cycle {| pattern_name := lit "foo_0"; cycle := 12 |} /\
  strip (pattern_name {| pattern_name := lit "foo_0"; cycle := 12 |})
  = pattern_name {| pattern_name := lit "foo_0"; cycle := 12 |} /\
  no_break (pattern_name {| pattern_name := lit "foo_0"; cycle := 12 |}).
Proof.
  apply (parse_event_invariants
           (lit "[TRAFFIC] core 0 foo_0 finished at time 12") 0
           [ {| pattern_name := lit "foo_0"; cycle := 12 |} ]
           {| pattern_name := lit "foo_0"; cycle := 12 |}).
  - vm_compute. reflexivity.
  - left. reflexivity.
Defined.


Lemma contains_within needle a hay b :
  contains needle hay = true -> contains needle (a ++ hay ++ b) = true.
Proof.
  rewrite !contains_iff. intros (pre & post & ->).
  exists (a ++ pre), (post ++ b). now rewrite <- !app_assoc.
Qed.

Lemma line_within_text text line :
  In line (splitlines text) -> exists a b, text = a ++ line ++ b.
Proof.
  intros H. apply splitlines_from_within in H as (a & b & E). now exists a, b.
Qed.





(** The lines of two texts joined by a newline: the lines of the first,
    then at most one empty line, then the lines of the second. *)
Lemma splitlines_from_app_LF cur a b :
  exists blank,
    (blank = [] \/ blank = [[]]) /\
    splitlines_from cur (a ++ LF :: b)
    = splitlines_from cur a ++ blank ++ splitlines b.
Proof.
  remember (length a) as n eqn:Hn. revert cur a Hn.
  induction n as [n IH] using lt_wf_ind. intros cur a ->.
  destruct a as [|c a].
  - cbn [app]. rewrite splitlines_from_LF. destruct cur as [|x cur].
    + exists [[]]. split; [now right|]. reflexivity.
    + exists []. split; [now left|]. reflexivity.
  - cbn [app splitlines_from]. destruct (islinebreak c) eqn:Hc.
    + destruct a as [|d a].
      * cbn [app]. destruct (Ascii.eqb c CR && Ascii.eqb LF LF) eqn:E.
        -- exists []. split; [now left|]. reflexivity.
        -- exists [[]]. split; [now right|].
           rewrite splitlines_from_LF. reflexivity.
      * cbn [app]. destruct (Ascii.eqb c CR && Ascii.eqb d LF).
        -- destruct (IH (length a) ltac:(simpl; lia) [] a eq_refl)
             as (blank & He & ->).
           exists blank. split; [exact He|]. reflexivity.
        -- destruct (IH (length (d :: a)) ltac:(simpl; lia) [] (d :: a) eq_refl)
             as (blank & He & E).
           exists blank. split; [exact He|].
           cbn [app] in E. rewrite E. reflexivity.
    + destruct (IH (length a) ltac:(simpl; lia) (c :: cur) a eq_refl)
        as (blank & He & ->).
      exists blank. split; [exact He|]. reflexivity.
Qed.

(** The outcomes of more lines: those of the first ones count first. *)
Lemma reading_app outs1 outs2 :
  reading (outs1 ++ outs2)
  = (rows1 <- reading outs1 ;; rows2 <- reading outs2 ;; Ok (rows1 ++ rows2)).
Proof.
  induction outs1 as [|o outs1 IH].
  - cbn [app reading rbind]. now destruct (reading outs2).
  - destruct o as [|ev|txt]; cbn [app reading]; [exact IH| |reflexivity].
    rewrite IH. destruct (reading outs1) as [rows1|]; cbn [rbind];
      [|reflexivity].
    destruct (reading outs2); reflexivity.
Qed.

Lemma line_outcome_empty core : line_outcome core [] = Skipped.
Proof. reflexivity. Qed.

(** X8: parsing two logs joined by a newline gives the events of the first
    followed by the events of the second. *)
Theorem parse_concatenation (log1 log2 : str) (core : Z) :
  parse_traffic_lines (log1 ++ [LF] ++ log2) core
  = (rows1 <- parse_traffic_lines log1 core ;;
     rows2 <- parse_traffic_lines log2 core ;;
     Ok (rows1 ++ rows2)).
Proof.
  rewrite !parse_reading. unfold splitlines at 1.
  destruct (splitlines_from_app_LF [] log1 log2) as (blank & He & E).
  cbn [app] in *. rewrite E. rewrite !map_app, reading_app.
  fold (splitlines log1).
  destruct (reading (map (line_outcome core) (splitlines log1))); cbn [rbind];
    [|reflexivity].
  rewrite reading_app.
  destruct He as [->| ->]; cbn [map]; rewrite ?line_outcome_empty;
    cbn [reading rbind app]; unfold str in *;
    match goal with |- context [reading ?x] => destruct (reading x) end;
    reflexivity.
Qed.

End ParserCoverage.

Import ParserCoverage.

(** ** From a written log line back to its event *)

Module LineRoundTrip.

Import PatternFacts LayoutFacts ReadingFacts ParserCoverage.

#[local] Arguments lit : simpl never.

(** The layout of a text the pattern accepts. *)
Lemma traffic_line_layout rest m :
  Matches TRAFFIC_LINE_RE rest m ->
  exists ws1 ws2 c ws3 n ws4 ws5 y ws6 tail,
    rest = lit "[TRAFFIC]" ++ ws1 ++ lit "core" ++ ws2 ++ c ++ ws3 ++ n ++ ws4
           ++ lit "finished at time" ++ ws5 ++ y ++ ws6 ++ tail /\
    m = [("core"%string, c); ("name"%string, n); ("cycle"%string, y)] /\
    (ws1 <> [] /\ Forall (fun a => isspace a = true) ws1) /\
    (ws2 <> [] /\ Forall (fun a => isspace a = true) ws2) /\
    (c <> [] /\ Forall (fun a => isdecimal a = true) c) /\
    (ws3 <> [] /\ Forall (fun a => isspace a = true) ws3) /\
    n <> [] /\
    (ws4 <> [] /\ Forall (fun a => isspace a = true) ws4) /\
    (ws5 <> [] /\ Forall (fun a => isspace a = true) ws5) /\
    (y <> [] /\ Forall (fun a => isdecimal a = true) y) /\
    Forall (fun a => isspace a = true) ws6 /\
    (tail = [] \/ tail = [LF]).
Proof.
  unfold TRAFFIC_LINE_RE. intros H.
  repeat match goal with
         | H : Matches (_ :: _) _ _ |- _ => inversion H; subst; clear H
         end.
  match goal with H : Matches [] _ _ |- _ => inversion H; subst; clear H end.
  do 10 eexists. split; [reflexivity|]. split; [reflexivity|].
  unfold cls_space, cls_digit in *. repeat split; assumption.
Qed.


(** A white-space prefix before a text that starts with another character
    is one space when the other side has one space. *)
Lemma one_space ws r first rest r' :
  ws <> [] -> Forall (fun a => isspace a = true) ws ->
  isspace first = false ->
  [SP] ++ (first :: rest) ++ r' = ws ++ r ->
  ws = [SP] /\ (first :: rest) ++ r' = r.
Proof.
  intros Hne Hws Hf E. destruct Hws as [|w ws Hw Hws]; [contradiction|].
  simpl in E. injection E as <- E.
  destruct Hws as [|w' ws Hw' _]; [auto|].
  simpl in E. injection E as -> _. congruence.
Qed.

(** The pattern reads a line of the layout in one way only. *)
Lemma traffic_log_line_unique c name y m :
  c <> [] -> Forall (fun a => isdecimal a = true) c ->
  y <> [] -> Forall (fun a => isdecimal a = true) y ->
  (exists first rest, name = first :: rest /\ isspace first = false) ->
  (exists front last, name = front ++ [last] /\ isspace last = false) ->
  Matches TRAFFIC_LINE_RE (traffic_log_line c name y) m ->
  m = [("core"%string, c); ("name"%string, name); ("cycle"%string, y)].
Proof.
  intros Hc Hcd Hy Hyd (first & rest & Hname & Hfirst)
    (front & last & Hname' & Hlast) H.
  apply traffic_line_layout in H
    as (ws1 & ws2 & c' & ws3 & n & ws4 & ws5 & y' & ws6 & tail & E & -> &
        [Hws1 Fws1] & [Hws2 Fws2] & [Hc' Fc'] & [Hws3 Fws3] & Hn &
        [Hws4 Fws4] & [Hws5 Fws5] & [Hy' Fy'] & Fws6 & Htail).
  unfold traffic_log_line in E.
  apply app_inv_head in E.
  apply (span_unique isspace) in E as [<- E];
    [|repeat constructor|assumption|reflexivity|reflexivity].
  apply app_inv_head in E.
  apply (span_unique isspace) in E as [<- E];
    [|repeat constructor|assumption
     |apply stops_app; [assumption|now apply digits_not_space]
     |apply stops_app; [assumption|now apply digits_not_space]].
  apply (span_unique isdecimal) in E as [<- E];
    [|assumption|assumption|reflexivity
     |apply stops_app; [assumption|now apply spaces_not_digit]].
  rewrite Hname in E at 1.
  apply one_space in E as [-> E]; [|assumption|assumption|assumption].
  rewrite <- Hname in E.
  (* from the end of the line *)
  apply (f_equal (@rev ascii)) in E.
  rewrite !rev_app_distr, <- !app_assoc in E.
  rewrite (app_assoc (rev tail) (rev ws6)) in E.
  change (rev y ++ rev [SP] ++ rev (lit "finished at time") ++ rev [SP] ++ rev name)
    with ([] ++ rev y ++ [SP] ++ rev (lit "finished at time") ++ [SP] ++ rev name)
    in E.
  apply (span_unique isspace) in E as [E0 E];
    [|constructor
     |apply Forall_app; split;
        [destruct Htail as [->| ->]; repeat constructor|now apply List.Forall_rev]
     |apply stops_app; [now apply rev_nonempty|
                        now apply List.Forall_rev, digits_not_space]
     |apply stops_app; [now apply rev_nonempty|
                        now apply List.Forall_rev, digits_not_space]].
  apply (span_unique isdecimal) in E as [Ey E];
    [|now apply List.Forall_rev|now apply List.Forall_rev|reflexivity
     |apply stops_app; [now apply rev_nonempty|
                        now apply List.Forall_rev, spaces_not_digit]].
  apply rev_inj in Ey as <-.
  apply (span_unique isspace) in E as [_ E];
    [|repeat constructor|now apply List.Forall_rev|reflexivity|reflexivity].
  apply app_inv_head in E.
  rewrite Hname' in E at 1. rewrite rev_app_distr in E.
  change (rev [last] ++ rev front) with (last :: rev front) in E.
  rewrite <- (app_nil_r (last :: rev front)) in E.
  apply one_space in E as [_ E];
    [|now apply rev_nonempty|now apply List.Forall_rev|assumption].
  rewrite app_nil_r in E.
  change (last :: rev front) with (rev [last] ++ rev front) in E.
  rewrite <- rev_app_distr, <- Hname' in E.
  apply rev_inj in E as <-. reflexivity.
Qed.


(** The pattern accepts a line of the layout. *)
Lemma traffic_log_line_matches c name y :
  c <> [] -> Forall (fun a => isdecimal a = true) c ->
  y <> [] -> Forall (fun a => isdecimal a = true) y ->
  name <> [] -> Forall (fun a => a <> LF) name ->
  Matches TRAFFIC_LINE_RE (traffic_log_line c name y)
    [("core"%string, c); ("name"%string, name); ("cycle"%string, y)].
Proof.
  intros Hc Hcd Hy Hyd Hn Hnl.
  assert (Hsp : Forall (fun a => cls_space a = true) [SP])
    by (repeat constructor).
  assert (Hne : [SP] <> []) by discriminate.
  unfold traffic_log_line, TRAFFIC_LINE_RE.
  apply M_lit.
  apply (M_plus None cls_space _ [SP]); [exact Hne|exact Hsp|].
  apply M_lit.
  apply (M_plus None cls_space _ [SP]); [exact Hne|exact Hsp|].
  apply (M_plus (Some "core"%string) cls_digit _ c); [exact Hc|exact Hcd|].
  apply (M_plus None cls_space _ [SP]); [exact Hne|exact Hsp|].
  apply (M_lazy (Some "name"%string) cls_any _ name); [exact Hn| |].
  { eapply List.Forall_impl; [|exact Hnl]. intros a Ha. unfold cls_any.
    apply negb_true_iff, Ascii.eqb_neq. exact Ha. }
  apply (M_plus None cls_space _ [SP]); [exact Hne|exact Hsp|].
  apply M_lit.
  apply (M_plus None cls_space _ [SP]); [exact Hne|exact Hsp|].
  rewrite <- (app_nil_r y) at 1.
  apply (M_plus (Some "cycle"%string) cls_digit _ y); [exact Hy|exact Hyd|].
  apply (M_star cls_space _ [] []); [constructor|].
  apply M_dollar; [now left|]. constructor.
Qed.

Lemma search_here re s caps :
  match_here re s = Some caps -> search re s = Some caps.
Proof. intros H. destruct s; simpl; now rewrite H. Qed.

(** A trimmed text that is not empty starts and ends with a character
    that is no white space. *)
Lemma trimmed_ends name :
  name <> [] -> strip name = name ->
  (exists first rest, name = first :: rest /\ isspace first = false) /\
  (exists front last, name = front ++ [last] /\ isspace last = false).
Proof.
  intros Hne Hs. unfold strip in Hs.
  destruct (strip_by_shape isspace name) as [E|[(c & E & Hc)|(c & mid & d & E & Hc & Hd)]];
    rewrite Hs in E.
  - contradiction.
  - subst name. split; [now exists c, []|now exists [], c].
  - subst name. split; [now exists c, (mid ++ [d])|].
    exists (c :: mid), d. auto.
Qed.

Lemma fold_digits_pos d p :
  fold_left (fun acc c => 10 * acc + (Z.of_N (N_of_ascii c) - 48))
    (list_ascii_of_string (NilEmpty.string_of_uint d)) (Z.pos p)
  = Z.pos (Pos.of_uint_acc d p).
Proof.
  revert p. induction d; intros p; cbn [NilEmpty.string_of_uint
    list_ascii_of_string fold_left Pos.of_uint_acc];
    [reflexivity|rewrite <- IHd; f_equal; vm_compute N_of_ascii; lia..].
Qed.

Lemma fold_digits_zero d :
  fold_left (fun acc c => 10 * acc + (Z.of_N (N_of_ascii c) - 48))
    (list_ascii_of_string (NilEmpty.string_of_uint d)) 0
  = Z.of_N (Pos.of_uint d).
Proof.
  induction d; cbn [NilEmpty.string_of_uint list_ascii_of_string fold_left
                    Pos.of_uint]; [reflexivity|exact IHd|..];
    cbn [Z.of_N]; rewrite <- fold_digits_pos; reflexivity.
Qed.

(** The digits [format_int] writes for a number that is not negative, and
    the number they read as. *)
Lemma format_int_nonneg n :
  0 <= n ->
  format_int n <> [] /\
  Forall (fun a => isdecimal a = true) (format_int n) /\
  digits_value (format_int n) = n.
Proof.
  intros Hn. unfold format_int.
  assert (Hu : forall u,
    digits_value (list_ascii_of_string (NilZero.string_of_uint u))
    = Z.of_N (Pos.of_uint u)).
  { intros u. unfold digits_value, NilZero.string_of_uint.
    destruct u; try apply fold_digits_zero. reflexivity. }
  destruct n as [|p|p]; [| |lia].
  - repeat split; [discriminate|repeat constructor].
  - cbn [Z.to_int NilZero.string_of_int].
    destruct (uint_digits_nonempty (Pos.to_uint p)) as [H1 H2].
    repeat split; [exact H1|exact H2|].
    rewrite Hu, DecimalPos.Unsigned.of_to. reflexivity.
Qed.


(** The match the parser finds in a line of the layout. *)
Lemma search_formatted c name y :
  c <> [] -> Forall (fun a => isdecimal a = true) c ->
  y <> [] -> Forall (fun a => isdecimal a = true) y ->
  name <> [] -> strip name = name -> Forall (fun a => a <> LF) name ->
  search TRAFFIC_LINE_RE (traffic_log_line c name y)
  = Some [("core"%string, c); ("name"%string, name); ("cycle"%string, y)].
Proof.
  intros Hc Hcd Hy Hyd Hn Hs Hnl.
  destruct (trimmed_ends name Hn Hs) as [Hfirst Hlast].
  pose proof (traffic_log_line_matches c name y Hc Hcd Hy Hyd Hn Hnl) as Hm.
  destruct (match_here_complete _ _ _ Hm) as [m Hm'].
  pose proof (match_here_sound _ _ _ Hm') as Hs'.
  apply (traffic_log_line_unique c name y m Hc Hcd Hy Hyd Hfirst Hlast) in Hs'.
  subst m. exact (search_here _ _ _ Hm').
Qed.

Lemma no_break_digits t :
  Forall (fun a => isdecimal a = true) t -> no_break t.
Proof. apply List.Forall_impl, isdecimal_not_break. Qed.

(** A text checked character by character. *)
Lemma no_break_check s :
  forallb (fun a => negb (islinebreak a)) s = true -> no_break s.
Proof.
  intros H. apply List.Forall_forall. intros a Ha.
  rewrite forallb_forall in H. apply H in Ha. now apply negb_true_iff.
Qed.

Lemma traffic_log_line_no_break c name y :
  Forall (fun a => isdecimal a = true) c ->
  Forall (fun a => isdecimal a = true) y ->
  no_break name -> no_break (traffic_log_line c name y).
Proof.
  intros Hc Hy Hn. apply no_break_digits in Hc, Hy.
  assert (Hsp : no_break [SP]) by (apply no_break_check; reflexivity).
  unfold traffic_log_line, no_break in *.
  apply Forall_app; split; [apply no_break_check; reflexivity|].
  apply Forall_app; split; [exact Hsp|].
  apply Forall_app; split; [apply no_break_check; reflexivity|].
  apply Forall_app; split; [exact Hsp|].
  apply Forall_app; split; [exact Hc|].
  apply Forall_app; split; [exact Hsp|].
  apply Forall_app; split; [exact Hn|].
  apply Forall_app; split; [exact Hsp|].
  apply Forall_app; split; [apply no_break_check; reflexivity|].
  apply Forall_app; split; [exact Hsp|exact Hy].
Qed.

(** X9: a log line written in the layout of the pattern, with single
    spaces, the core and the cycle in decimal with no more digits than
    the limit, and a name that is trimmed, not empty and without line
    boundary, is read back as exactly this name and this cycle by the
    parser of that core, and gives no event to the parser of any other
    core. *)
Theorem parse_formatted_line (core cyc core' : Z) (name : str) :
  0 <= core -> 0 <= cyc ->
  (length (format_int core) <= digit_limit)%nat ->
  (length (format_int cyc) <= digit_limit)%nat ->
  name <> [] -> strip name = name -> no_break name ->
  parse_traffic_lines
    (traffic_log_line (format_int core) name (format_int cyc)) core'
  = Ok (if core =? core'
        then [ {| pattern_name := name; cycle := cyc |} ]
        else []).
Proof.
  intros Hcore Hcyc Hlc Hly Hn Hs Hnb.
  destruct (format_int_nonneg core Hcore) as (Hc1 & Hc2 & Hc3).
  destruct (format_int_nonneg cyc Hcyc) as (Hy1 & Hy2 & Hy3).
  assert (Hnl : Forall (fun a => a <> LF) name).
  { eapply List.Forall_impl; [|exact Hnb]. intros a Ha ->. discriminate. }
  rewrite parse_reading, splitlines_single.
  - cbn [map reading]. unfold line_outcome.
    rewrite (search_formatted _ _ _ Hc1 Hc2 Hy1 Hy2 Hn Hs Hnl).
    simpl group. cbv beta iota.
    apply Nat.leb_le in Hlc, Hly.
    change digit_limit with int_max_str_digits in Hlc, Hly.
    unfold str in *. rewrite Hlc, Hly, Hc3, Hy3, Hs.
    now destruct (core =? core').
  - unfold traffic_log_line. discriminate.
  - now apply traffic_log_line_no_break.
Qed.

Lemma parse_formatted_line_witness :
  parse_traffic_lines
    (traffic_log_line (format_int 0) (lit "read_burst(4)") (format_int 1523)) 0
  = Ok (if 0 =? 0
        then [ {| pattern_name := lit "read_burst(4)"; cycle := 1523 |} ]
        else []).
Proof.
  apply (parse_formatted_line 0 1523 0 (lit "read_burst(4)")).
  - lia.
  - lia.
  - apply Nat.leb_le. vm_compute. reflexivity.
  - apply Nat.leb_le. vm_compute. reflexivity.
  - discriminate.
  - reflexivity.
  - apply no_break_check. reflexivity.
Defined.

End LineRoundTrip.

(** ** The run configuration *)

Module ConfigCoverage.

#[local] Arguments startswith : simpl never.
#[local] Arguments endswith : simpl never.
#[local] Arguments strip : simpl never.
#[local] Arguments lit : simpl never.
#[local] Arguments str_eqb : simpl never.
#[local] Arguments timeout_line : simpl never.
#[local] Arguments is_table_header : simpl never.
#[local] Arguments join : simpl never.
#[local] Arguments splitlines : simpl never.

(** X10: in the text [override_sim_timeout] returns the newline is the
    only line boundary: every other boundary of the document (CR, CR LF,
    VT, FF, FS, GS, RS, NEL) has been rewritten. *)
Theorem override_output_newlines_only (base_text : str) (timeout_cycles : Z) :
  Forall (fun c => islinebreak c = true -> c = LF)
         (override_sim_timeout base_text timeout_cycles).
Proof.
  apply List.Forall_forall. intros c.
  unfold override_sim_timeout. intros Hin Hb.
  assert (Hlines : forall l,
            In l (override_lines timeout_cycles (splitlines base_text)) ->
            no_break l).
  { apply List.Forall_forall, override_lines_no_break,
      splitlines_lines_no_break. }
  apply in_app_or in Hin as [Hin|Hin].
  - apply join_chars in Hin as [[<-|[]]|(l & Hl & Hc)]; [reflexivity|].
    apply Hlines in Hl. unfold no_break in Hl.
    rewrite List.Forall_forall in Hl. apply Hl in Hc. congruence.
  - destruct (endswith [LF] base_text); [|destruct Hin].
    destruct Hin as [<-|[]]. reflexivity.
Qed.

Lemma contains_nil_false needle : needle <> [] -> contains needle [] = false.
Proof. now destruct needle. Qed.

(** A text found in two texts joined by a character it does not hold is
    found in one of the two. *)
Lemma contains_split needle a x b :
  needle <> [] -> ~ In x needle ->
  contains needle (a ++ x :: b) = true ->
  contains needle a = true \/ contains needle b = true.
Proof.
  intros Hne Hx H. apply contains_iff in H as (pre & post & E).
  apply app_eq_app in E as [l [[Ea E]|[Epre E]]].
  - symmetry in E. apply app_eq_app in E as [l' [[El E]|[El E]]].
    + left. apply contains_iff. subst a. subst l. now exists pre, l'.
    + destruct l' as [|y l'].
      * left. apply contains_iff. subst a. rewrite app_nil_r in El. subst l.
        exists pre, []. now rewrite app_nil_r.
      * injection E as -> _. exfalso. apply Hx. subst needle.
        apply in_or_app. right. now left.
  - destruct l as [|y l].
    + simpl in E. destruct needle as [|n needle]; [contradiction|].
      injection E as -> _. exfalso. apply Hx. now left.
    + injection E as _ ->. right. apply contains_iff. now exists l, post.
Qed.

Lemma contains_join needle parts :
  needle <> [] -> ~ In LF needle ->
  contains needle (join [LF] parts) = true ->
  exists l, In l parts /\ contains needle l = true.
Proof.
  intros Hne Hx. induction parts as [|l parts IH]; intros H.
  - rewrite contains_nil_false in H by assumption. discriminate.
  - destruct parts as [|l2 parts].
    + exists l. split; [now left|exact H].
    + rewrite join_cons2 in H. cbn [app] in H.
      apply contains_split in H as [H|H]; try assumption.
      * exists l. split; [now left|exact H].
      * destruct (IH H) as (l' & Hl' & Hc). exists l'. split; [now right|exact Hc].
Qed.

Lemma scan_In v b lines l :
  In l (scan v b lines) -> l = timeout_line v \/ In l lines.
Proof.
  revert b. induction lines as [|line rest IH]; intros b; [intros []|].
  simpl. intros [H|H].
  - destruct (replaces b line); [now left|right; now left].
  - destruct (IH _ H); auto.
Qed.

Lemma ins_In v b lines l :
  In l (ins v b lines) -> l = timeout_line v \/ In l lines.
Proof.
  revert b. induction lines as [|line rest IH]; intros b.
  - simpl. destruct b; [|intros []]. intros [H|[]]. now left.
  - simpl. destruct (is_sim_header line).
    + intros [H|H]; [right; now left|]. destruct (IH _ H); auto.
    + destruct (b && is_table_header (strip line)).
      * intros [H|H]; [now left|now right].
      * intros [H|H]; [right; now left|]. destruct (IH _ H); auto.
Qed.

(** Every line [override_sim_timeout] writes is a line it read or the
    line [timeout = value]. *)
Lemma override_lines_In v lines l :
  In l (override_lines v lines) -> l = timeout_line v \/ In l lines.
Proof.
  rewrite override_lines_eq. destruct (any_replaced false lines).
  - apply scan_In.
  - intros H. apply ins_In in H as [H|H]; [now left|]. now apply scan_In in H.
Qed.

Lemma contains_head needle x rest s :
  needle = x :: rest -> contains needle s = true -> In x s.
Proof.
  intros -> H. apply contains_iff in H as (pre & post & ->).
  apply in_or_app. right. now left.
Qed.

Lemma timeout_line_chars v c :
  In c (timeout_line v) ->
  In c (lit "timeout = -") \/ isdecimal c = true.
Proof.
  unfold timeout_line.
  destruct (format_int_shape v) as (sign & ds & d & -> & Hs & Hd).
  intros H. apply in_app_or in H as [H|H].
  - left. revert H. vm_compute. tauto.
  - apply in_app_or in H as [H|H].
    + left. destruct Hs as [->| ->]; [destruct H|].
      revert H. vm_compute. tauto.
    + right. rewrite List.Forall_forall in Hd. now apply Hd.
Qed.

(** Where a text without newline is found in the result. *)
Lemma override_contains_line base_text needle v :
  needle <> [] -> ~ In LF needle ->
  contains needle (override_sim_timeout base_text v) = true ->
  exists l, In l (override_lines v (splitlines base_text)) /\
            contains needle l = true.
Proof.
  intros Hne Hx H. unfold override_sim_timeout in H.
  apply contains_join; try assumption.
  destruct (endswith [LF] base_text).
  - apply contains_split in H as [H|H]; try assumption.
    rewrite contains_nil_false in H by assumption. discriminate.
  - now rewrite app_nil_r in H.
Qed.

(** X11: a text without newline that occurs in the result of
    [override_sim_timeout] occurs in the document or in the line
    [timeout = value]: apart from that line the function brings nothing
    new into the document. *)
Theorem override_brings_nothing_new (base_text needle : str)
    (timeout_cycles : Z) :
  needle <> [] -> ~ In LF needle ->
  contains needle (override_sim_timeout base_text timeout_cycles) = true ->
  contains needle base_text = true \/
  contains needle (timeout_line timeout_cycles) = true.
Proof.
  intros Hne Hx H.
  apply override_contains_line in H as (l & Hl & Hc); try assumption.
  apply override_lines_In in Hl as [->|Hl]; [now right|]. left.
  apply line_within_text in Hl as (a & b & ->). now apply contains_within.
Qed.

Lemma override_brings_nothing_new_witness :
  contains (lit "timeout = 5") two_timeouts = true \/
  contains (lit "timeout = 5") (timeout_line 5) = true.
Proof.
  apply (override_brings_nothing_new two_timeouts (lit "timeout = 5") 5).
  - discriminate.
  - vm_compute. intuition discriminate.
  - vm_compute. reflexivity.
Defined.

Lemma override_keeps_traffic_absent base_text v :
  contains (lit "[traffic]") base_text = false ->
  contains (lit "[traffic]") (override_sim_timeout base_text v) = false.
Proof.
  intros Hno.
  destruct (contains (lit "[traffic]") (override_sim_timeout base_text v)) eqn:E;
    [|reflexivity].
  apply override_contains_line in E as (l & Hl & Hc);
    [|discriminate|vm_compute; intuition discriminate].
  apply override_lines_In in Hl as [->|Hl].
  - apply (contains_head _ "["%char (lit "traffic]")) in Hc; [|reflexivity].
    apply timeout_line_chars in Hc as [Hc|Hc].
    + revert Hc. vm_compute. intuition discriminate.
    + discriminate.
  - apply line_within_text in Hl as (a & b & ->).
    rewrite (contains_within _ a l b Hc) in Hno. discriminate.
Qed.

(** X12: the two transforms in the order of [main]: for a base
    configuration in which the text [[traffic]] does not occur the run
    configuration is always produced; it is the base configuration with
    the timeout overridden, closed by a newline when it is not, followed
    by the [traffic] table. *)
Theorem run_config_text (base_text traffic_config : str) (sim_timeout : Z) :
  contains (lit "[traffic]") base_text = false ->
  run_config base_text traffic_config sim_timeout
  = Ok ((if endswith [LF] (override_sim_timeout base_text sim_timeout)
         then override_sim_timeout base_text sim_timeout
         else override_sim_timeout base_text sim_timeout ++ [LF])
        ++ traffic_section traffic_config).
Proof.
  intros Hno. unfold run_config. rewrite append_traffic_file_eq.
  now rewrite (override_keeps_traffic_absent _ _ Hno).
Qed.

Lemma run_config_text_witness :
  run_config two_timeouts (lit "t.toml") 5
  = Ok ((if endswith [LF] (override_sim_timeout two_timeouts 5)
         then override_sim_timeout two_timeouts 5
         else override_sim_timeout two_timeouts 5 ++ [LF])
        ++ traffic_section (lit "t.toml")).
Proof.
  apply (run_config_text two_timeouts (lit "t.toml") 5).
  vm_compute. reflexivity.
Defined.


(** *** One value after another *)

Lemma scan_scan v1 v2 b lines :
  scan v2 b (scan v1 b lines) = scan v2 b lines /\
  any_replaced b (scan v1 b lines) = any_replaced b lines.
Proof.
  revert b. induction lines as [|line rest IH]; intros b; [easy|].
  simpl. destruct (replaces b line) eqn:E.
  - rewrite replaces_timeout_line, next_in_sim_timeout_line.
    rewrite (replaces_next _ _ E). rewrite (replaces_in_sim _ _ E) in *.
    destruct (IH true) as [-> ->]. easy.
  - rewrite E. destruct (IH (next_in_sim b line)) as [-> ->]. easy.
Qed.

Lemma ins_scan v1 v2 b lines :
  any_replaced b lines = false -> b || has_sim lines = true ->
  any_replaced b (ins v1 b lines) = true /\
  scan v2 b (ins v1 b lines) = ins v2 b lines.
Proof.
  revert b. induction lines as [|line rest IH]; intros b Hnone Hsim.
  - simpl in Hsim. rewrite orb_false_r in Hsim. subst b. simpl.
    rewrite replaces_timeout_line. easy.
  - simpl in Hnone. apply orb_false_iff in Hnone as [Hline Hrest].
    simpl. destruct (is_sim_header line) eqn:Es.
    + assert (next_in_sim b line = true) as Hn.
      { unfold next_in_sim. rewrite sim_header_is_header by assumption.
        exact Es. }
      rewrite Hn in Hrest. simpl. rewrite Hline, Hn. simpl.
      destruct (IH true Hrest eq_refl) as [-> ->]. easy.
    + destruct (b && is_table_header (strip line)) eqn:Eh.
      * apply andb_true_iff in Eh as [-> Eh].
        assert (next_in_sim true line = false) as Hn.
        { unfold next_in_sim. rewrite Eh. exact Es. }
        rewrite Hn in Hrest. simpl.
        rewrite replaces_timeout_line, next_in_sim_timeout_line.
        rewrite Hline, Hn, (scan_none _ _ _ Hrest). easy.
      * assert (next_in_sim b line = b) as Hn.
        { unfold next_in_sim.
          destruct (is_table_header (strip line)); [|reflexivity].
          rewrite andb_true_r in Eh. subst b. exact Es. }
        rewrite Hn in Hrest. simpl. rewrite Hline, Hn. simpl.
        simpl in Hsim. rewrite Es in Hsim. simpl in Hsim.
        destruct (IH b Hrest Hsim) as [-> ->]. easy.
Qed.

Lemma override_lines_twice v1 v2 lines :
  override_lines v2 (override_lines v1 lines) = override_lines v2 lines.
Proof.
  rewrite (override_lines_eq v1 lines), (override_lines_eq v2 lines).
  destruct (any_replaced false lines) eqn:E.
  - rewrite override_lines_eq.
    destruct (scan_scan v1 v2 false lines) as [-> ->]. now rewrite E.
  - rewrite !(scan_none _ _ _ E). destruct (has_sim lines) eqn:Es.
    + destruct (ins_scan v1 v2 false lines E Es) as [H1 H2].
      rewrite override_lines_eq, H1. exact H2.
    + rewrite !(ins_no_sim _ _ Es), override_lines_eq, E, (scan_none _ _ _ E).
      now apply ins_no_sim.
Qed.

(** What [override_sim_timeout] writes has a replaced line or no [sim]
    header; the first loop keeps it as it is. *)
Lemma override_lines_settled v lines :
  (any_replaced false (override_lines v lines) = true \/
   has_sim (override_lines v lines) = false) /\
  scan v false (override_lines v lines) = override_lines v lines.
Proof.
  rewrite override_lines_eq. destruct (any_replaced false lines) eqn:E.
  - destruct (scan_scan v v false lines) as [H1 H2]. rewrite H1, H2. auto.
  - rewrite (scan_none _ _ _ E). destruct (has_sim lines) eqn:Es.
    + destruct (ins_scan v v false lines E Es) as [H1 H2]. auto.
    + rewrite (ins_no_sim _ _ Es). split; [now right|now apply scan_none].
Qed.

Lemma has_sim_snoc_empty lines : has_sim (lines ++ [[]]) = has_sim lines.
Proof.
  unfold has_sim. rewrite existsb_app. simpl.
  change (is_sim_header []) with false. now rewrite !orb_false_r.
Qed.

Lemma override_lines_snoc_empty v lines :
  any_replaced false lines = true \/ has_sim lines = false ->
  override_lines v (lines ++ [[]]) = override_lines v lines ++ [[]].
Proof.
  intros H. rewrite !override_lines_eq.
  destruct (scan_snoc_empty v false lines) as [H1 H2].
  unfold str in *. rewrite H1, H2. clear H1 H2.
  destruct (any_replaced false lines) eqn:E; [reflexivity|].
  destruct H as [H|H]; [discriminate|].
  rewrite (scan_none _ _ _ E).
  rewrite !ins_no_sim; [reflexivity|exact H|].
  now rewrite has_sim_snoc_empty.
Qed.

Lemma override_of_closed v l parts :
  Forall no_break (l :: parts) ->
  override_sim_timeout (join [LF] (l :: parts) ++ [LF]) v
  = join [LF] (override_lines v (l :: parts)) ++ [LF].
Proof.
  intros Hnb. unfold override_sim_timeout.
  rewrite splitlines_join_LF by assumption. now rewrite endswith1_snoc.
Qed.

Lemma override_of_open v parts :
  Forall no_break parts ->
  any_replaced false parts = true \/ has_sim parts = false ->
  override_sim_timeout (join [LF] parts) v
  = join [LF] (override_lines v parts).
Proof.
  intros Hnb Hset.
  destruct parts as [|p0 ps]; [reflexivity|].
  destruct (@exists_last _ (p0 :: ps)) as (front & l & E); [discriminate|].
  rewrite E in *. clear E p0 ps.
  destruct l as [|c l].
  - assert (Hset' : any_replaced false front = true \/ has_sim front = false).
    { destruct (scan_snoc_empty v false front) as [_ <-].
      now rewrite <- has_sim_snoc_empty. }
    pose proof (override_lines_snoc_empty v front Hset') as Hsn.
    unfold str in *. rewrite Hsn. clear Hsn.
    destruct front as [|f front]; [reflexivity|].
    rewrite !join_snoc;
      [|apply override_lines_nonempty; discriminate|discriminate].
    rewrite !app_nil_r. apply override_of_closed.
    now apply Forall_app in Hnb as [Hnb _].
  - assert (Hlast : last_nonempty (front ++ [c :: l])).
    { intros fr Hfr. apply app_inj_tail in Hfr as [_ Hfr]. discriminate. }
    unfold override_sim_timeout.
    rewrite splitlines_join, endswith_join by assumption.
    now rewrite app_nil_r.
Qed.

(** X13: overriding with one value and then with another gives what
    overriding with the second value alone gives: the last value wins and
    nothing of the first one is left. *)
Theorem override_last_value_wins (base_text : str) (v1 v2 : Z) :
  override_sim_timeout (override_sim_timeout base_text v1) v2
  = override_sim_timeout base_text v2.
Proof.
  unfold override_sim_timeout at 2 3.
  pose proof (override_lines_twice v1 v2 (splitlines base_text)) as Htw.
  pose proof (override_lines_no_break v1 _
                (splitlines_lines_no_break base_text)) as Hnb.
  destruct (override_lines_settled v1 (splitlines base_text)) as [Hset _].
  destruct (endswith [LF] base_text) eqn:E.
  - assert (Hne : splitlines base_text <> []).
    { apply splitlines_from_nonempty. now intros ->. }
    apply (override_lines_nonempty v1) in Hne.
    destruct (override_lines v1 (splitlines base_text))
      as [|l parts]; [contradiction|].
    rewrite override_of_closed by assumption. now rewrite Htw.
  - rewrite !app_nil_r. rewrite override_of_open by assumption. now rewrite Htw.
Qed.


(** *** The result, read again *)

Lemma any_replaced_nth b lines :
  any_replaced b lines = true ->
  exists i line,
    nth_error lines i = Some line /\
    replaces (fold_left next_in_sim (firstn i lines) b) line = true.
Proof.
  revert b. induction lines as [|l rest IH]; intros b H; [discriminate|].
  simpl in H. apply orb_true_iff in H as [H|H].
  - now exists 0%nat, l.
  - destruct (IH _ H) as (i & line & Hn & Hr). now exists (S i), line.
Qed.

(** The lines of the result are the lines written, but for an empty last
    line. *)
Lemma override_result_lines base_text v :
  exists blank,
    (blank = [] \/ blank = [[]]) /\
    override_lines v (splitlines base_text)
    = splitlines (override_sim_timeout base_text v) ++ blank.
Proof.
  unfold override_sim_timeout.
  pose proof (override_lines_no_break v _
                (splitlines_lines_no_break base_text)) as Hnb.
  destruct (endswith [LF] base_text) eqn:E.
  - assert (Hne : splitlines base_text <> []).
    { apply splitlines_from_nonempty. now intros ->. }
    apply (override_lines_nonempty v) in Hne.
    destruct (override_lines v (splitlines base_text))
      as [|l parts]; [contradiction|].
    exists []. split; [now left|].
    now rewrite splitlines_join_LF, app_nil_r.
  - rewrite app_nil_r.
    destruct (override_lines v (splitlines base_text)) as [|p0 ps].
    { exists []. auto. }
    destruct (@exists_last _ (p0 :: ps)) as (front & l & E0).
    { discriminate. }
    rewrite E0 in *. clear E0 p0 ps.
    destruct l as [|c l].
    + exists [[]]. split; [now right|]. f_equal.
      destruct front as [|f front]; [reflexivity|].
      rewrite join_snoc by discriminate. rewrite app_nil_r.
      symmetry. apply splitlines_join_LF.
      now apply Forall_app in Hnb as [Hnb _].
    + exists []. split; [now left|]. rewrite app_nil_r. symmetry.
      apply splitlines_join; [assumption|].
      intros fr Hfr. apply app_inj_tail in Hfr as [_ Hfr]. discriminate.
Qed.

Lemma nth_error_prefix {A} (l blank : list A) i x :
  nth_error l i = Some x -> nth_error (l ++ blank) i = Some x.
Proof.
  intros H. rewrite nth_error_app1; [exact H|].
  apply nth_error_Some. congruence.
Qed.

Lemma in_target_section_prefix lines blank i :
  (i <= length lines)%nat ->
  in_target_section (lines ++ blank) i <-> in_target_section lines i.
Proof.
  intros Hi. unfold in_target_section. split.
  - intros (j & hdr & Hj & Hn & Hs & Hno). exists j, hdr.
    rewrite nth_error_app1 in Hn by lia. repeat split; auto.
    intros k l Hk Hl. apply (Hno k); [exact Hk|now apply nth_error_prefix].
  - intros (j & hdr & Hj & Hn & Hs & Hno). exists j, hdr.
    repeat split; auto; [now apply nth_error_prefix|].
    intros k l Hk Hl. rewrite nth_error_app1 in Hl by lia. now apply (Hno k).
Qed.

(** X14: in the document [override_sim_timeout] returns, read line by
    line, every line of the [sim] table whose trimmed text starts with
    [timeout] is the line [timeout = value]; and when some line of the
    document given is the [[sim]] header, the [sim] table of the result
    has this line. *)
Theorem override_result_has_timeout (base_text : str) (timeout_cycles : Z) :
  let result := splitlines (override_sim_timeout base_text timeout_cycles) in
  (forall i line,
     nth_error result i = Some line ->
     in_target_section result i -> is_key_line line ->
     line = timeout_line timeout_cycles)
  /\ ((exists hdr, In hdr (splitlines base_text) /\ strip hdr = lit "[sim]") ->
      exists i,
        nth_error result i = Some (timeout_line timeout_cycles) /\
        in_target_section result i).
Proof.
  intros result.
  destruct (override_result_lines base_text timeout_cycles)
    as (blank & Hextra & Hlines). fold result in Hlines.
  destruct (override_lines_settled timeout_cycles (splitlines base_text))
    as [Hset Hfix].
  set (written := override_lines timeout_cycles (splitlines base_text)) in *.
  assert (Hkey : forall i line,
            nth_error written i = Some line ->
            in_target_section written i -> is_key_line line ->
            line = timeout_line timeout_cycles).
  { intros i line Hn Hsec Hk.
    pose proof (scan_nth timeout_cycles false written i line Hn) as Hs.
    rewrite Hfix, Hn, replaces_eq in Hs.
    apply in_sim_at_iff in Hsec. unfold in_sim_at in Hsec.
    unfold is_key_line in Hk. rewrite Hsec, Hk in Hs. simpl in Hs.
    now injection Hs. }
  split.
  - intros i line Hn Hsec Hk. apply (Hkey i); [| |exact Hk].
    + rewrite Hlines. now apply nth_error_prefix.
    + rewrite Hlines. apply in_target_section_prefix; [|exact Hsec].
      apply Nat.lt_le_incl, nth_error_Some. congruence.
  - intros (hdr & Hin & Hs).
    assert (Hsim : has_sim (splitlines base_text) = true).
    { unfold has_sim. apply existsb_exists. exists hdr. split; [exact Hin|].
      unfold is_sim_header. now apply str_eqb_eq. }
    assert (Hrep : any_replaced false written = true).
    { destruct Hset as [H|H]; [exact H|]. exfalso.
      subst written. rewrite override_lines_eq in H.
      destruct (any_replaced false (splitlines base_text)) eqn:E.
      - destruct (scan_scan timeout_cycles timeout_cycles false
                    (splitlines base_text)) as [_ E'].
        pose proof (has_sim_none_replaced _ H) as Hc. congruence.
      - rewrite (scan_none _ _ _ E) in H.
        destruct (ins_scan timeout_cycles timeout_cycles false _ E Hsim)
          as [E' _].
        pose proof (has_sim_none_replaced _ H) as Hc. congruence. }
    apply any_replaced_nth in Hrep as (i & line & Hn & Hr).
    rewrite replaces_eq in Hr. apply andb_true_iff in Hr as [Hsec Hk].
    assert (Hsec' : in_target_section written i) by now apply in_sim_at_iff.
    pose proof (Hkey i line Hn Hsec' Hk) as ->.
    assert (Hi : (i < length result)%nat).
    { rewrite Hlines in Hn.
      destruct (Nat.lt_ge_cases i (length result)) as [Hlt|Hge]; [exact Hlt|].
      rewrite nth_error_app2 in Hn by exact Hge.
      destruct Hextra as [->| ->].
      - now destruct (i - length result)%nat.
      - destruct (i - length result)%nat as [|[|n]]; simpl in Hn;
          discriminate. }
    exists i. split.
    + rewrite Hlines, nth_error_app1 in Hn by exact Hi. exact Hn.
    + rewrite Hlines in Hsec'.
      apply in_target_section_prefix in Hsec'; [exact Hsec'|lia].
Qed.


(** *** The insertion *)

Lemma is_sim_header_iff line :
  is_sim_header line = true <-> strip line = lit "[sim]".
Proof. unfold is_sim_header. apply str_eqb_eq. Qed.

Lemma sim_seen_tail b line rest k :
  is_sim_header line = false ->
  sim_seen b (line :: rest) (S k) -> sim_seen b rest k.
Proof.
  intros Es [H|(j & hdr & Hj & Hn & Hs)]; [now left|].
  destruct j as [|j].
  - simpl in Hn. injection Hn as ->. apply is_sim_header_iff in Hs. congruence.
  - right. exists j, hdr. repeat split; auto. lia.
Qed.

(** Where the second loop puts the line. *)
Lemma ins_shape v b lines :
  b || has_sim lines = true ->
  exists e,
    (e <= length lines)%nat /\
    ins v b lines = firstn e lines ++ timeout_line v :: skipn e lines /\
    sim_seen b lines e /\
    (forall k l, (k < e)%nat -> nth_error lines k = Some l ->
       sim_seen b lines k -> is_table_header (strip l) = true ->
       strip l = lit "[sim]") /\
    (e = length lines \/
     exists l, nth_error lines e = Some l /\
               is_table_header (strip l) = true /\ strip l <> lit "[sim]").
Proof.
  revert b. induction lines as [|line rest IH]; intros b Hsim.
  - simpl in Hsim. rewrite orb_false_r in Hsim. subst b. exists 0%nat.
    split; [reflexivity|]. split; [reflexivity|]. split; [now left|].
    split; [intros k l Hk; lia|now left].
  - simpl. destruct (is_sim_header line) eqn:Es.
    + destruct (IH true eq_refl) as (e & He & Hins & _ & Hbetween & Hend).
      exists (S e). split; [simpl; lia|]. split; [simpl; now rewrite Hins|].
      split.
      { right. exists 0%nat, line. split; [lia|]. split; [reflexivity|].
        now apply is_sim_header_iff. }
      split.
      * intros k l Hk Hn _ Hh. destruct k as [|k].
        -- simpl in Hn. injection Hn as <-. now apply is_sim_header_iff.
        -- apply (Hbetween k l); [lia|exact Hn|now left|exact Hh].
      * destruct Hend as [->|(l & Hn & Hh & Hs)]; [now left|].
        right. now exists l.
    + destruct (b && is_table_header (strip line)) eqn:Eh.
      * apply andb_true_iff in Eh as [-> Eh]. exists 0%nat.
        split; [lia|]. split; [reflexivity|]. split; [now left|].
        split; [intros k l Hk; lia|].
        right. exists line. split; [reflexivity|]. split; [exact Eh|].
        intros Hs. apply is_sim_header_iff in Hs. congruence.
      * simpl in Hsim. rewrite Es in Hsim. simpl in Hsim.
        destruct (IH b Hsim) as (e & He & Hins & Hseen & Hbetween & Hend).
        exists (S e). split; [simpl; lia|]. split; [simpl; now rewrite Hins|].
        split.
        { destruct Hseen as [H|(j & hdr & Hj & Hn & Hs)]; [now left|].
          right. exists (S j), hdr. repeat split; auto. lia. }
        split.
        -- intros k l Hk Hn Hseen' Hh. destruct k as [|k].
           ++ simpl in Hn. injection Hn as <-.
              destruct Hseen' as [->|(j & _ & Hj & _)]; [|lia].
              simpl in Eh. congruence.
           ++ apply (Hbetween k l); [lia|exact Hn| |exact Hh].
              now apply (sim_seen_tail b line).
        -- destruct Hend as [->|(l & Hn & Hh & Hs)]; [now left|].
           right. now exists l.
Qed.

(** X15: when the document has a [[sim]] header and no line of the [sim]
    table starts with [timeout], [override_sim_timeout] adds the line
    [timeout = value] once and keeps every line of the document, in
    order: the line goes after the first [[sim]] header, before the first
    later table header that is not [[sim]], or after the last line when
    there is no such header. *)
Theorem override_inserts_timeout (base_text : str) (timeout_cycles : Z) :
  let lines := splitlines base_text in
  (forall i line, nth_error lines i = Some line ->
     in_target_section lines i -> ~ is_key_line line) ->
  (exists hdr, In hdr lines /\ strip hdr = lit "[sim]") ->
  exists e,
    (e <= length lines)%nat /\
    override_sim_timeout base_text timeout_cycles
    = join [LF] (firstn e lines ++ timeout_line timeout_cycles :: skipn e lines)
      ++ (if endswith [LF] base_text then [LF] else []) /\
    (exists j hdr, (j < e)%nat /\ nth_error lines j = Some hdr /\
                   strip hdr = lit "[sim]") /\
    (forall k l, (k < e)%nat -> nth_error lines k = Some l ->
       (exists j hdr, (j < k)%nat /\ nth_error lines j = Some hdr /\
                      strip hdr = lit "[sim]") ->
       is_table_header (strip l) = true -> strip l = lit "[sim]") /\
    (e = length lines \/
     exists l, nth_error lines e = Some l /\
               is_table_header (strip l) = true /\ strip l <> lit "[sim]").
Proof.
  intros lines Hnokey (hdr & Hin & Hs).
  assert (Hsim : has_sim lines = true).
  { unfold has_sim. apply existsb_exists. exists hdr. split; [exact Hin|].
    now apply is_sim_header_iff. }
  assert (Hnone : any_replaced false lines = false).
  { destruct (any_replaced false lines) eqn:E; [|reflexivity]. exfalso.
    apply any_replaced_nth in E as (i & line & Hn & Hr).
    rewrite replaces_eq in Hr. apply andb_true_iff in Hr as [Hsec Hk].
    apply (Hnokey i line Hn); [now apply in_sim_at_iff|exact Hk]. }
  destruct (ins_shape timeout_cycles false lines Hsim)
    as (e & He & Hins & Hseen & Hbetween & Hend).
  exists e. split; [exact He|]. split.
  - unfold override_sim_timeout. fold lines.
    now rewrite override_lines_eq, Hnone, (scan_none _ _ _ Hnone), Hins.
  - split.
    + destruct Hseen as [H|H]; [discriminate|exact H].
    + split; [|exact Hend].
      intros k l Hk Hn Hseen' Hh. apply (Hbetween k l); auto. now right.
Qed.

Lemma override_inserts_timeout_witness :
  exists e,
    (e <= length (splitlines sim_without_timeout))%nat /\
    override_sim_timeout sim_without_timeout 9
    = join [LF] (firstn e (splitlines sim_without_timeout)
                 ++ timeout_line 9 :: skipn e (splitlines sim_without_timeout))
      ++ (if endswith [LF] sim_without_timeout then [LF] else []) /\
    (exists j hdr, (j < e)%nat /\
       nth_error (splitlines sim_without_timeout) j = Some hdr /\
       strip hdr = lit "[sim]") /\
    (forall k l, (k < e)%nat ->
       nth_error (splitlines sim_without_timeout) k = Some l ->
       (exists j hdr, (j < k)%nat /\
          nth_error (splitlines sim_without_timeout) j = Some hdr /\
          strip hdr = lit "[sim]") ->
       is_table_header (strip l) = true -> strip l = lit "[sim]") /\
    (e = length (splitlines sim_without_timeout) \/
     exists l, nth_error (splitlines sim_without_timeout) e = Some l /\
               is_table_header (strip l) = true /\ strip l <> lit "[sim]").
Proof.
  apply (override_inserts_timeout sim_without_timeout 9).
  - intros i line Hn _ Hk. unfold is_key_line in Hk.
    destruct i as [|[|[|i]]]; vm_compute in Hn.
    + injection Hn as <-. vm_compute in Hk. discriminate.
    + injection Hn as <-. vm_compute in Hk. discriminate.
    + injection Hn as <-. vm_compute in Hk. discriminate.
    + destruct i; discriminate.
  - exists (lit "[sim]"). split; [vm_compute; auto|reflexivity].
Defined.


(** *** The appended table, read again *)

(** After a text that ends with a newline the lines start afresh. *)
Lemma splitlines_from_closed cur body rest :
  splitlines_from cur (body ++ [LF] ++ rest)
  = splitlines_from cur (body ++ [LF]) ++ splitlines rest.
Proof.
  remember (length body) as n eqn:Hn. revert cur body Hn.
  induction n as [n IH] using lt_wf_ind. intros cur body ->.
  destruct body as [|c body].
  - cbn [app]. now rewrite !splitlines_from_LF.
  - cbn [app splitlines_from]. destruct (islinebreak c) eqn:Hc.
    + destruct body as [|d body].
      * cbn [app]. destruct (Ascii.eqb c CR && Ascii.eqb LF LF); [reflexivity|].
        now rewrite !splitlines_from_LF.
      * cbn [app]. destruct (Ascii.eqb c CR && Ascii.eqb d LF).
        -- cbn [app]. f_equal.
           apply (IH (length body) ltac:(simpl; lia) [] body eq_refl).
        -- cbn [app]. f_equal.
           apply (IH (length (d :: body)) ltac:(simpl; lia) [] (d :: body)
                    eq_refl).
    + apply (IH (length body) ltac:(simpl; lia) (c :: cur) body eq_refl).
Qed.

(** X16: in the document [append_traffic_file_to_config] returns, the
    appended table is the end, line by line: after the lines of the base
    text come one empty line, the header line [[traffic]] and the line
    [file = "path"], and nothing after them (for a path without line
    boundary). *)
Theorem append_section_lines (base_text traffic_file_rel text : str) :
  no_break traffic_file_rel ->
  append_traffic_file_to_config base_text traffic_file_rel = Ok text ->
  splitlines text
  = splitlines (if endswith [LF] base_text then base_text
                else base_text ++ [LF])
    ++ [ []; lit "[traffic]";
         lit "file = " ++ [DQUOTE] ++ traffic_file_rel ++ [DQUOTE] ].
Proof.
  intros Hnb H. rewrite append_traffic_file_eq in H.
  destruct (contains (lit "[traffic]") base_text); [discriminate|].
  injection H as <-.
  set (closed := if endswith [LF] base_text then base_text
                 else base_text ++ [LF]).
  assert (Hclosed : exists body, closed = body ++ [LF]).
  { subst closed. destruct (endswith [LF] base_text) eqn:E.
    - apply endswith_iff in E as [t ->]. now exists t.
    - now exists base_text. }
  destruct Hclosed as [body Hbody].
  set (file_line := lit "file = " ++ [DQUOTE] ++ traffic_file_rel ++ [DQUOTE]).
  assert (Hsec : traffic_section traffic_file_rel
                 = [LF] ++ (join [LF] [lit "[traffic]"; file_line] ++ [LF])).
  { unfold traffic_section, file_line. rewrite join_cons2.
    unfold join. now rewrite <- !app_assoc. }
  rewrite Hsec. unfold splitlines at 1 2.
  change (splitlines_from []
            (closed ++ [LF] ++ join [LF] [lit "[traffic]"; file_line] ++ [LF])
          = splitlines_from [] closed ++ [[]; lit "[traffic]"; file_line]).
  rewrite Hbody, <- app_assoc.
  rewrite (splitlines_from_closed [] body
             ([LF] ++ join [LF] [lit "[traffic]"; file_line] ++ [LF])).
  f_equal. unfold splitlines. cbn [app]. rewrite splitlines_from_LF.
  cbn [rev]. f_equal. apply splitlines_join_LF.
  constructor; [vm_compute; repeat constructor|].
  constructor; [|constructor].
  unfold file_line. apply Forall_app. split; [vm_compute; repeat constructor|].
  apply Forall_app. split; [vm_compute; repeat constructor|].
  apply Forall_app. split; [exact Hnb|vm_compute; repeat constructor].
Qed.

Lemma append_section_lines_witness :
  splitlines (lit "[sim]" ++ [LF] ++ traffic_section (lit "t.toml"))
  = splitlines (if endswith [LF] (lit "[sim]") then lit "[sim]"
                else lit "[sim]" ++ [LF])
    ++ [ []; lit "[traffic]";
         lit "file = " ++ [DQUOTE] ++ lit "t.toml" ++ [DQUOTE] ].
Proof.
  apply (append_section_lines (lit "[sim]") (lit "t.toml")
           (lit "[sim]" ++ [LF] ++ traffic_section (lit "t.toml"))).
  - vm_compute. repeat constructor.
  - vm_compute. reflexivity.
Defined.

End ConfigCoverage.
